(** * The worker of the job-processing engine, and registration on a pool

    A shallow embedding of the per-worker execution loop, of job processing
    with its timeout, clear and completion paths, of the retry-or-dead
    routing, and of job registration on a pool, together with the
    properties the specification states about them.

    Conventions.
    - Go's [int64] is a [Z] kept in range by [Int64.wrap]; [int] and [uint]
      are taken at 64 bits (the gc compiler on amd64 and arm64), a [uint]
      being a [Z] between 0 and [2^64 - 1].
    - The shared store is a record of finite maps, one per key family of the
      keyspace; the key-naming functions build structured keys.
    - The worker's code runs in a state monad over [world]: the store, the
      clock, the random source and the trace of what the worker emitted
      (log lines, observer messages, channel acknowledgements).
    - A [select] is resolved by the environment: the branch taken is an
      argument ([outcome], [loopEvent]). *)

From Stdlib Require Import ZArith Lia Ascii.
From stdpp Require Import base gmap strings list fin_maps pretty.

Local Open Scope Z_scope.

(** ** Machine integers *)

Module Int64.
Definition min_int : Z := - 2 ^ 63.
Definition max_int : Z := 2 ^ 63 - 1.

(** Two's-complement reduction of an integer to 64 bits. *)
Definition wrap (z : Z) : Z := (z + 2 ^ 63) mod 2 ^ 64 - 2 ^ 63.

Definition add (x y : Z) : Z := wrap (x + y).
Definition sub (x y : Z) : Z := wrap (x - y).
Definition mul (x y : Z) : Z := wrap (x * y).

Definition in_range (z : Z) : Prop := min_int <= z <= max_int.
End Int64.

(** [time.Duration] is an [int64] count of nanoseconds. *)
Module Duration.
Definition Nanosecond : Z := 1.
Definition Microsecond : Z := 1000 * Nanosecond.
Definition Millisecond : Z := 1000 * Microsecond.
Definition Second : Z := 1000 * Millisecond.
Definition Minute : Z := 60 * Second.
End Duration.

(** ** Errors *)

(** The dynamic types an [error] value can have that the worker tells
    apart: the string error of [errors.New] and [fmt.Errorf], this
    package's [NoRetryError] (held by pointer), and any other type a
    handler returns. *)
Inductive error : Type :=
  | errorString (s : string)
  | NoRetryError (msg : string)
  | foreignError (type_name msg : string).

(** The [Error()] method. *)
Definition Error (e : error) : string :=
  match e with
  | errorString s => s
  | NoRetryError msg => msg
  | foreignError _ msg => msg
  end.

(** The type assertion of [runErr] to a pointer to [NoRetryError]: its
    [ok] result. *)
Definition isNoRetryError (e : error) : bool :=
  match e with
  | NoRetryError _ => true
  | _ => false
  end.

(** ** Keys of the shared store *)

(** Modelled from the spec: the key-naming functions of [redis.go] are
    missing from the sources; section 3 of the specification gives the key
    families. Each function is kept with the arguments it is called with in
    [worker.go]; a key is the tuple of these arguments, so two keys of one
    family are equal only on equal arguments and keys of different families
    never meet. *)
Definition redisKeyJobs (namespace jobName : string) : string * string :=
  (namespace, jobName).
Definition redisKeyJobsInProgress (namespace poolID jobName : string)
  : string * string * string := (namespace, poolID, jobName).
Definition redisKeyJobsPaused (namespace jobName : string) : string * string :=
  (namespace, jobName).
Definition redisKeyJobsLock (namespace jobName : string) : string * string :=
  (namespace, jobName).
Definition redisKeyJobsLockInfo (namespace jobName : string) : string * string :=
  (namespace, jobName).
Definition redisKeyJobsConcurrency (namespace jobName : string) : string * string :=
  (namespace, jobName).

Inductive zkey : Type :=
  | KeyRetry (namespace : string)
  | KeyDead (namespace : string).

Definition redisKeyRetry (namespace : string) : zkey := KeyRetry namespace.
Definition redisKeyDead (namespace : string) : zkey := KeyDead namespace.

(** ** Job records *)

#[local] Set Warnings "-register-all".

(** A JSON value, for the arguments of a job. *)
Inductive jvalue : Type :=
  | JNull
  | JBool (b : bool)
  | JNum (n : Z)
  | JStr (s : string)
  | JArr (items : list jvalue)
  | JObj (fields : list (string * jvalue)).

(** Modelled from the spec: the [Job] struct of [job.go] is missing from the
    sources. The fields are those of the job record of section 3 (with the
    envelope names of section 6), the [Success] flag that [processJob] sets,
    and the three unexported fields that [fetchJob] hands to [newJob]. *)
Record Job : Type := mkJob {
  Name : string;
  ID : string;
  EnqueuedAt : Z;
  Args : list (string * jvalue);
  Unique : bool;
  Fails : Z;
  LastErr : string;
  FailedAt : Z;
  ScheduledAt : Z;
  Success : bool;
  rawJSON : string;
  dequeuedFrom : string * string;
  inProgQueue : string * string * string
}.

Definition setSuccess (b : bool) (j : Job) : Job :=
  mkJob (Name j) (ID j) (EnqueuedAt j) (Args j) (Unique j) (Fails j)
        (LastErr j) (FailedAt j) (ScheduledAt j) b
        (rawJSON j) (dequeuedFrom j) (inProgQueue j).

(** Modelled from the spec: [job.failed(err)] of [job.go] is missing from
    the sources; section 4.4 step 8 says it bumps [fails] and sets
    [lastErr] and [failedAt]. [now] is the reading of the clock. *)
Definition failed (now : Z) (err : error) (j : Job) : Job :=
  mkJob (Name j) (ID j) (EnqueuedAt j) (Args j) (Unique j)
        (Int64.add (Fails j) 1) (Error err) now
        (ScheduledAt j) (Success j)
        (rawJSON j) (dequeuedFrom j) (inProgQueue j).

(** ** Reflected types *)

(** Go types as [reflect] shows them to the signature checks. Two types are
    identical when the terms are equal: a defined type carries its name and
    its underlying type, the others are structural. *)
Inductive rtype : Type :=
  | TBasic (name : string)
  | TStruct (field_names : list string) (field_types : list rtype)
  | TInterface (methods : list string)
  | TPtr (elem : rtype)
  | TFunc (ins outs : list rtype)
  | TNamed (name : string) (underlying : rtype).

Inductive Kind : Type :=
  | KBasic (name : string) | KStruct | KInterface | KPtr | KFunc.

Fixpoint kindOf (t : rtype) : Kind :=
  match t with
  | TBasic n => KBasic n
  | TStruct _ _ => KStruct
  | TInterface _ => KInterface
  | TPtr _ => KPtr
  | TFunc _ _ => KFunc
  | TNamed _ u => kindOf u
  end.

Definition isStruct (t : rtype) : bool :=
  match kindOf t with KStruct => true | _ => false end.
Definition isFunc (t : rtype) : bool :=
  match kindOf t with KFunc => true | _ => false end.

(** Parameter and result types of a function type ([In], [Out], [NumIn],
    [NumOut] read them); empty for the other kinds, on which the checks
    never ask. *)
Fixpoint funcIns (t : rtype) : list rtype :=
  match t with
  | TFunc i _ => i
  | TNamed _ u => funcIns u
  | _ => []
  end.
Fixpoint funcOuts (t : rtype) : list rtype :=
  match t with
  | TFunc _ o => o
  | TNamed _ u => funcOuts u
  | _ => []
  end.

Fixpoint rtype_eqb (a b : rtype) {struct a} : bool :=
  let fix all2 (l1 l2 : list rtype) {struct l1} : bool :=
    match l1, l2 with
    | [], [] => true
    | x :: r1, y :: r2 => rtype_eqb x y && all2 r1 r2
    | _, _ => false
    end in
  match a, b with
  | TBasic x, TBasic y => String.eqb x y
  | TStruct n1 t1, TStruct n2 t2 =>
      bool_decide (n1 = n2) && all2 t1 t2
  | TInterface m1, TInterface m2 => bool_decide (m1 = m2)
  | TPtr x, TPtr y => rtype_eqb x y
  | TFunc i1 o1, TFunc i2 o2 => all2 i1 i2 && all2 o1 o2
  | TNamed n1 u1, TNamed n2 u2 => String.eqb n1 n2 && rtype_eqb u1 u2
  | _, _ => false
  end.

(** The types the checks compare against. *)
Definition errorType : rtype := TNamed "error" (TInterface ["Error"]).
Definition JobStruct : rtype :=
  TNamed "work.Job"
    (TStruct ["Name"; "ID"; "EnqueuedAt"; "Args"; "Unique"; "Fails";
              "LastErr"; "FailedAt"; "ScheduledAt"; "Success"]
             [TBasic "string"; TBasic "string"; TBasic "int64";
              TBasic "map[string]interface {}"; TBasic "bool";
              TBasic "int64"; TBasic "string"; TBasic "int64";
              TBasic "int64"; TBasic "bool"]).
Definition JobPtr : rtype := TPtr JobStruct.
Definition NextMiddlewareFunc : rtype :=
  TNamed "work.NextMiddlewareFunc" (TFunc [] [errorType]).
(** [func(j *Job) error] and [func(j *Job, next NextMiddlewareFunc) error],
    the generic shapes the type assertions test for. *)
Definition GenericHandler : rtype := TFunc [JobPtr] [errorType].
Definition GenericMiddlewareHandler : rtype :=
  TFunc [JobPtr; NextMiddlewareFunc] [errorType].

(** ** Job types *)

(** [type BackoffCalculator func(job *Job) int64]. *)
Definition BackoffCalculator : Type := Job -> Z.

Record JobOptions : Type := mkJobOptions {
  Priority : Z;                          (* uint *)
  MaxFails : Z;                          (* uint *)
  SkipDead : bool;
  MaxConcurrency : Z;                    (* uint *)
  Backoff : option BackoffCalculator;    (* None: the nil function *)
  StartingDeadline : Z;                  (* int64 *)
  RetryOnStart : bool;
  Timeout : Z                            (* int *)
}.

Record middlewareHandler : Type := mkMiddlewareHandler {
  mwIsGeneric : bool;
  DynamicMiddleware : rtype
}.

Record jobType : Type := mkJobType {
  jtName : string;
  jtOptions : JobOptions;
  IsGeneric : bool;
  DynamicHandler : rtype;
  jtMiddleware : list middlewareHandler;
  jtHook : list middlewareHandler
}.

(** ** The shared store *)

(** One finite map per key family of section 3. A list has its head at the
    left end ([LPUSH] side); an absent key and an empty list are the same
    thing, as are an absent counter and zero when a command reads it. *)
Record store : Type := mkStore {
  pending : gmap (string * string) (list string);
  inprogress : gmap (string * string * string) (list string);
  paused : gmap (string * string) Z;
  lock : gmap (string * string) Z;
  lock_info : gmap (string * string) (gmap string Z);
  max_concurrency : gmap (string * string) Z;
  retry : gmap string (gmap string Z);
  dead : gmap string (gmap string Z);
  unique : gmap string string
}.

Definition emptyStore : store := mkStore ∅ ∅ ∅ ∅ ∅ ∅ ∅ ∅ ∅.

Definition with_pending (m : gmap (string * string) (list string)) (s : store) : store :=
  mkStore m (inprogress s) (paused s) (lock s) (lock_info s)
          (max_concurrency s) (retry s) (dead s) (unique s).
Definition with_inprogress (m : gmap (string * string * string) (list string))
    (s : store) : store :=
  mkStore (pending s) m (paused s) (lock s) (lock_info s)
          (max_concurrency s) (retry s) (dead s) (unique s).
Definition with_lock (m : gmap (string * string) Z) (s : store) : store :=
  mkStore (pending s) (inprogress s) (paused s) m (lock_info s)
          (max_concurrency s) (retry s) (dead s) (unique s).
Definition with_lock_info (m : gmap (string * string) (gmap string Z))
    (s : store) : store :=
  mkStore (pending s) (inprogress s) (paused s) (lock s) m
          (max_concurrency s) (retry s) (dead s) (unique s).
Definition with_retry (m : gmap string (gmap string Z)) (s : store) : store :=
  mkStore (pending s) (inprogress s) (paused s) (lock s) (lock_info s)
          (max_concurrency s) m (dead s) (unique s).
Definition with_dead (m : gmap string (gmap string Z)) (s : store) : store :=
  mkStore (pending s) (inprogress s) (paused s) (lock s) (lock_info s)
          (max_concurrency s) (retry s) m (unique s).
Definition with_unique (m : gmap string string) (s : store) : store :=
  mkStore (pending s) (inprogress s) (paused s) (lock s) (lock_info s)
          (max_concurrency s) (retry s) (dead s) m.

(** Reading a list or a counter that may be absent. *)
Definition list_at `{Countable K} (m : gmap K (list string)) (k : K) : list string :=
  default [] (m !! k).
Definition int_at `{Countable K} (m : gmap K Z) (k : K) : Z :=
  default 0 (m !! k).

(** Writing a list back: the store drops a key whose list became empty. *)
Definition list_put `{Countable K} (k : K) (l : list string)
    (m : gmap K (list string)) : gmap K (list string) :=
  match l with
  | [] => delete k m
  | _ :: _ => <[k := l]> m
  end.

(** Removal of the first [count] elements equal to [v], from the head. *)
Fixpoint lrem_head (count : nat) (v : string) (l : list string) {struct l}
  : list string :=
  match count, l with
  | O, _ => l
  | S _, [] => []
  | S c, x :: r =>
      if decide (x = v) then lrem_head c v r else x :: lrem_head count v r
  end.

(** [LREM key count value]: a positive count removes from the head, a
    negative one from the tail, zero removes every occurrence. *)
Definition lrem (count : Z) (v : string) (l : list string) : list string :=
  if 0 <? count then lrem_head (Z.to_nat count) v l
  else if count <? 0 then rev (lrem_head (Z.to_nat (- count)) v (rev l))
  else filter (λ x, x ≠ v) l.

Inductive command : Type :=
  | LREM (key : string * string * string) (count : Z) (value : string)
  | DECR (key : string * string)
  | HINCRBY (key : string * string) (field : string) (increment : Z)
  | ZADD (key : zkey) (score : Z) (member : string)
  | DEL (key : string).

(** [ZADD]: the map of a sorted set records, for each member, the score as
    it was last sent. The store itself keeps the score as a 64-bit float:
    [storedScore] below reads what it holds. *)
Definition zadd (score : Z) (member : string) (ns : string)
    (m : gmap string (gmap string Z)) : gmap string (gmap string Z) :=
  <[ns := <[member := score]> (default ∅ (m !! ns))]> m.

Definition run_command (c : command) (s : store) : store :=
  match c with
  | LREM k count v =>
      with_inprogress
        (list_put k (lrem count v (list_at (inprogress s) k)) (inprogress s)) s
  | DECR k => with_lock (<[k := int_at (lock s) k - 1]> (lock s)) s
  | HINCRBY k f d =>
      let h := default ∅ (lock_info s !! k) in
      with_lock_info (<[k := <[f := int_at h f + d]> h]> (lock_info s)) s
  | ZADD (KeyRetry ns) score member =>
      with_retry (zadd score member ns (retry s)) s
  | ZADD (KeyDead ns) score member =>
      with_dead (zadd score member ns (dead s)) s
  | DEL k => with_unique (delete k (unique s)) s
  end.

(** [MULTI] ... [EXEC]: the queued commands run in order, as one step of
    the store. *)
Definition EXEC (cs : list command) (s : store) : store :=
  foldl (λ acc c, run_command c acc) s cs.

(** ** The world a worker runs in *)

Inductive event : Type :=
  | LogError (key : string) (msg : string)
  | Printf (s : string)
  | ObserveStarted (jobName jobID : string) (args : list (string * jvalue))
  | ObserveDone (jobName jobID : string) (err : option error)
  | RunJob (job : Job) (mw : list middlewareHandler) (jtname : string)
  | RunHook (job : Job) (ctx : string) (hk : list middlewareHandler)
  | After (d : Z)
  | TimerReset (d : Z)
  | DoneStopping
  | DoneDraining
  | DoneClearing.

(** [wire] is what went over the connections of the pool, in the order it
    was sent: one entry for each [MULTI] ... [EXEC] batch, and one for each
    command sent on its own. *)
Record world : Type := mkWorldWire {
  redis : store;
  clock : Z;
  entropy : list Z;
  trace : list event;
  wire : list (list command)
}.

(** A world in which nothing was sent yet. *)
Definition mkWorld (s : store) (now : Z) (samples : list Z) (es : list event)
  : world :=
  mkWorldWire s now samples es [].

Definition M (A : Type) : Type := world -> A * world.

#[export] Instance M_ret : MRet M := λ A a σ, (a, σ).
#[export] Instance M_bind : MBind M :=
  λ A B k m σ, let (a, σ') := m σ in k a σ'.

Definition exec {A} (m : M A) (σ : world) : world := snd (m σ).
Definition eval {A} (m : M A) (σ : world) : A := fst (m σ).

Definition emit (e : event) : M unit :=
  λ σ, (tt, mkWorldWire (redis σ) (clock σ) (entropy σ) (trace σ ++ [e]) (wire σ)).

Definition logError (key : string) (err : error) : M unit :=
  emit (LogError key (Error err)).

Definition nowEpochSeconds : M Z := λ σ, (clock σ, σ).

(** [rand.Int63n(n)]: the next sample of the source, reduced to [0, n). *)
Definition Int63n (n : Z) : M Z :=
  λ σ, (hd 0 (entropy σ) mod n,
        mkWorldWire (redis σ) (clock σ) (tl (entropy σ)) (trace σ) (wire σ)).

(** A transaction, or a single command, sent over a connection of the
    pool: the store runs the batch as one step, and the batch is one entry
    of the wire. The connection delivers: transport failures of these calls
    are outside the model (the code only logs them). *)
Definition transaction (cs : list command) : M unit :=
  λ σ, (tt, mkWorldWire (EXEC cs (redis σ)) (clock σ) (entropy σ) (trace σ)
                        (wire σ ++ [cs])).

(** ** Workers *)

(** One entry of the priority sampler: the six keys of a job type, as
    [updateMiddlewareAndJobTypes] hands them to [sampler.add]. *)
Record sampleItem : Type := mkSampleItem {
  priority : Z;
  redisJobs : string * string;
  redisJobsInProg : string * string * string;
  redisJobsPaused : string * string;
  redisJobsLock : string * string;
  redisJobsLockInfo : string * string;
  redisJobsMaxConcurrency : string * string
}.

Record worker : Type := mkWorker {
  workerID : string;
  poolID : string;
  namespace : string;
  jobTypes : gmap string jobType;
  middleware : list middlewareHandler;
  hook : list middlewareHandler;
  contextType : rtype;
  sampler : list sampleItem
}.

(** The result of a call that returns a value and an [error]. *)
Inductive res (A : Type) : Type :=
  | OK (a : A)
  | Fail (e : error).
Arguments OK {A} a.
Arguments Fail {A} e.

(** The helpers of [job.go] and [redis.go] that the worker calls and the
    sources do not contain: the JSON encoding of a job and its decoding,
    and the naming of the unique marker (which returns a key and an error,
    as the call site shows). The development holds for every choice. *)
Class JobCodec : Type := {
  serialize : Job -> res string;
  unmarshal : string -> res Job;
  redisKeyUniqueJob :
    string -> string -> list (string * jvalue) -> string * option error
}.

Section Worker.
Context `{!JobCodec}.

(** [removeJobFromInProgress]: remove the job from in progress and
    decrement the lock, in one transaction. *)
Definition removeJobFromInProgress (w : worker) (job : Job) : M unit :=
  transaction
    [ LREM (inProgQueue job) 1 (rawJSON job);
      DECR (redisKeyJobsLock (namespace w) (Name job));
      HINCRBY (redisKeyJobsLockInfo (namespace w) (Name job)) (poolID w) (-1) ].

(** [defaultBackoffCalculator], in [int64] arithmetic. *)
Definition defaultBackoffCalculator (job : Job) : M Z :=
  let fails := Fails job in
  r ← Int63n 30;
  mret (Int64.add
          (Int64.add
             (Int64.mul (Int64.mul (Int64.mul fails fails) fails) fails) 15)
          (Int64.mul r (Int64.add fails 1))).

Definition addToRetry (w : worker) (job : Job) (runErr : error) : M unit :=
  match serialize job with
  | Fail err => logError "worker.add_to_retry" err
  | OK raw =>
      (* Choose the backoff provider *)
      let backoff :=
        match jobTypes w !! Name job with
        | Some jt => Backoff (jtOptions jt)
        | None => None
        end in
      now ← nowEpochSeconds;
      delay ← match backoff with
              | Some f => mret (f job)
              | None => defaultBackoffCalculator job
              end;
      transaction
        [ LREM (inProgQueue job) 1 (rawJSON job);
          DECR (redisKeyJobsLock (namespace w) (Name job));
          HINCRBY (redisKeyJobsLockInfo (namespace w) (Name job)) (poolID w) (-1);
          ZADD (redisKeyRetry (namespace w)) (Int64.add now delay) raw ]
  end.

Definition addToDead (w : worker) (job : Job) (runErr : error) : M unit :=
  match serialize job with
  | Fail err => logError "worker.add_to_dead.serialize" err
  | OK raw =>
      now ← nowEpochSeconds;
      transaction
        [ LREM (inProgQueue job) 1 (rawJSON job);
          DECR (redisKeyJobsLock (namespace w) (Name job));
          HINCRBY (redisKeyJobsLockInfo (namespace w) (Name job)) (poolID w) (-1);
          ZADD (redisKeyDead (namespace w)) now raw ]
  end.

(** [failsRemaining := int64(jt.MaxFails) - job.Fails]. *)
Definition failsRemaining (jt : jobType) (job : Job) : Z :=
  Int64.sub (Int64.wrap (MaxFails (jtOptions jt))) (Fails job).

Definition addToRetryOrDead (w : worker) (jt : jobType) (job : Job)
    (runErr : error) : M unit :=
  if (0 <? failsRemaining jt job) && negb (isNoRetryError runErr)
  then addToRetry w job runErr
  else if negb (SkipDead (jtOptions jt))
  then addToDead w job runErr
  else removeJobFromInProgress w job.

Definition deleteUniqueJob (w : worker) (job : Job) : M unit :=
  let (uniqueKey, err) := redisKeyUniqueJob (namespace w) (Name job) (Args job) in
  match err with
  | Some e => logError "worker.delete_unique_job.key" e
  | None => mret tt
  end;;
  transaction [ DEL uniqueKey ].

(** What the [select] of [processJob] receives: the timer of
    [time.After], the handler's result on [chErr] (with the context on
    [chCtx]), or the clear signal. *)
Inductive outcome : Type :=
  | TimerFired
  | HandlerReturned (runErr : option error) (ctx : string)
  | ClearReceived.

(** [timeout := time.Duration(jt.Timeout) * time.Millisecond], replaced
    by fourteen days when not positive. *)
Definition timeoutSentinel : Z := Duration.Minute * 1440 * 14.

Definition effectiveTimeout (jt : jobType) : Z :=
  let timeout := Int64.mul (Timeout (jtOptions jt)) Duration.Millisecond in
  if timeout <=? 0 then timeoutSentinel else timeout.

Definition startingDeadlineMissed (jt : jobType) (job : Job) : bool :=
  (0 <? StartingDeadline (jtOptions jt)) && (0 <? ScheduledAt job)
  && (ScheduledAt job <? StartingDeadline (jtOptions jt)).

(** [job.failed(runErr)], reading the clock. *)
Definition jobFailed (runErr : error) (job : Job) : M Job :=
  now ← nowEpochSeconds;
  mret (failed now runErr job).

(** The body of [processJob]; it returns the job as the body left it,
    for the deferred call. *)
Definition processJobBody (w : worker) (job : Job) (oc : outcome) : M Job :=
  match jobTypes w !! Name job with
  | Some jt =>
      if startingDeadlineMissed jt job then
        removeJobFromInProgress w job;;
        mret job
      else
        let timeout := effectiveTimeout jt in
        emit (ObserveStarted (Name job) (ID job) (Args job));;
        (* job.observer = w.observer, for Checkin: no field of the model *)
        let middleware := middleware w ++ jtMiddleware jt in
        let hook := hook w ++ jtHook jt in
        emit (RunJob job middleware (jtName jt));;
        emit (After timeout);;
        '(runErr, job) ←
          match oc with
          | TimerFired =>
              if 0 <? timeout then
                emit (Printf ("Job " +:+ Name job +:+ " Timeout"));;
                mret (Some (errorString "Run Job Timeout"), job)
              else mret (None, job)
          | HandlerReturned runErr ctx =>
              let job :=
                setSuccess (match runErr with Some _ => false | None => true end)
                           job in
              emit (RunHook job ctx hook);;
              mret (runErr, job)
          | ClearReceived =>
              emit DoneClearing;;
              mret (None, job)
          end;
        emit (ObserveDone (Name job) (ID job) runErr);;
        match runErr with
        | Some e =>
            job ← jobFailed e job;
            addToRetryOrDead w jt job e;;
            mret job
        | None =>
            removeJobFromInProgress w job;;
            mret job
        end
  | None =>
      (* since we don't have a jobType, we don't know max retries *)
      let runErr := errorString "stray job: no handler" in
      logError "process_job.stray" runErr;;
      job ← jobFailed runErr job;
      addToDead w job runErr;;
      mret job
  end.

(** [processJob]: the body, then the deferred deletion of the unique
    marker. *)
Definition processJob (w : worker) (job : Job) (oc : outcome) : M unit :=
  job ← processJobBody w job oc;
  if Unique job then deleteUniqueJob w job else mret tt.

End Worker.

(** ** Fetching *)

(** [RPOP]: the element at the tail of a list, and the rest. *)
Definition rpop (l : list string) : option (string * list string) :=
  match rev l with
  | [] => None
  | x :: r => Some (x, rev r)
  end.

(** The reply of the fetch script. The model types it, so the shape checks
    of [fetchJob] (three elements, each a byte string) have nothing to
    reject and are not represented. *)
Inductive reply : Type :=
  | ReplyNil
  | ReplyValues (payload : string) (dequeuedFrom : string * string)
                (inProgQueue : string * string * string).

Definition isPaused (s : store) (pauseKey : string * string) : bool :=
  match paused s !! pauseKey with
  | Some v => negb (v =? 0)
  | None => false
  end.

Definition canRun (s : store) (lockKey maxConcurrencyKey : string * string) : bool :=
  match max_concurrency s !! maxConcurrencyKey with
  | Some maxc => negb ((0 <? maxc) && (maxc <=? int_at (lock s) lockKey))
  | None => true
  end.

(** Modelled from the spec: the script [redisLuaFetchJob] of [redis.go] is
    missing from the sources; section 4.2 gives its steps. For each tuple in
    order: skip it when paused, skip it when the concurrency cap is reached,
    pop the tail of the pending list (skip when empty), push the payload on
    the in-progress list, increment the lock and the pool's field of the
    lock info, and return the payload with the two list keys. *)
Fixpoint redisLuaFetchJob (keys : list sampleItem) (poolID : string)
    (s : store) : reply * store :=
  match keys with
  | [] => (ReplyNil, s)
  | it :: rest =>
      if isPaused s (redisJobsPaused it) then redisLuaFetchJob rest poolID s
      else if negb (canRun s (redisJobsLock it) (redisJobsMaxConcurrency it))
      then redisLuaFetchJob rest poolID s
      else
        match rpop (list_at (pending s) (redisJobs it)) with
        | None => redisLuaFetchJob rest poolID s
        | Some (payload, remaining) =>
            let s1 := with_pending (list_put (redisJobs it) remaining (pending s)) s in
            let s2 := with_inprogress
                        (list_put (redisJobsInProg it)
                           (payload :: list_at (inprogress s1) (redisJobsInProg it))
                           (inprogress s1)) s1 in
            let s3 := with_lock
                        (<[redisJobsLock it := int_at (lock s2) (redisJobsLock it) + 1]>
                           (lock s2)) s2 in
            let h := default ∅ (lock_info s3 !! redisJobsLockInfo it) in
            let s4 := with_lock_info
                        (<[redisJobsLockInfo it := <[poolID := int_at h poolID + 1]> h]>
                           (lock_info s3)) s3 in
            (ReplyValues payload (redisJobs it) (redisJobsInProg it), s4)
        end
  end.

Section Fetch.
Context `{!JobCodec}.

(** [newJob] of [job.go], from its call in [fetchJob]: decode the
    envelope, then record the raw payload and the two queues. *)
Definition newJob (raw : string) (from : string * string)
    (inProg : string * string * string) : res Job :=
  match unmarshal raw with
  | Fail e => Fail e
  | OK j =>
      OK (mkJob (Name j) (ID j) (EnqueuedAt j) (Args j) (Unique j) (Fails j)
                (LastErr j) (FailedAt j) (ScheduledAt j) (Success j)
                raw from inProg)
  end.

(** [fetchJob]. [order] is the sampler's list after [sample()]; [fault]
    is a transport error of the script call, in which case the script
    did not run. The result is [OK None] for the nil reply. *)
Definition fetchJob (w : worker) (order : list sampleItem)
    (fault : option error) : M (res (option Job)) :=
  match fault with
  | Some err => mret (Fail err)
  | None =>
      λ σ,
        let (rep, s') := redisLuaFetchJob order (poolID w) (redis σ) in
        let σ' := mkWorldWire s' (clock σ) (entropy σ) (trace σ) (wire σ) in
        match rep with
        | ReplyNil => (OK None, σ')
        | ReplyValues rawJSON dequeuedFrom inProgQueue =>
            match newJob rawJSON dequeuedFrom inProgQueue with
            | Fail e => (Fail e, σ')
            | OK job => (OK (Some job), σ')
            end
        end
  end.

(** ** The worker loop *)

Definition sleepBackoffsInMilliseconds : list Z := [0; 10; 100; 1000; 5000].

(** The variables of [loop], and the duration the timer was last set to. *)
Record loopState : Type := mkLoopState {
  drained : bool;
  consequtiveNoJobs : Z;
  timer : Z
}.

Definition loopStart : loopState := mkLoopState false 0 0.

(** What the [select] of [loop] receives. A timer tick carries what the
    fetch and the processing of a fetched job will meet. *)
Inductive loopEvent : Type :=
  | StopSignal
  | DrainSignal
  | TimerTick (order : list sampleItem) (fault : option error) (oc : outcome).

Inductive loopResult : Type :=
  | Continue (ls : loopState)
  | Returned
  | IndexOutOfRange (idx : Z).

(** The branch of [loop] for a tick, after [fetchJob] returned. *)
Definition afterFetch (w : worker) (ls : loopState) (oc : outcome)
    (fetched : res (option Job)) : M loopResult :=
  match fetched with
  | Fail err =>
      logError "worker.fetch" err;;
      mret (Continue (mkLoopState (drained ls) (consequtiveNoJobs ls)
                                  (10 * Duration.Millisecond)))
  | OK (Some job) =>
      processJob w job oc;;
      mret (Continue (mkLoopState (drained ls) 0 0))
  | OK None =>
      drained' ← (if drained ls then emit DoneDraining;; mret false
                  else mret false);
      let consequtiveNoJobs := Int64.add (consequtiveNoJobs ls) 1 in
      let idx := consequtiveNoJobs in
      let idx := if Z.of_nat (length sleepBackoffsInMilliseconds) <=? idx
                 then Z.of_nat (length sleepBackoffsInMilliseconds) - 1
                 else idx in
      if idx <? 0 then mret (IndexOutOfRange idx)
      else
        match sleepBackoffsInMilliseconds !! Z.to_nat idx with
        | Some ms =>
            mret (Continue (mkLoopState drained' consequtiveNoJobs
                                        (Int64.mul ms Duration.Millisecond)))
        | None => mret (IndexOutOfRange idx)
        end
  end.

(** One turn of the [for] of [loop]. *)
Definition loopTurn (w : worker) (ls : loopState) (ev : loopEvent) : M loopResult :=
  match ev with
  | StopSignal =>
      emit DoneStopping;;
      mret Returned
  | DrainSignal =>
      mret (Continue (mkLoopState true (consequtiveNoJobs ls) 0))
  | TimerTick order fault oc =>
      fetched ← fetchJob w order fault;
      afterFetch w ls oc fetched
  end.

(** [loop], over the events it receives until it returns. *)
Fixpoint loopFrom (w : worker) (ls : loopState) (evs : list loopEvent)
  : M loopResult :=
  match evs with
  | [] => mret (Continue ls)
  | ev :: rest =>
      r ← loopTurn w ls ev;
      match r with
      | Continue ls' => loopFrom w ls' rest
      | _ => mret r
      end
  end.

Definition loop (w : worker) (evs : list loopEvent) : M loopResult :=
  loopFrom w loopStart evs.

End Fetch.

(** ** Worker pools and registration *)

(** What a [panic] carries. The text of [instructiveMessage] is kept as the
    arguments it is built from. *)
Inductive panicValue : Type :=
  | PanicString (s : string)
  | PanicInstructive (vfn : rtype) (addingType yourType args : string)
                     (ctxType : rtype)
  | PanicRuntime (s : string).

(** A call that returns or panics. *)
Inductive panics (A : Type) : Type :=
  | Done (a : A)
  | Panic (v : panicValue).
Arguments Done {A} a.
Arguments Panic {A} v.

#[export] Instance panics_ret : MRet panics := λ A a, Done a.
#[export] Instance panics_bind : MBind panics :=
  λ A B k m, match m with Done a => k a | Panic v => Panic v end.

Definition isPanic {A} (r : panics A) : bool :=
  match r with Panic _ => true | Done _ => false end.

(** What a registration is handed as a function or as a context: the
    dynamic type of the [interface{}] value, [None] for the nil interface. *)
Definition dynamic : Type := option rtype.

Record WorkerPool : Type := mkWorkerPool {
  workerPoolID : string;
  concurrency : Z;                                   (* uint *)
  wpNamespace : string;
  wpContextType : rtype;
  wpJobTypes : gmap string jobType;
  wpMiddleware : option (list middlewareHandler);    (* None: the nil slice *)
  wpHook : option (list middlewareHandler);
  started : bool;
  workers : list worker
}.

(** [validateContextType] will panic if context is invalid. The type of a
    nil context is the nil [reflect.Type], and asking its kind
    dereferences it. *)
Definition validateContextType (ctxType : dynamic) : panics rtype :=
  match ctxType with
  | None => Panic (PanicRuntime "invalid memory address or nil pointer dereference")
  | Some t =>
      if negb (isStruct t)
      then Panic (PanicString "work: Context needs to be a struct type")
      else Done t
  end.

(** [vfn.Type()], which panics on the zero [reflect.Value] of a nil
    function. *)
Definition valueType (vfn : dynamic) : panics rtype :=
  match vfn with
  | None => Panic (PanicRuntime "reflect: call of reflect.Value.Type on zero Value")
  | Some t => Done t
  end.

Definition isValidHandlerType (ctxType : rtype) (vfn : dynamic) : panics bool :=
  fnType ← valueType vfn;
  mret (
    if negb (isFunc fnType) then false
    else
      let ins := funcIns fnType in
      let outs := funcOuts fnType in
      match outs with
      | [outType] =>
          if negb (rtype_eqb outType errorType) then false
          else
            match ins with
            | [in0] => rtype_eqb in0 JobPtr
            | [in0; in1] =>
                rtype_eqb in0 (TPtr ctxType) && rtype_eqb in1 JobPtr
            | _ => false
            end
      | _ => false
      end).

Definition isValidMiddlewareType (ctxType : rtype) (vfn : dynamic) : panics bool :=
  fnType ← valueType vfn;
  mret (
    if negb (isFunc fnType) then false
    else
      let ins := funcIns fnType in
      let outs := funcOuts fnType in
      match outs with
      | [outType] =>
          if negb (rtype_eqb outType errorType) then false
          else
            match ins with
            | [in0; in1] =>
                rtype_eqb in0 JobPtr && rtype_eqb in1 NextMiddlewareFunc
            | [in0; in1; in2] =>
                rtype_eqb in0 (TPtr ctxType) && rtype_eqb in1 JobPtr
                && rtype_eqb in2 NextMiddlewareFunc
            | _ => false
            end
      | _ => false
      end).

(** In the two validations the panic argument is evaluated before the
    panic: [instructiveMessage] asks the type of [vfn] again. *)
Definition validateHandlerType (ctxType : rtype) (vfn : dynamic) : panics unit :=
  ok ← isValidHandlerType ctxType vfn;
  if negb ok then
    t ← valueType vfn;
    Panic (PanicInstructive t "a handler" "handler" "job *work.Job" ctxType)
  else mret tt.

Definition validateMiddlewareType (ctxType : rtype) (vfn : dynamic) : panics unit :=
  ok ← isValidMiddlewareType ctxType vfn;
  if negb ok then
    t ← valueType vfn;
    Panic (PanicInstructive t "middleware" "middleware"
             "job *work.Job, next NextMiddlewareFunc" ctxType)
  else mret tt.

(** [funcToMiddleware]; the result is the nil slice when [fns] is empty. *)
Fixpoint funcToMiddlewareFrom (acc : option (list middlewareHandler))
    (fns : list dynamic) (ctxType : rtype)
  : panics (option (list middlewareHandler)) :=
  match fns with
  | [] => mret acc
  | fn :: rest =>
      validateMiddlewareType ctxType fn;;
      vt ← valueType fn;
      let mw := mkMiddlewareHandler (rtype_eqb vt GenericMiddlewareHandler) vt in
      funcToMiddlewareFrom (Some (default [] acc ++ [mw])) rest ctxType
  end.

Definition funcToMiddleware (fns : list dynamic) (ctxType : rtype)
  : panics (option (list middlewareHandler)) :=
  funcToMiddlewareFrom None fns ctxType.

Definition applyDefaultsAndValidate (jobOpts : JobOptions) : panics JobOptions :=
  let jobOpts :=
    if Priority jobOpts =? 0
    then mkJobOptions 1 (MaxFails jobOpts) (SkipDead jobOpts)
           (MaxConcurrency jobOpts) (Backoff jobOpts)
           (StartingDeadline jobOpts) (RetryOnStart jobOpts) (Timeout jobOpts)
    else jobOpts in
  let jobOpts :=
    if MaxFails jobOpts =? 0
    then mkJobOptions (Priority jobOpts) 4 (SkipDead jobOpts)
           (MaxConcurrency jobOpts) (Backoff jobOpts)
           (StartingDeadline jobOpts) (RetryOnStart jobOpts) (Timeout jobOpts)
    else jobOpts in
  if 100000 <? Priority jobOpts
  then Panic (PanicString "work: JobOptions.Priority must be between 1 and 100000")
  else Done jobOpts.

(** [updateMiddlewareAndJobTypes]. The sampler gets one entry per job type;
    the order of the [range] over the map is left to [map_to_list]. *)
Definition updateMiddlewareAndJobTypes (w : worker)
    (mw hk : option (list middlewareHandler))
    (jobTypes : gmap string jobType) : worker :=
  let sampler :=
    (λ kv : string * jobType,
       let jt := kv.2 in
       mkSampleItem (Priority (jtOptions jt))
         (redisKeyJobs (namespace w) (jtName jt))
         (redisKeyJobsInProgress (namespace w) (poolID w) (jtName jt))
         (redisKeyJobsPaused (namespace w) (jtName jt))
         (redisKeyJobsLock (namespace w) (jtName jt))
         (redisKeyJobsLockInfo (namespace w) (jtName jt))
         (redisKeyJobsConcurrency (namespace w) (jtName jt)))
    <$> map_to_list jobTypes in
  mkWorker (workerID w) (poolID w) (namespace w) jobTypes
           (default (middleware w) mw)
           (default (hook w) hk)
           (contextType w) sampler.

(** [newWorker]; [workerID] is what [makeIdentifier] returned. *)
Definition newWorker (workerID namespace poolID : string) (contextType : rtype)
    (mw hk : option (list middlewareHandler))
    (jobTypes : gmap string jobType) : worker :=
  updateMiddlewareAndJobTypes
    (mkWorker workerID poolID namespace ∅ [] [] contextType [])
    mw hk jobTypes.

(** [JobWithOptionsAndMiddlewares]. The pool's map of job types is shared
    with its workers in the source; here every worker is handed the updated
    map, as the closing loop of the function does. *)
Definition JobWithOptionsAndMiddlewares (wp : WorkerPool) (name : string)
    (jobOpts : JobOptions) (fn : dynamic) (fns hks : list dynamic)
  : panics WorkerPool :=
  jobOpts ← applyDefaultsAndValidate jobOpts;
  validateHandlerType (wpContextType wp) fn;;
  jobMiddleware ← funcToMiddleware fns (wpContextType wp);
  hookMiddleware ← funcToMiddleware hks (wpContextType wp);
  vfn ← valueType fn;
  let jt := mkJobType name jobOpts (rtype_eqb vfn GenericHandler) vfn
              (default [] jobMiddleware) (default [] hookMiddleware) in
  let jobTypes := <[name := jt]> (wpJobTypes wp) in
  mret (mkWorkerPool (workerPoolID wp) (concurrency wp) (wpNamespace wp)
          (wpContextType wp) jobTypes (wpMiddleware wp) (wpHook wp) (started wp)
          ((λ w, updateMiddlewareAndJobTypes w (wpMiddleware wp) (wpHook wp) jobTypes)
             <$> workers wp)).

Definition noOptions : JobOptions := mkJobOptions 0 0 false 0 None 0 false 0.

Definition registerJob (wp : WorkerPool) (name : string) (fn : dynamic)
  : panics WorkerPool :=
  JobWithOptionsAndMiddlewares wp name noOptions fn [] [].

Definition JobWithOptions (wp : WorkerPool) (name : string)
    (jobOpts : JobOptions) (fn : dynamic) : panics WorkerPool :=
  JobWithOptionsAndMiddlewares wp name jobOpts fn [] [].

(** [Middlewares] and [Hooks]. *)
Definition Middlewares (wp : WorkerPool) (fns : list dynamic) : panics WorkerPool :=
  mw ← funcToMiddleware fns (wpContextType wp);
  mret (mkWorkerPool (workerPoolID wp) (concurrency wp) (wpNamespace wp)
          (wpContextType wp) (wpJobTypes wp) mw (wpHook wp) (started wp)
          ((λ w, updateMiddlewareAndJobTypes w mw None (wpJobTypes wp))
             <$> workers wp)).

Definition Hooks (wp : WorkerPool) (fns : list dynamic) : panics WorkerPool :=
  hk ← funcToMiddleware fns (wpContextType wp);
  mret (mkWorkerPool (workerPoolID wp) (concurrency wp) (wpNamespace wp)
          (wpContextType wp) (wpJobTypes wp) (wpMiddleware wp) hk (started wp)
          ((λ w, updateMiddlewareAndJobTypes w None hk (wpJobTypes wp))
             <$> workers wp)).

(** [NewWorkerPool]. [poolIsNil] tells whether the connection pool handed
    in is nil; [ids] are the identifiers [makeIdentifier] returns, first the
    pool's, then one per worker. *)
Definition NewWorkerPool (ctx : dynamic) (concurrency : Z) (namespace : string)
    (poolIsNil : bool) (ids : nat -> string) : panics WorkerPool :=
  if poolIsNil
  then Panic (PanicString "NewWorkerPool needs a non-nil *redis.Pool")
  else
    ctxType ← validateContextType ctx;
    let workerPoolID := ids O in
    let workers :=
      (λ i, newWorker (ids (S i)) namespace workerPoolID ctxType None None ∅)
      <$> seq 0 (Z.to_nat concurrency) in
    let wp := mkWorkerPool workerPoolID concurrency namespace ctxType ∅
                None None false workers in
    registerJob wp ("WorkerDrain:" +:+ workerPoolID) (Some GenericHandler).

(** ** Runs of fetches and completions *)

(** The three commands every completion queues first. *)
Definition release (w : worker) (job : Job) : list command :=
  [ LREM (inProgQueue job) 1 (rawJSON job);
    DECR (redisKeyJobsLock (namespace w) (Name job));
    HINCRBY (redisKeyJobsLockInfo (namespace w) (Name job)) (poolID w) (-1) ].

(** The number of records in the in-progress lists of a job name, over all
    pools of a namespace. *)
Definition countIn (ns name : string) (k : string * string * string)
    (l : list string) : Z :=
  if decide (k.1.1 = ns ∧ k.2 = name) then Z.of_nat (length l) else 0.

Definition inprogressCount (s : store) (ns name : string) : Z :=
  map_fold (λ k l acc, acc + countIn ns name k l) 0 (inprogress s).

(** The lock of every job name counts its in-progress records. *)
Definition lockCounts (s : store) : Prop :=
  ∀ ns name, int_at (lock s) (redisKeyJobsLock ns name) = inprogressCount s ns name.

(** A sampler entry carries the keys of one job name for this worker. *)
Definition sampleKeyed (w : worker) (it : sampleItem) : bool :=
  let name := (redisJobs it).2 in
  bool_decide (redisJobs it = redisKeyJobs (namespace w) name)
  && bool_decide (redisJobsInProg it
                  = redisKeyJobsInProgress (namespace w) (poolID w) name)
  && bool_decide (redisJobsPaused it = redisKeyJobsPaused (namespace w) name)
  && bool_decide (redisJobsLock it = redisKeyJobsLock (namespace w) name)
  && bool_decide (redisJobsLockInfo it = redisKeyJobsLockInfo (namespace w) name)
  && bool_decide (redisJobsMaxConcurrency it
                  = redisKeyJobsConcurrency (namespace w) name).

(** The jobs in flight, each with the worker that fetched it. *)
Abbreviation inFlight := (list (worker * Job)).

Section Runs.
Context `{!JobCodec}.

(** Every payload waiting in the pending list of a name decodes, if it
    decodes, to a job of that name: what enqueueing provides. *)
Definition pendingNamed (s : store) : Prop :=
  map_Forall
    (λ (k : string * string) (l : list string),
       forallb (λ raw, match unmarshal raw with
                       | OK j => bool_decide (Name j = k.2)
                       | Fail _ => true
                       end) l = true)
    (pending s).

(** The steps of the workers on the store. A job is in flight from the
    fetch that returned it until one completion; [i] is its position
    among the jobs in flight. *)
Inductive op : Type :=
  | OpFetch (w : worker) (order : list sampleItem) (fault : option error)
  | OpRemove (i : nat)
  | OpRetry (i : nat) (runErr : error)
  | OpDead (i : nat) (runErr : error)
  | OpProcess (i : nat) (oc : outcome).

(** A fetch passes the sampler's entries in some order. *)
Definition opOK (o : op) : Prop :=
  match o with
  | OpFetch w order _ =>
      order ≡ₚ sampler w ∧ forallb (sampleKeyed w) (sampler w) = true
  | _ => True
  end.

Definition completeWith (f : worker -> Job -> M unit) (i : nat)
    (st : world * inFlight) : world * inFlight :=
  match st.2 !! i with
  | Some (w, job) => (exec (f w job) st.1, delete i st.2)
  | None => st
  end.

Definition runOp (st : world * inFlight) (o : op) : world * inFlight :=
  match o with
  | OpFetch w order fault =>
      let (r, σ') := fetchJob w order fault st.1 in
      match r with
      | OK (Some job) => (σ', (w, job) :: st.2)
      | _ => (σ', st.2)
      end
  | OpRemove i => completeWith removeJobFromInProgress i st
  | OpRetry i e => completeWith (λ w job, addToRetry w job e) i st
  | OpDead i e => completeWith (λ w job, addToDead w job e) i st
  | OpProcess i oc => completeWith (λ w job, processJob w job oc) i st
  end.

Definition run (ops : list op) (st : world * inFlight) : world * inFlight :=
  foldl runOp st ops.

End Runs.

(** ** What the specification says, in its own words *)

(** Section 4.5, the routing of a failed job. *)
Inductive route : Type := ToRetry | ToDead | RemoveOnly.

Definition routeSpec (noRetry : bool) (remaining : Z) (skipDead : bool) : route :=
  if noRetry then (if skipDead then RemoveOnly else ToDead)
  else if 0 <? remaining then ToRetry
  else if skipDead then RemoveOnly
  else ToDead.

(** The score that was sent for a member of a sorted set. *)
Definition zscore (m : gmap string (gmap string Z)) (ns member : string) : option Z :=
  m !! ns ≫= (.!! member).

(** The 64-bit float nearest to an integer, as an integer: the store parses
    the score of a [ZADD] into a double. Up to [2^53] in magnitude the
    integer is kept as it is; beyond, the bits that do not fit the
    significand of 53 bits are rounded away, to the nearest float and to
    the even one of two equally near. The scores sent here are [int64]
    values, which a float holds without overflow. *)
Definition float64 (z : Z) : Z :=
  let a := Z.abs z in
  let e := Z.log2 a - 52 in
  if e <=? 0 then z
  else
    let q := a / 2 ^ e in
    let r := a mod 2 ^ e in
    let half := 2 ^ (e - 1) in
    let q' := if (half <? r) || ((r =? half) && Z.odd q) then q + 1 else q in
    Z.sgn z * (q' * 2 ^ e).

(** [ZSCORE]: the score the store holds for a member of a sorted set. *)
Definition storedScore (m : gmap string (gmap string Z)) (ns member : string)
  : option Z :=
  float64 <$> zscore m ns member.

(** The world after the worker emitted [es]. *)
Definition appendTrace (es : list event) (σ : world) : world :=
  mkWorldWire (redis σ) (clock σ) (entropy σ) (trace σ ++ es) (wire σ).

(** ** Notions the statements use *)

(** The completion a route names. *)
Definition dispatch `{!JobCodec} (r : route) (w : worker) (job : Job)
    (runErr : error) : M unit :=
  match r with
  | ToRetry => addToRetry w job runErr
  | ToDead => addToDead w job runErr
  | RemoveOnly => removeJobFromInProgress w job
  end.

(** The deferred call of [processJob] touches the unique markers only. *)
Definition deferred `{!JobCodec} (w : worker) (job : Job) : M unit :=
  if Unique job then deleteUniqueJob w job else mret tt.

(** The job type of the job, if registered, sets no backoff of its own. *)
Definition usesDefaultBackoff (w : worker) (job : Job) : Prop :=
  match jobTypes w !! Name job with
  | Some jt => Backoff (jtOptions jt) = None
  | None => True
  end.

(** What the [select] leaves behind, per outcome: the error, the job, and
    what was emitted. *)
Definition selected (job : Job) (hk : list middlewareHandler) (oc : outcome)
  : option error * Job * list event :=
  match oc with
  | TimerFired =>
      (Some (errorString "Run Job Timeout"), job,
       [Printf ("Job " +:+ Name job +:+ " Timeout")])
  | HandlerReturned runErr ctx =>
      let job' := setSuccess (match runErr with Some _ => false | None => true end) job in
      (runErr, job', [RunHook job' ctx hk])
  | ClearReceived => (None, job, [DoneClearing])
  end.

(** No handler and no hook was started among these events. *)
Definition noHandlerRun (es : list event) : Prop :=
  Forall (λ ev, match ev with
                | RunJob _ _ _ | RunHook _ _ _ => False
                | _ => True
                end) es.

(** What [deleteUniqueJob] logs: the error of the key, if any. *)
Definition uniqueKeyLog `{!JobCodec} (w : worker) (job : Job) : list event :=
  match (redisKeyUniqueJob (namespace w) (Name job) (Args job)).2 with
  | Some e => [LogError "worker.delete_unique_job.key" (Error e)]
  | None => []
  end.

(** A handler, or a middleware, has one of the accepted signatures. *)
Definition validHandler (ctxType : rtype) (fn : dynamic) : bool :=
  match isValidHandlerType ctxType fn with
  | Done ok => ok
  | Panic _ => false
  end.

Definition validMiddleware (ctxType : rtype) (fn : dynamic) : bool :=
  match isValidMiddlewareType ctxType fn with
  | Done ok => ok
  | Panic _ => false
  end.

(** The store after a fetch that found a payload under entry [it]. *)
Definition fetched (it : sampleItem) (poolID payload : string)
    (remaining : list string) (s : store) : store :=
  let s1 := with_pending (list_put (redisJobs it) remaining (pending s)) s in
  let s2 := with_inprogress
              (list_put (redisJobsInProg it)
                 (payload :: list_at (inprogress s1) (redisJobsInProg it))
                 (inprogress s1)) s1 in
  let s3 := with_lock
              (<[redisJobsLock it := int_at (lock s2) (redisJobsLock it) + 1]>
                 (lock s2)) s2 in
  let h := default ∅ (lock_info s3 !! redisJobsLockInfo it) in
  with_lock_info
    (<[redisJobsLockInfo it := <[poolID := int_at h poolID + 1]> h]> (lock_info s3)) s3.

(** The payloads of the jobs in flight that sit in the list under [k]. *)
Definition heldAt (k : string * string * string) (fl : inFlight) : list string :=
  (λ wj : worker * Job, rawJSON wj.2)
  <$> filter (λ wj : worker * Job, inProgQueue wj.2 = k) fl.

(** The invariant of a run: the lock of every name counts its in-progress
    records; every job in flight has its record in the list it was put in,
    which is the list of its name for the pool of its worker; the pending
    payloads are filed under their names. *)
Record runInv `{!JobCodec} (st : world * inFlight) : Prop := mkRunInv {
  inv_lock : lockCounts (redis st.1);
  inv_held : ∀ k, heldAt k st.2 ⊆+ list_at (inprogress (redis st.1)) k;
  inv_queue :
    Forall (λ wj : worker * Job,
              inProgQueue wj.2
              = redisKeyJobsInProgress (namespace wj.1) (poolID wj.1) (Name wj.2))
           st.2;
  inv_pending : pendingNamed (redis st.1)
}.

(** What a completion does to the lists and the locks: it releases the
    record of the job, or, when the job does not serialize, nothing. *)
Definition released (w : worker) (j : Job) (s s' : store) : Prop :=
  inprogress s' = inprogress (EXEC (release w j) s)
  ∧ lock s' = lock (EXEC (release w j) s)
  ∧ pending s' = pending s.

Definition untouched (s s' : store) : Prop :=
  inprogress s' = inprogress s ∧ lock s' = lock s ∧ pending s' = pending s.

(** ** A small installation, for concrete runs *)

Definition envelope (name id : string) (fails : Z) : string :=
  "{name:" +:+ name +:+ ",id:" +:+ id +:+ ",fails:" +:+ pretty fails +:+ "}".

Definition demoJob (name id : string) (fails : Z) (uniq : bool) : Job :=
  mkJob name id 1700000000 [] uniq fails "" 0 0 false
        (envelope name id fails)
        (redisKeyJobs "work" name)
        (redisKeyJobsInProgress "work" "pool1" name).

(** A codec over the envelopes of this installation: two known payloads
    decode, anything else is malformed. *)
Definition demoCodec : JobCodec := {|
  serialize := λ j, OK (envelope (Name j) (ID j) (Fails j));
  unmarshal := λ raw,
    if decide (raw = envelope "email" "a" 0) then OK (demoJob "email" "a" 0 false)
    else if decide (raw = envelope "email" "b" 0) then OK (demoJob "email" "b" 0 true)
    else Fail (errorString "invalid character");
  redisKeyUniqueJob := λ ns name args, (ns +:+ ":unique:" +:+ name, None)
|}.

Definition demoContext : rtype := TNamed "main.Context" (TStruct [] []).

Definition emailOptions : JobOptions := mkJobOptions 1 3 false 0 None 0 false 0.

Definition emailType : jobType :=
  mkJobType "email" emailOptions true GenericHandler [] [].

Definition demoWorker : worker :=
  newWorker "w1" "work" "pool1" demoContext None None {[ "email" := emailType ]}.

(** A store with job [a] of name [email] in flight on [pool1], its marker
    of uniqueness set. *)
Definition storeInFlight : store :=
  mkStore ∅
    {[ redisKeyJobsInProgress "work" "pool1" "email" := [envelope "email" "a" 0] ]}
    ∅
    {[ redisKeyJobsLock "work" "email" := 1 ]}
    {[ redisKeyJobsLockInfo "work" "email" := {[ "pool1" := 1 ]} ]}
    ∅ ∅ ∅
    {[ "work:unique:email" := "1" ]}.

Definition worldInFlight : world := mkWorld storeInFlight 1700000100 [7] [].

(** A store with jobs [a] and [b] waiting. *)
Definition storePending : store :=
  with_pending
    {[ redisKeyJobs "work" "email" := [envelope "email" "b" 0; envelope "email" "a" 0] ]}
    emptyStore.

Definition worldPending : world := mkWorld storePending 1700000000 [7; 11] [].

Definition timedType (t : Z) : jobType :=
  mkJobType "email" (mkJobOptions 1 3 false 0 None 0 false t) true GenericHandler [] [].

Definition deadlineType : jobType :=
  mkJobType "email" (mkJobOptions 1 3 false 0 None 1700000050 false 0)
            true GenericHandler [] [].

Definition deadlineWorker : worker :=
  newWorker "w1" "work" "pool1" demoContext None None {[ "email" := deadlineType ]}.

Definition lateJob : Job :=
  mkJob "email" "a" 1700000000 [] false 0 "" 0 1700000010 false
        (envelope "email" "a" 0)
        (redisKeyJobs "work" "email")
        (redisKeyJobsInProgress "work" "pool1" "email").

(** Two fetches by the worker of [pool1], then the processing of the first
    job fetched, whose handler fails. *)
Definition demoOps : list op :=
  [ OpFetch demoWorker (sampler demoWorker) None;
    OpFetch demoWorker (sampler demoWorker) None;
    OpProcess 1 (HandlerReturned (Some (errorString "boom")) "ctx") ].

(** A payload of the name [sms] waiting in the pending list of [email],
    with a codec that decodes it; the worker of [pool1] fetches it and
    processes it. *)
Definition misfiledCodec : JobCodec := {|
  serialize := λ j, OK (envelope (Name j) (ID j) (Fails j));
  unmarshal := λ raw,
    if decide (raw = envelope "sms" "c" 0) then OK (demoJob "sms" "c" 0 false)
    else Fail (errorString "invalid character");
  redisKeyUniqueJob := λ ns name args, (ns +:+ ":unique:" +:+ name, None)
|}.

Definition storeMisfiled : store :=
  with_pending {[ redisKeyJobs "work" "email" := [envelope "sms" "c" 0] ]} emptyStore.

Definition worldMisfiled : world := mkWorld storeMisfiled 1700000000 [7] [].

Definition misfiledOps : list op :=
  [ OpFetch demoWorker (sampler demoWorker) None;
    OpProcess 0 (HandlerReturned None "ctx") ].

(** A pool before any registration, and the shapes of function used to
    exercise registration. *)
Definition barePool : WorkerPool :=
  mkWorkerPool "pool1" 1 "work" demoContext ∅ None None false
    [newWorker "w1" "work" "pool1" demoContext None None ∅].

Definition contextHandler : rtype := TFunc [TPtr demoContext; JobPtr] [errorType].

Definition notAHandler : rtype := TFunc [TBasic "int"] [errorType].

(** A job type that sets a backoff of its own: a minute per fail. *)
Definition minuteBackoff (j : Job) : Z := 60 * Fails j.

Definition backoffType : jobType :=
  mkJobType "email" (mkJobOptions 1 3 false 0 (Some minuteBackoff) 0 false 0)
            true GenericHandler [] [].

Definition backoffWorker : worker :=
  newWorker "w1" "work" "pool1" demoContext None None {[ "email" := backoffType ]}.

(** What a loop of the worker of [pool1] receives in a short life: a tick,
    a drain signal, a tick, the stop signal; and a drain signal nobody
    reads any more. *)
Definition demoEvents : list loopEvent :=
  [ TimerTick (sampler demoWorker) None (HandlerReturned None "ctx");
    DrainSignal;
    TimerTick [] None (HandlerReturned None "ctx");
    StopSignal;
    DrainSignal ].

(** A store where the payload waiting under [email] is not an envelope. *)
Definition storeGarbled : store :=
  with_pending {[ redisKeyJobs "work" "email" := ["{name:"] ]} emptyStore.

Definition worldGarbled : world := mkWorld storeGarbled 1700000000 [7] [].

(** ** Notions for the further properties *)

(** The store a completion of [job] leaves, from the world [σ] it started
    in: the release commands alone, or followed by the entry in the retry
    set or in the dead set; or the store as it was, when a job record with
    the name and payload of [job] did not serialize. *)
Definition settled `{!JobCodec} (w : worker) (job : Job) (σ : world)
    (s' : store) : Prop :=
  s' = EXEC (release w job) (redis σ)
  ∨ (∃ score raw,
       s' = EXEC (release w job ++ [ZADD (redisKeyRetry (namespace w)) score raw])
                 (redis σ))
  ∨ (∃ raw,
       s' = EXEC (release w job ++ [ZADD (redisKeyDead (namespace w)) (clock σ) raw])
                 (redis σ))
  ∨ (s' = redis σ
     ∧ ∃ j' err, Name j' = Name job ∧ rawJSON j' = rawJSON job
                 ∧ serialize j' = Fail err).

(** Events that are lines of the error log. *)
Definition onlyLogs (es : list event) : Prop :=
  Forall (λ ev, match ev with LogError _ _ => True | _ => False end) es.

(** The answers of the loop on its two channels, among the events, and the
    drain signals among what the loop receives. *)
Definition isDoneDraining (ev : event) : bool :=
  match ev with DoneDraining => true | _ => false end.

Definition isDoneStopping (ev : event) : bool :=
  match ev with DoneStopping => true | _ => false end.

Definition isDrainSignal (ev : loopEvent) : bool :=
  match ev with DrainSignal => true | _ => false end.

Definition isStopSignal (ev : loopEvent) : bool :=
  match ev with StopSignal => true | _ => false end.

Definition drainAcks (es : list event) : nat :=
  length (List.filter isDoneDraining es).

Definition stopAcks (es : list event) : nat :=
  length (List.filter isDoneStopping es).

Definition drainSignals (evs : list loopEvent) : nat :=
  length (List.filter isDrainSignal evs).

(** A drain is pending: the loop goes on with [drained] set. *)
Definition drainPending (r : loopResult) : nat :=
  match r with
  | Continue ls => if drained ls then 1 else 0
  | _ => 0
  end.

(** Events of the fetching and processing of jobs: no answer of the loop. *)
Definition workEvent (ev : event) : Prop :=
  isDoneDraining ev = false ∧ isDoneStopping ev = false.

(** The middleware handler [funcToMiddleware] builds for a function of
    type [t]. *)
Definition handlerOf (t : rtype) : middlewareHandler :=
  mkMiddlewareHandler (rtype_eqb t GenericMiddlewareHandler) t.

(** The shapes of function the two checks accept, written on the type. *)
Definition handlerShape (ctxType t : rtype) : Prop :=
  isFunc t = true ∧ funcOuts t = [errorType]
  ∧ (funcIns t = [JobPtr] ∨ funcIns t = [TPtr ctxType; JobPtr]).

Definition middlewareShape (ctxType t : rtype) : Prop :=
  isFunc t = true ∧ funcOuts t = [errorType]
  ∧ (funcIns t = [JobPtr; NextMiddlewareFunc]
     ∨ funcIns t = [TPtr ctxType; JobPtr; NextMiddlewareFunc]).

(** A pool and its workers agree: the job types are filed under their
    names; every worker holds the pool's job types, namespace, identifier
    and context type, and its sampler lists the job types of the pool, each
    with its priority and under the keys of this worker. *)
Definition agrees (wp : WorkerPool) (w : worker) : Prop :=
  jobTypes w = wpJobTypes wp
  ∧ namespace w = wpNamespace wp
  ∧ poolID w = workerPoolID wp
  ∧ contextType w = wpContextType wp
  ∧ (λ it, ((redisJobs it).2, priority it)) <$> sampler w
    = (λ kv : string * jobType, (kv.1, Priority (jtOptions kv.2)))
      <$> map_to_list (wpJobTypes wp)
  ∧ forallb (sampleKeyed w) (sampler w) = true.

Definition coherent (wp : WorkerPool) : Prop :=
  map_Forall (λ name jt, jtName jt = name) (wpJobTypes wp)
  ∧ Forall (agrees wp) (workers wp).

(** The job type [NewWorkerPool] registers for the drain of single
    workers. *)
Definition drainJobType (workerPoolID : string) : jobType :=
  mkJobType ("WorkerDrain:" +:+ workerPoolID)
            (mkJobOptions 1 4 false 0 None 0 false 0)
            true GenericHandler [] [].

(** ** Writing the concurrency caps *)

Definition with_max_concurrency (m : gmap (string * string) Z) (s : store) : store :=
  mkStore (pending s) (inprogress s) (paused s) (lock s) (lock_info s)
          m (retry s) (dead s) (unique s).

(** [writeConcurrencyControlsToRedis]: nothing for a pool without job
    types; else one [SET] of the cap per job type, under the key of the
    name the job type is filed under, in the order of the [range] over the
    map. The commands are delivered, as those of the transactions are. *)
Definition writeConcurrencyControlsToRedis (wp : WorkerPool) : M unit :=
  if decide (size (wpJobTypes wp) = 0%nat) then mret tt
  else
    λ σ,
      let caps :=
        map_fold
          (λ (jobName : string) (jt : jobType) (m : gmap (string * string) Z),
             <[redisKeyJobsConcurrency (wpNamespace wp) jobName
               := MaxConcurrency (jtOptions jt)]> m)
          (max_concurrency (redis σ)) (wpJobTypes wp) in
      (tt, mkWorldWire (with_max_concurrency caps (redis σ))
                       (clock σ) (entropy σ) (trace σ) (wire σ)).

(** ** The connection pool of the web UI *)

(** [strings.Split(s, sep)] for a separator of one byte: the pieces between
    the separators, one more than there are separators. *)
Fixpoint Split (s : string) (sep : ascii) : list string :=
  match s with
  | EmptyString => [EmptyString]
  | String c r =>
      if Ascii.eqb c sep then EmptyString :: Split r sep
      else match Split r sep with
           | piece :: pieces => String c piece :: pieces
           | [] => [String c EmptyString]
           end
  end.

Fixpoint hasByte (c : ascii) (s : string) : bool :=
  match s with
  | EmptyString => false
  | String x r => Ascii.eqb x c || hasByte c r
  end.

(** [strings.TrimSpace] is the library's, with its table of Unicode white
    space; the pool is modelled for whatever it returns. *)
Class GoStrings : Type := { TrimSpace : string -> string }.

(** The three functions [createPool] may leave in [Dial]. *)
Inductive dialFunc : Type :=
  | DialNothing
  | DialSentinel (hosts : list string) (db : Z)
  | DialURL (addr : string) (db : Z).

Record redisPool : Type := mkRedisPool {
  MaxActive : Z;
  MaxIdle : Z;
  IdleTimeout : Z;
  Wait : bool;
  Dial : dialFunc
}.

Definition sentinelHosts `{!GoStrings} (sentinelHostStr : string) : list string :=
  if decide (TrimSpace sentinelHostStr = EmptyString) then []
  else Split sentinelHostStr ","%char.

Definition sentinelDialFunc (hosts : list string) (db : Z) : dialFunc :=
  DialSentinel hosts db.

(** [createPool]; [redisHostPort] is the value of the flag of that name,
    which the second test reads in place of [addr]. *)
Definition createPool `{!GoStrings} (redisHostPort : string)
    (addr sentinel : string) (database : Z) : res redisPool :=
  let dial :=
    if (0 <? String.length sentinel)%nat
    then OK (sentinelDialFunc (sentinelHosts sentinel) database)
    else if (0 <? String.length redisHostPort)%nat
    then OK (DialURL addr database)
    else Fail (errorString "invalid sentinel hosts and host + port") in
  match dial with
  | OK dialFunc => OK (mkRedisPool 3 3 0 true dialFunc)
  | Fail err => Fail err
  end.

Definition newPool (addr : string) (database : Z) : redisPool :=
  mkRedisPool 3 3 (240 * Duration.Second) true (DialURL addr database).

(** White space of one byte, for concrete runs. *)
Definition asciiSpace (c : ascii) : bool :=
  let n := nat_of_ascii c in
  ((9 <=? n) && (n <=? 13) || (n =? 32))%nat.

Fixpoint trimLeft (s : string) : string :=
  match s with
  | String c r => if asciiSpace c then trimLeft r else s
  | EmptyString => EmptyString
  end.

Definition asciiStrings : GoStrings :=
  {| TrimSpace := λ s, String.rev (trimLeft (String.rev (trimLeft s))) |}.

(** * Properties *)

(** ** Arithmetic of the machine integers *)

Lemma Int64_wrap_small (z : Z) : Int64.in_range z -> Int64.wrap z = z.
Proof.
  unfold Int64.in_range, Int64.min_int, Int64.max_int, Int64.wrap. intros Hz.
  rewrite Z.mod_small by lia. lia.
Qed.

Lemma Int64_wrap_range (z : Z) : Int64.in_range (Int64.wrap z).
Proof.
  unfold Int64.in_range, Int64.min_int, Int64.max_int, Int64.wrap.
  pose proof (Z.mod_pos_bound (z + 2 ^ 63) (2 ^ 64) ltac:(lia)). lia.
Qed.

(** ** The state monad *)

Lemma exec_bind {A B} (m : M A) (k : A -> M B) (σ : world) :
  exec (m ≫= k) σ = exec (k (eval m σ)) (exec m σ).
Proof. unfold exec, eval, mbind, M_bind. by destruct (m σ). Qed.

Lemma eval_bind {A B} (m : M A) (k : A -> M B) (σ : world) :
  eval (m ≫= k) σ = eval (k (eval m σ)) (exec m σ).
Proof. unfold exec, eval, mbind, M_bind. by destruct (m σ). Qed.

Lemma exec_ret {A} (a : A) (σ : world) : exec (mret a) σ = σ.
Proof. reflexivity. Qed.

Lemma exec_emit (e : event) (σ : world) : exec (emit e) σ = appendTrace [e] σ.
Proof. reflexivity. Qed.

Lemma exec_transaction (cs : list command) (σ : world) :
  exec (transaction cs) σ
  = mkWorldWire (EXEC cs (redis σ)) (clock σ) (entropy σ) (trace σ) (wire σ ++ [cs]).
Proof. reflexivity. Qed.

Lemma appendTrace_app (es1 es2 : list event) (σ : world) :
  appendTrace es2 (appendTrace es1 σ) = appendTrace (es1 ++ es2) σ.
Proof. unfold appendTrace. simpl. by rewrite <- app_assoc. Qed.

(** ** The store under the commands of a completion *)

Lemma EXEC_app (cs1 cs2 : list command) (s : store) :
  EXEC (cs1 ++ cs2) s = EXEC cs2 (EXEC cs1 s).
Proof. unfold EXEC. apply foldl_app. Qed.

Lemma zscore_zadd (score : Z) (member ns : string) (m : gmap string (gmap string Z)) :
  zscore (zadd score member ns m) ns member = Some score.
Proof.
  unfold zscore, zadd. rewrite lookup_insert_eq. simpl. apply lookup_insert_eq.
Qed.

(** ** Scores as the store holds them *)

Lemma float64_exact (z : Z) : - 2 ^ 53 <= z <= 2 ^ 53 -> float64 z = z.
Proof.
  intros Hz. destruct (Z.eq_dec (Z.abs z) (2 ^ 53)) as [Ha|Ha].
  - assert (Hcases : z = 2 ^ 53 ∨ z = - 2 ^ 53) by lia.
    destruct Hcases as [-> | ->]; vm_compute; reflexivity.
  - unfold float64.
    destruct (Z.log2 (Z.abs z) - 52 <=? 0) eqn:He; [reflexivity|].
    apply Z.leb_gt in He. exfalso.
    assert (Hpos : 0 < Z.abs z).
    { destruct (Z.eq_dec (Z.abs z) 0) as [H0|H0]; [|lia].
      rewrite H0 in He. change (Z.log2 0) with 0 in He. lia. }
    pose proof (Z.log2_spec (Z.abs z) Hpos) as [Hlo _].
    assert (2 ^ 53 <= 2 ^ Z.log2 (Z.abs z)) by (apply Z.pow_le_mono_r; lia).
    lia.
Qed.

(** Rounding does not take a score below a bound that a float holds. *)
Lemma float64_lower (a z : Z) : 0 <= a <= 2 ^ 53 -> a <= z -> a <= float64 z.
Proof.
  intros Ha Hz. destruct (Z_le_gt_dec z (2 ^ 53)) as [Hsmall|Hbig].
  - rewrite float64_exact by lia. exact Hz.
  - unfold float64. rewrite (Z.abs_eq z) by lia.
    assert (Hpos : 0 < z) by lia.
    pose proof (Z.log2_spec z Hpos) as [Hlo Hhi].
    assert (Hlog : 53 <= Z.log2 z) by (apply Z.log2_le_pow2; lia).
    set (e := Z.log2 z - 52) in *.
    destruct (e <=? 0) eqn:Hle; [apply Z.leb_le in Hle; lia|].
    rewrite (Z.sgn_pos z Hpos), Z.mul_1_l.
    assert (Hpe : 0 < 2 ^ e) by (apply Z.pow_pos_nonneg; lia).
    assert (Hq : 2 ^ 52 <= z / 2 ^ e).
    { apply Z.div_le_lower_bound; [exact Hpe|].
      rewrite <- Z.pow_add_r by lia.
      replace (e + 52) with (Z.log2 z) by lia. exact Hlo. }
    assert (H2e : 2 <= 2 ^ e).
    { change 2 with (2 ^ 1) at 1. apply Z.pow_le_mono_r; lia. }
    assert (Hq' : z / 2 ^ e
                  <= (if (2 ^ (e - 1) <? z mod 2 ^ e)
                         || ((z mod 2 ^ e =? 2 ^ (e - 1)) && Z.odd (z / 2 ^ e))
                      then z / 2 ^ e + 1 else z / 2 ^ e)).
    { destruct ((2 ^ (e - 1) <? z mod 2 ^ e)
                || ((z mod 2 ^ e =? 2 ^ (e - 1)) && Z.odd (z / 2 ^ e))); lia. }
    cbv zeta.
    match goal with |- _ <= ?x * _ => set (q' := x) in * end.
    assert (2 ^ 53 <= q' * 2 ^ e) by nia.
    lia.
Qed.

(** Beyond [2^53] the score held is not the score sent: two scores of the
    size an [int64] reaches. *)
Lemma float64_rounds :
  float64 9222710980574232063 = 9222710980574231552
  ∧ float64 9007200954741093 = 9007200954741092
  ∧ float64 (2 ^ 53 + 3) = 2 ^ 53 + 4.
Proof. vm_compute. split_and!; reflexivity. Qed.

Lemma storedScore_zadd (score : Z) (member ns : string)
    (m : gmap string (gmap string Z)) :
  storedScore (zadd score member ns m) ns member = Some (float64 score).
Proof. unfold storedScore. by rewrite zscore_zadd. Qed.

Section Completions.
Context `{!JobCodec}.

Lemma redis_removeJobFromInProgress (w : worker) (job : Job) (σ : world) :
  redis (exec (removeJobFromInProgress w job) σ) = EXEC (release w job) (redis σ).
Proof. reflexivity. Qed.

Lemma exec_addToRetry_ok (w : worker) (job : Job) (e : error) (σ : world) (raw : string) :
  serialize job = OK raw ->
  ∃ delay σ',
    redis σ' = redis σ ∧ clock σ' = clock σ ∧ trace σ' = trace σ ∧
    exec (addToRetry w job e) σ =
      exec (transaction
              (release w job
               ++ [ZADD (redisKeyRetry (namespace w)) (Int64.add (clock σ) delay) raw]))
           σ'.
Proof.
  intros Hser. unfold addToRetry. rewrite Hser.
  destruct (match jobTypes w !! Name job with
            | Some jt => Backoff (jtOptions jt)
            | None => None
            end) as [f|].
  - exists (f job), σ. split_and!; reflexivity.
  - exists (eval (defaultBackoffCalculator job) σ),
           (exec (defaultBackoffCalculator job) σ).
    split_and!; [reflexivity..|].
    rewrite !exec_bind. reflexivity.
Qed.

Lemma exec_addToRetry_fail (w : worker) (job : Job) (e err : error) (σ : world) :
  serialize job = Fail err ->
  exec (addToRetry w job e) σ = appendTrace [LogError "worker.add_to_retry" (Error err)] σ.
Proof. intros Hser. unfold addToRetry. rewrite Hser. reflexivity. Qed.

(** The one batch [addToRetry] sends. *)
Lemma wire_addToRetry_ok (w : worker) (job : Job) (e : error) (σ : world) (raw : string) :
  serialize job = OK raw ->
  ∃ score,
    redis (exec (addToRetry w job e) σ)
    = EXEC (release w job ++ [ZADD (redisKeyRetry (namespace w)) score raw]) (redis σ)
    ∧ wire (exec (addToRetry w job e) σ)
      = wire σ ++ [release w job ++ [ZADD (redisKeyRetry (namespace w)) score raw]].
Proof.
  intros Hser. unfold addToRetry. rewrite Hser.
  destruct (match jobTypes w !! Name job with
            | Some jt => Backoff (jtOptions jt)
            | None => None
            end) as [f|].
  - exists (Int64.add (clock σ) (f job)). split; reflexivity.
  - exists (Int64.add (clock σ) (eval (defaultBackoffCalculator job) σ)).
    rewrite !exec_bind, exec_transaction. cbn [redis wire].
    split; reflexivity.
Qed.

Lemma exec_addToDead_ok (w : worker) (job : Job) (e : error) (σ : world) (raw : string) :
  serialize job = OK raw ->
  exec (addToDead w job e) σ =
    exec (transaction
            (release w job ++ [ZADD (redisKeyDead (namespace w)) (clock σ) raw])) σ.
Proof. intros Hser. unfold addToDead. rewrite Hser. reflexivity. Qed.

Lemma exec_addToDead_fail (w : worker) (job : Job) (e err : error) (σ : world) :
  serialize job = Fail err ->
  exec (addToDead w job e) σ =
    appendTrace [LogError "worker.add_to_dead.serialize" (Error err)] σ.
Proof. intros Hser. unfold addToDead. rewrite Hser. reflexivity. Qed.

Lemma redis_deleteUniqueJob (w : worker) (job : Job) (σ : world) :
  redis (exec (deleteUniqueJob w job) σ) =
    with_unique
      (delete (redisKeyUniqueJob (namespace w) (Name job) (Args job)).1
              (unique (redis σ)))
      (redis σ).
Proof.
  unfold deleteUniqueJob.
  destruct (redisKeyUniqueJob (namespace w) (Name job) (Args job)) as [k [e|]];
    reflexivity.
Qed.

Lemma redis_deferred (w : worker) (job : Job) (σ : world) :
  ∃ u, redis (exec (deferred w job) σ) = with_unique u (redis σ).
Proof.
  unfold deferred. destruct (Unique job).
  - eexists. apply redis_deleteUniqueJob.
  - exists (unique (redis σ)). destruct σ as [[] ? ? ? ?]. reflexivity.
Qed.

End Completions.

(** ** Retry-or-dead routing *)

(** In range, the remaining fails are the difference of the two counts. *)
Lemma failsRemaining_exact (jt : jobType) (job : Job) :
  0 <= MaxFails (jtOptions jt) <= Int64.max_int ->
  0 <= Fails job <= Int64.max_int ->
  failsRemaining jt job = MaxFails (jtOptions jt) - Fails job.
Proof.
  intros Hm Hf. unfold failsRemaining, Int64.sub.
  unfold Int64.max_int in *.
  rewrite (Int64_wrap_small (MaxFails (jtOptions jt)))
    by (unfold Int64.in_range, Int64.min_int, Int64.max_int; lia).
  apply Int64_wrap_small.
  unfold Int64.in_range, Int64.min_int, Int64.max_int. lia.
Qed.

(** C2. [addToRetryOrDead] routes as section 4.5 says: a no-retry error
    bypasses the retry branch whatever the remaining fails; otherwise a job
    with fails remaining goes to the retry set, else to the dead set unless
    the job type skips it, else it is only removed from in progress with
    the lock decrements. The remaining fails are the code's
    [int64(jt.MaxFails) - job.Fails], which is the difference of the two
    counts whenever both fit in an [int64]. Each target does what its name
    says: the retry
    target leaves the serialized job in the retry set, the dead target
    leaves it in the dead set at the current time and leaves the retry set
    alone, and plain removal runs the release commands and nothing else. *)
Theorem addToRetryOrDead_routes `{!JobCodec} (w : worker) (jt : jobType)
    (job : Job) (runErr : error) (σ : world) :
  let r := routeSpec (isNoRetryError runErr) (failsRemaining jt job)
                     (SkipDead (jtOptions jt)) in
  addToRetryOrDead w jt job runErr = dispatch r w job runErr
  ∧ (0 <= MaxFails (jtOptions jt) <= Int64.max_int ->
     0 <= Fails job <= Int64.max_int ->
     failsRemaining jt job = MaxFails (jtOptions jt) - Fails job)
  ∧ (isNoRetryError runErr = true -> r ≠ ToRetry)
  ∧ match r, serialize job with
    | ToRetry, OK raw =>
        is_Some (zscore (retry (redis (exec (dispatch r w job runErr) σ)))
                        (namespace w) raw)
        ∧ dead (redis (exec (dispatch r w job runErr) σ)) = dead (redis σ)
    | ToDead, OK raw =>
        zscore (dead (redis (exec (dispatch r w job runErr) σ))) (namespace w) raw
          = Some (clock σ)
        ∧ retry (redis (exec (dispatch r w job runErr) σ)) = retry (redis σ)
    | RemoveOnly, _ =>
        redis (exec (dispatch r w job runErr) σ) = EXEC (release w job) (redis σ)
        ∧ retry (redis (exec (dispatch r w job runErr) σ)) = retry (redis σ)
        ∧ dead (redis (exec (dispatch r w job runErr) σ)) = dead (redis σ)
    | _, Fail _ =>
        redis (exec (dispatch r w job runErr) σ) = redis σ
    end.
Proof.
  intros r. split_and!.
  - subst r. unfold addToRetryOrDead, routeSpec.
    destruct (isNoRetryError runErr), (0 <? failsRemaining jt job),
      (SkipDead (jtOptions jt)); reflexivity.
  - apply failsRemaining_exact.
  - intros Hno. subst r. unfold routeSpec. rewrite Hno.
    destruct (SkipDead (jtOptions jt)); discriminate.
  - destruct r; simpl.
    + destruct (serialize job) as [raw|err] eqn:Hser.
      * destruct (exec_addToRetry_ok w job runErr σ raw Hser)
          as (delay & σ' & Hr & _ & _ & ->).
        rewrite exec_transaction. simpl.
        split; [|by rewrite Hr].
        rewrite zscore_zadd. eauto.
      * by rewrite (exec_addToRetry_fail w job runErr err σ Hser).
    + destruct (serialize job) as [raw|err] eqn:Hser.
      * rewrite (exec_addToDead_ok w job runErr σ raw Hser).
        rewrite exec_transaction. simpl.
        split; [|reflexivity].
        apply zscore_zadd.
      * by rewrite (exec_addToDead_fail w job runErr err σ Hser).
    + split_and!; reflexivity.
Qed.

Lemma addToRetryOrDead_routes_witness :
  zscore (dead (redis (exec (@addToRetryOrDead demoCodec demoWorker emailType
                               (demoJob "email" "a" 1 false)
                               (NoRetryError "no use retrying"))
                            worldInFlight)))
         "work" (envelope "email" "a" 1)
  = Some 1700000100
  ∧ retry (redis (exec (@addToRetryOrDead demoCodec demoWorker emailType
                          (demoJob "email" "a" 1 false)
                          (NoRetryError "no use retrying"))
                       worldInFlight))
    = ∅
  ∧ failsRemaining emailType (demoJob "email" "a" 1 false) = 2.
Proof.
  pose proof (@addToRetryOrDead_routes demoCodec demoWorker emailType
                (demoJob "email" "a" 1 false) (NoRetryError "no use retrying")
                worldInFlight) as (Hroute & Hrem & _ & Heffect).
  rewrite Hroute. split_and!.
  - apply Heffect.
  - apply Heffect.
  - apply Hrem; vm_compute; split; discriminate.
Defined.

(** ** The default backoff *)

Lemma pow4_bounds (f : Z) :
  0 <= f <= 55108 ->
  0 <= f * f <= 3036891664
  ∧ 0 <= f * f * f <= 167357025819712
  ∧ 0 <= f * f * f * f <= 9222710978872688896.
Proof.
  intros Hf.
  assert (H2 : 0 <= f * f <= 55108 * 55108).
  { split; [lia|]. apply Z.mul_le_mono_nonneg; lia. }
  assert (H3 : 0 <= f * f * f <= 55108 * 55108 * 55108).
  { split; [lia|]. apply Z.mul_le_mono_nonneg; lia. }
  assert (H4 : 0 <= f * f * f * f <= 55108 * 55108 * 55108 * 55108).
  { split; [lia|]. apply Z.mul_le_mono_nonneg; lia. }
  lia.
Qed.

Lemma Int63n_range (n : Z) (σ : world) : 0 < n -> 0 <= eval (Int63n n) σ < n.
Proof. intros Hn. unfold eval, Int63n. simpl. apply Z.mod_pos_bound. lia. Qed.

Lemma defaultBackoff_exact (job : Job) (σ : world) :
  0 <= Fails job <= 55108 ->
  eval (defaultBackoffCalculator job) σ
  = Fails job ^ 4 + 15 + eval (Int63n 30) σ * (Fails job + 1).
Proof.
  intros Hf. unfold defaultBackoffCalculator. rewrite eval_bind.
  pose proof (Int63n_range 30 σ ltac:(lia)) as Hr.
  pose proof (pow4_bounds (Fails job) Hf) as (H2 & H3 & H4).
  set (r := eval (Int63n 30) σ) in *. set (f := Fails job) in *.
  unfold eval at 1. simpl.
  assert (Hrf : 0 <= r * (f + 1) <= 29 * 55109).
  { split; [apply Z.mul_nonneg_nonneg; lia|]. apply Z.mul_le_mono_nonneg; lia. }
  unfold Int64.add, Int64.mul.
  rewrite (Int64_wrap_small (f * f))
    by (unfold Int64.in_range, Int64.min_int, Int64.max_int; lia).
  rewrite (Int64_wrap_small (f * f * f))
    by (unfold Int64.in_range, Int64.min_int, Int64.max_int; lia).
  rewrite (Int64_wrap_small (f * f * f * f))
    by (unfold Int64.in_range, Int64.min_int, Int64.max_int; lia).
  rewrite (Int64_wrap_small (f * f * f * f + 15))
    by (unfold Int64.in_range, Int64.min_int, Int64.max_int; lia).
  rewrite (Int64_wrap_small (f + 1))
    by (unfold Int64.in_range, Int64.min_int, Int64.max_int; lia).
  rewrite (Int64_wrap_small (r * (f + 1)))
    by (unfold Int64.in_range, Int64.min_int, Int64.max_int; lia).
  rewrite Int64_wrap_small
    by (unfold Int64.in_range, Int64.min_int, Int64.max_int; lia).
  ring.
Qed.

(** C5, as stated, fails: at 55109 fails the fourth power leaves the range
    of [int64] and the backoff comes out negative. *)
Lemma defaultBackoff_wraps_at_55109 :
  eval (defaultBackoffCalculator (demoJob "email" "a" 55109 false))
       (mkWorld emptyStore 1700000000 [0] [])
  = -9223363648512013440
  ∧ 0 <= Fails (demoJob "email" "a" 55109 false)
  ∧ eval (defaultBackoffCalculator (demoJob "email" "a" 55109 false))
         (mkWorld emptyStore 1700000000 [0] []) < 15.
Proof. vm_compute. split_and!; [reflexivity|discriminate|reflexivity]. Qed.

(** C5, amended. For a job with [0 <= fails <= 55108] the default backoff
    returns [fails^4 + 15 + r * (fails + 1)] for some [r] in [0, 30), hence
    at least 15. Then [addToRetry] under the default backoff, when the job
    serializes, [0 <= now <= 2^53 - 15] and
    [now + fails^4 + 15 + 29 * (fails + 1)] fits in an [int64], leaves the
    serialized job in the retry set with a score of at least [now + 15]:
    the score the store holds is the float nearest to [now] plus the
    backoff, and the rounding does not take it below [now + 15]. *)
Theorem defaultBackoff_at_least_15 `{!JobCodec} (w : worker) (job : Job)
    (runErr : error) (σ : world) (raw : string) :
  0 <= Fails job <= 55108 ->
  serialize job = OK raw ->
  usesDefaultBackoff w job ->
  0 <= clock σ ->
  clock σ + 15 <= 2 ^ 53 ->
  clock σ + Fails job ^ 4 + 15 + 29 * (Fails job + 1) <= Int64.max_int ->
  (∃ r, 0 <= r < 30
        ∧ eval (defaultBackoffCalculator job) σ
          = Fails job ^ 4 + 15 + r * (Fails job + 1))
  ∧ 15 <= eval (defaultBackoffCalculator job) σ
  ∧ ∃ score,
      storedScore (retry (redis (exec (addToRetry w job runErr) σ))) (namespace w) raw
        = Some score
      ∧ score = float64 (clock σ + eval (defaultBackoffCalculator job) σ)
      ∧ clock σ + 15 <= score.
Proof.
  intros Hf Hser Hdef Hnow Hfloat Hfit.
  pose proof (defaultBackoff_exact job σ Hf) as Hexact.
  pose proof (Int63n_range 30 σ ltac:(lia)) as Hr.
  pose proof (pow4_bounds (Fails job) Hf) as (H2 & H3 & H4).
  assert (H4' : Fails job ^ 4 = Fails job * Fails job * Fails job * Fails job) by ring.
  assert (Hrf : 0 <= eval (Int63n 30) σ * (Fails job + 1) <= 29 * (Fails job + 1)).
  { split; [apply Z.mul_nonneg_nonneg; lia|]. apply Z.mul_le_mono_nonneg_r; lia. }
  split_and!.
  - exists (eval (Int63n 30) σ). split; [exact Hr|exact Hexact].
  - lia.
  - exists (float64 (clock σ + eval (defaultBackoffCalculator job) σ)).
    split_and!; [|reflexivity|apply float64_lower; lia].
    unfold addToRetry. rewrite Hser.
    assert (Hb : match jobTypes w !! Name job with
                 | Some jt => Backoff (jtOptions jt)
                 | None => None
                 end = None).
    { unfold usesDefaultBackoff in Hdef. by destruct (jobTypes w !! Name job). }
    rewrite Hb. rewrite !exec_bind, exec_transaction. simpl.
    replace (Int64.add (eval nowEpochSeconds σ)
               (eval (defaultBackoffCalculator job) (exec nowEpochSeconds σ)))
      with (clock σ + eval (defaultBackoffCalculator job) σ).
    + apply storedScore_zadd.
    + change (eval nowEpochSeconds σ) with (clock σ).
      change (exec nowEpochSeconds σ) with σ.
      unfold Int64.add. rewrite Int64_wrap_small; [reflexivity|].
      unfold Int64.in_range, Int64.min_int, Int64.max_int in *. lia.
Qed.

Lemma defaultBackoff_at_least_15_witness :
  (∃ r, 0 <= r < 30
        ∧ eval (defaultBackoffCalculator (demoJob "email" "a" 1 false)) worldInFlight
          = 1 ^ 4 + 15 + r * (1 + 1))
  ∧ 15 <= eval (defaultBackoffCalculator (demoJob "email" "a" 1 false)) worldInFlight
  ∧ ∃ score,
      storedScore (retry (redis (exec (@addToRetry demoCodec demoWorker
                                         (demoJob "email" "a" 1 false)
                                         (errorString "boom")) worldInFlight)))
                  "work" (envelope "email" "a" 1)
        = Some score
      ∧ score = float64 (1700000100
                         + eval (defaultBackoffCalculator (demoJob "email" "a" 1 false))
                                worldInFlight)
      ∧ 1700000100 + 15 <= score.
Proof.
  apply (@defaultBackoff_at_least_15 demoCodec demoWorker
           (demoJob "email" "a" 1 false) (errorString "boom") worldInFlight
           (envelope "email" "a" 1)).
  - simpl. lia.
  - reflexivity.
  - vm_compute. reflexivity.
  - simpl. lia.
  - vm_compute. discriminate.
  - vm_compute. discriminate.
Defined.

(** ** The paths of [processJob] *)

Lemma timeoutSentinel_value : timeoutSentinel = 1209600 * Duration.Second.
Proof. reflexivity. Qed.

Lemma effectiveTimeout_pos (jt : jobType) : 0 < effectiveTimeout jt.
Proof.
  unfold effectiveTimeout.
  destruct (Int64.mul (Timeout (jtOptions jt)) Duration.Millisecond <=? 0) eqn:Hle.
  - reflexivity.
  - by apply Z.leb_gt.
Qed.

Section Paths.
Context `{!JobCodec}.

Lemma processJobBody_registered (w : worker) (jt : jobType) (job : Job)
    (oc : outcome) (σ : world) :
  jobTypes w !! Name job = Some jt ->
  startingDeadlineMissed jt job = false ->
  processJobBody w job oc σ =
    let '(runErr, job1, evs) := selected job (hook w ++ jtHook jt) oc in
    let σ1 :=
      appendTrace
        ([ObserveStarted (Name job) (ID job) (Args job);
          RunJob job (middleware w ++ jtMiddleware jt) (jtName jt);
          After (effectiveTimeout jt)]
         ++ evs ++ [ObserveDone (Name job) (ID job) runErr]) σ in
    match runErr with
    | Some e =>
        let job2 := failed (clock σ) e job1 in
        (job2, exec (addToRetryOrDead w jt job2 e) σ1)
    | None => (job1, exec (removeJobFromInProgress w job1) σ1)
    end.
Proof.
  intros Hjt Hdl. unfold processJobBody. rewrite Hjt, Hdl.
  pose proof (effectiveTimeout_pos jt) as Hpos.
  apply Z.ltb_lt in Hpos.
  destruct oc as [|[e|] ctx|]; unfold selected.
  - unfold mbind, M_bind. cbn [emit]. rewrite Hpos. cbn [emit mret M_ret].
    unfold jobFailed, mbind, M_bind, nowEpochSeconds, mret, M_ret. cbn [clock].
    unfold appendTrace, exec. cbn [trace redis clock entropy].
    rewrite <- !app_assoc. cbn [app].
    destruct (addToRetryOrDead _ _ _ _ _). reflexivity.
  - unfold mbind, M_bind. cbn [emit mret M_ret].
    unfold jobFailed, mbind, M_bind, nowEpochSeconds, mret, M_ret. cbn [clock].
    unfold appendTrace, exec. cbn [trace redis clock entropy Name ID setSuccess].
    rewrite <- !app_assoc. cbn [app].
    destruct (addToRetryOrDead _ _ _ _ _). reflexivity.
  - unfold mbind, M_bind. cbn [emit mret M_ret].
    unfold appendTrace, exec. cbn [trace redis clock entropy Name ID setSuccess].
    rewrite <- !app_assoc. cbn [app]. reflexivity.
  - unfold mbind, M_bind. cbn [emit mret M_ret].
    unfold appendTrace, exec. cbn [trace redis clock entropy].
    rewrite <- !app_assoc. cbn [app]. reflexivity.
Qed.

Lemma processJobBody_dropped (w : worker) (jt : jobType) (job : Job)
    (oc : outcome) (σ : world) :
  jobTypes w !! Name job = Some jt ->
  startingDeadlineMissed jt job = true ->
  processJobBody w job oc σ = (job, exec (removeJobFromInProgress w job) σ).
Proof.
  intros Hjt Hdl. unfold processJobBody. rewrite Hjt, Hdl. reflexivity.
Qed.

Lemma processJobBody_stray (w : worker) (job : Job) (oc : outcome) (σ : world) :
  jobTypes w !! Name job = None ->
  processJobBody w job oc σ =
    let runErr := errorString "stray job: no handler" in
    let job' := failed (clock σ) runErr job in
    (job', exec (addToDead w job' runErr)
                (appendTrace [LogError "process_job.stray" "stray job: no handler"] σ)).
Proof.
  intros Hjt. unfold processJobBody. rewrite Hjt.
  unfold mbind, M_bind, logError. cbn [emit Error].
  unfold jobFailed, mbind, M_bind, nowEpochSeconds, mret, M_ret. cbn [clock].
  unfold appendTrace, exec.
  destruct (addToDead _ _ _ _). reflexivity.
Qed.

Lemma exec_processJob (w : worker) (job : Job) (oc : outcome) (σ : world) :
  exec (processJob w job oc) σ =
    exec (deferred w (processJobBody w job oc σ).1) (processJobBody w job oc σ).2.
Proof.
  unfold processJob, exec, mbind, M_bind, deferred.
  destruct (processJobBody w job oc σ). reflexivity.
Qed.

(** The body changes none of the fields the deferred call reads. *)
Lemma processJobBody_keeps (w : worker) (job : Job) (oc : outcome) (σ : world) :
  let job' := (processJobBody w job oc σ).1 in
  Name job' = Name job ∧ Args job' = Args job ∧ Unique job' = Unique job
  ∧ rawJSON job' = rawJSON job ∧ inProgQueue job' = inProgQueue job.
Proof.
  destruct (jobTypes w !! Name job) as [jt|] eqn:Hjt.
  - destruct (startingDeadlineMissed jt job) eqn:Hdl.
    + rewrite (processJobBody_dropped w jt job oc σ Hjt Hdl). by simpl.
    + rewrite (processJobBody_registered w jt job oc σ Hjt Hdl).
      destruct oc as [|[e|] ctx|]; by simpl.
  - rewrite (processJobBody_stray w job oc σ Hjt). by simpl.
Qed.

End Paths.

(** ** Timeouts *)

(** C4, as stated, fails at the ends of the range of [int]: the product
    with [time.Millisecond] wraps. The largest [int], a natural way to ask
    for no timeout, gets the fourteen days, and so does 9223372036855 ms,
    the first positive option whose nanoseconds do not fit; the option
    -9223372036855, which is not positive, gets a positive timeout that is
    not the fourteen days. *)
Lemma effectiveTimeout_wraps :
  effectiveTimeout (timedType 9223372036854775807) = timeoutSentinel
  ∧ effectiveTimeout (timedType 9223372036855) = timeoutSentinel
  ∧ 9223372036855 * Duration.Millisecond = 9223372036855000000
  ∧ timeoutSentinel = 1209600000000000
  ∧ effectiveTimeout (timedType (-9223372036855)) = 9223372036854551616.
Proof. vm_compute. split_and!; reflexivity. Qed.

(** C4, amended. For a [Timeout] option between -9223372036854 and
    9223372036854 (the values whose nanoseconds fit in an [int64]),
    [processJob] computes the effective timeout as the option in
    milliseconds, or fourteen days when the option is not positive. Whatever
    the option, when the timer fires before the handler completes the error
    is exactly "Run Job Timeout": it is what is observed, it is the job's
    last error, and the job is routed through [addToRetryOrDead] with it,
    so it is retried when fails remain. *)
Theorem timeout_is_a_retryable_error `{!JobCodec} (w : worker) (jt : jobType)
    (job : Job) (σ : world) :
  jobTypes w !! Name job = Some jt ->
  startingDeadlineMissed jt job = false ->
  let runErr := errorString "Run Job Timeout" in
  let job' := failed (clock σ) runErr job in
  let σ1 :=
    appendTrace
      [ObserveStarted (Name job) (ID job) (Args job);
       RunJob job (middleware w ++ jtMiddleware jt) (jtName jt);
       After (effectiveTimeout jt);
       Printf ("Job " +:+ Name job +:+ " Timeout");
       ObserveDone (Name job) (ID job) (Some runErr)] σ in
  (-9223372036854 <= Timeout (jtOptions jt) <= 9223372036854 ->
   effectiveTimeout jt =
     if Timeout (jtOptions jt) <=? 0 then 14 * 24 * 60 * Duration.Minute
     else Timeout (jtOptions jt) * Duration.Millisecond)
  ∧ LastErr job' = "Run Job Timeout"
  ∧ exec (processJob w job TimerFired) σ
    = exec (deferred w job') (exec (addToRetryOrDead w jt job' runErr) σ1)
  ∧ (0 < failsRemaining jt job' ->
     addToRetryOrDead w jt job' runErr = addToRetry w job' runErr).
Proof.
  intros Hjt Hdl runErr job' σ1. split_and!.
  - intros Hrange. unfold effectiveTimeout, Int64.mul.
    rewrite Int64_wrap_small.
    + change Duration.Millisecond with 1000000.
      destruct (Timeout (jtOptions jt) <=? 0) eqn:Ht.
      * apply Z.leb_le in Ht.
        replace (Timeout (jtOptions jt) * 1000000 <=? 0) with true
          by (symmetry; apply Z.leb_le; lia).
        reflexivity.
      * apply Z.leb_gt in Ht.
        replace (Timeout (jtOptions jt) * 1000000 <=? 0) with false
          by (symmetry; apply Z.leb_gt; lia).
        reflexivity.
    + change Duration.Millisecond with 1000000.
      unfold Int64.in_range, Int64.min_int, Int64.max_int. lia.
  - reflexivity.
  - rewrite exec_processJob.
    rewrite (processJobBody_registered w jt job TimerFired σ Hjt Hdl).
    reflexivity.
  - intros Hrem. unfold addToRetryOrDead.
    apply Z.ltb_lt in Hrem. rewrite Hrem. reflexivity.
Qed.

Lemma timeout_is_a_retryable_error_witness :
  effectiveTimeout emailType = 14 * 24 * 60 * Duration.Minute
  ∧ LastErr (failed 1700000100 (errorString "Run Job Timeout")
                    (demoJob "email" "a" 0 true)) = "Run Job Timeout"
  ∧ zscore (retry (redis (exec (@processJob demoCodec demoWorker
                                  (demoJob "email" "a" 0 true) TimerFired)
                               worldInFlight)))
           "work" (envelope "email" "a" 1) = Some 1700000130.
Proof.
  pose proof (@timeout_is_a_retryable_error demoCodec demoWorker emailType
                (demoJob "email" "a" 0 true) worldInFlight
                ltac:(vm_compute; reflexivity) ltac:(vm_compute; reflexivity))
    as (Heff & Hlast & Hexec & Hretry).
  split_and!.
  - apply Heff. vm_compute. split; discriminate.
  - exact Hlast.
  - rewrite Hexec. vm_compute. reflexivity.
Defined.

(** ** What the release commands do to the store *)

Lemma list_at_list_put `{Countable K} (k : K) (l : list string)
    (m : gmap K (list string)) :
  list_at (list_put k l m) k = l.
Proof.
  unfold list_at, list_put. destruct l.
  - by rewrite lookup_delete_eq.
  - by rewrite lookup_insert_eq.
Qed.

Lemma list_at_list_put_ne `{Countable K} (k k' : K) (l : list string)
    (m : gmap K (list string)) :
  k ≠ k' -> list_at (list_put k l m) k' = list_at m k'.
Proof.
  intros Hne. unfold list_at, list_put. destruct l.
  - by rewrite lookup_delete_ne.
  - by rewrite lookup_insert_ne.
Qed.

Lemma release_inprogress (w : worker) (job : Job) (s : store) :
  inprogress (EXEC (release w job) s)
  = list_put (inProgQueue job)
      (lrem 1 (rawJSON job) (list_at (inprogress s) (inProgQueue job)))
      (inprogress s).
Proof. reflexivity. Qed.

Lemma release_lock (w : worker) (job : Job) (s : store) :
  lock (EXEC (release w job) s)
  = <[redisKeyJobsLock (namespace w) (Name job) :=
        int_at (lock s) (redisKeyJobsLock (namespace w) (Name job)) - 1]> (lock s).
Proof. reflexivity. Qed.

Lemma release_lock_info (w : worker) (job : Job) (s : store) :
  int_at (default ∅ (lock_info (EXEC (release w job) s)
                     !! redisKeyJobsLockInfo (namespace w) (Name job))) (poolID w)
  = int_at (default ∅ (lock_info s !! redisKeyJobsLockInfo (namespace w) (Name job)))
           (poolID w) - 1.
Proof.
  unfold release, EXEC. simpl. rewrite lookup_insert_eq. simpl.
  unfold int_at at 1. rewrite lookup_insert_eq. simpl. lia.
Qed.

Lemma release_others (w : worker) (job : Job) (s : store) :
  pending (EXEC (release w job) s) = pending s
  ∧ retry (EXEC (release w job) s) = retry s
  ∧ dead (EXEC (release w job) s) = dead s
  ∧ unique (EXEC (release w job) s) = unique s.
Proof. split_and!; reflexivity. Qed.

(** ** The clear signal *)

(** C3, as stated, fails: after a clear signal during the run of job [a],
    the record of [a] is gone from the in-progress list of its pool and the
    lock is back to zero. *)
Lemma clear_removes_the_record :
  list_at (inprogress (redis worldInFlight))
          (redisKeyJobsInProgress "work" "pool1" "email")
  = [rawJSON (demoJob "email" "a" 0 true)]
  ∧ list_at (inprogress (redis (exec (@processJob demoCodec demoWorker
                                        (demoJob "email" "a" 0 true) ClearReceived)
                                     worldInFlight)))
            (redisKeyJobsInProgress "work" "pool1" "email")
    = []
  ∧ int_at (lock (redis (exec (@processJob demoCodec demoWorker
                                 (demoJob "email" "a" 0 true) ClearReceived)
                              worldInFlight)))
           (redisKeyJobsLock "work" "email")
    = 0
  ∧ trace (exec (@processJob demoCodec demoWorker
                   (demoJob "email" "a" 0 true) ClearReceived) worldInFlight)
    = [ObserveStarted "email" "a" [];
       RunJob (demoJob "email" "a" 0 true) [] "email";
       After timeoutSentinel;
       DoneClearing;
       ObserveDone "email" "a" None].
Proof. vm_compute. split_and!; reflexivity. Qed.

(** C3, amended. If a worker receives the clear signal while a job is
    executing, it stops waiting on the result of the handler, acknowledges
    the clear and discards the outcome of the job: no error is recorded, the
    success flag is not set and no hook runs, so the job record the body of
    [processJob] leaves is the one it was given. Having no error, it then
    completes the job as after a success: one occurrence of the record
    leaves the in-progress list, the lock and the pool's field of the lock
    info go down by one, and the retry and dead sets are left alone. *)
Theorem clear_completes_the_job `{!JobCodec} (w : worker) (jt : jobType)
    (job : Job) (σ : world) :
  jobTypes w !! Name job = Some jt ->
  startingDeadlineMissed jt job = false ->
  let σ1 :=
    appendTrace
      [ObserveStarted (Name job) (ID job) (Args job);
       RunJob job (middleware w ++ jtMiddleware jt) (jtName jt);
       After (effectiveTimeout jt);
       DoneClearing;
       ObserveDone (Name job) (ID job) None] σ in
  let σ' := exec (processJob w job ClearReceived) σ in
  σ' = exec (deferred w job) (exec (removeJobFromInProgress w job) σ1)
  ∧ (processJobBody w job ClearReceived σ).1 = job
  ∧ list_at (inprogress (redis σ')) (inProgQueue job)
    = lrem 1 (rawJSON job) (list_at (inprogress (redis σ)) (inProgQueue job))
  ∧ int_at (lock (redis σ')) (redisKeyJobsLock (namespace w) (Name job))
    = int_at (lock (redis σ)) (redisKeyJobsLock (namespace w) (Name job)) - 1
  ∧ int_at (default ∅ (lock_info (redis σ')
                       !! redisKeyJobsLockInfo (namespace w) (Name job))) (poolID w)
    = int_at (default ∅ (lock_info (redis σ)
                         !! redisKeyJobsLockInfo (namespace w) (Name job))) (poolID w)
      - 1
  ∧ retry (redis σ') = retry (redis σ)
  ∧ dead (redis σ') = dead (redis σ).
Proof.
  intros Hjt Hdl σ1 σ'.
  assert (Hσ' : σ' = exec (deferred w job) (exec (removeJobFromInProgress w job) σ1)).
  { subst σ'. rewrite exec_processJob.
    rewrite (processJobBody_registered w jt job ClearReceived σ Hjt Hdl).
    reflexivity. }
  split; [exact Hσ'|].
  split; [by rewrite (processJobBody_registered w jt job ClearReceived σ Hjt Hdl)|].
  destruct (redis_deferred w job (exec (removeJobFromInProgress w job) σ1))
    as [u Hu].
  rewrite Hσ', Hu, redis_removeJobFromInProgress.
  change (redis σ1) with (redis σ).
  split_and!.
  - cbn [inprogress with_unique]. rewrite release_inprogress.
    apply list_at_list_put.
  - cbn [lock with_unique]. rewrite release_lock.
    unfold int_at at 1. by rewrite lookup_insert_eq.
  - cbn [lock_info with_unique]. apply release_lock_info.
  - reflexivity.
  - reflexivity.
Qed.

Lemma clear_completes_the_job_witness :
  exec (@processJob demoCodec demoWorker (demoJob "email" "a" 0 true) ClearReceived)
       worldInFlight
  = exec (@deferred demoCodec demoWorker (demoJob "email" "a" 0 true))
         (exec (removeJobFromInProgress demoWorker (demoJob "email" "a" 0 true))
               (appendTrace
                  [ObserveStarted "email" "a" [];
                   RunJob (demoJob "email" "a" 0 true) [] "email";
                   After timeoutSentinel;
                   DoneClearing;
                   ObserveDone "email" "a" None] worldInFlight))
  ∧ jobTypes demoWorker !! "email" = Some emailType.
Proof.
  split.
  - apply (@clear_completes_the_job demoCodec demoWorker emailType
             (demoJob "email" "a" 0 true) worldInFlight);
      vm_compute; reflexivity.
  - vm_compute. reflexivity.
Defined.

(** ** Stray jobs, missed deadlines, unique markers *)

Lemma trace_deferred `{!JobCodec} (w : worker) (job : Job) (σ : world) :
  trace (exec (deferred w job) σ)
  = trace σ ++ (if Unique job then uniqueKeyLog w job else []).
Proof.
  unfold deferred, uniqueKeyLog, deleteUniqueJob. destruct (Unique job).
  - destruct (redisKeyUniqueJob (namespace w) (Name job) (Args job)) as [k [e|]];
      simpl; [reflexivity|by rewrite app_nil_r].
  - simpl. by rewrite app_nil_r.
Qed.

(** C6. A fetched job whose name has no registered job type is marked
    failed with "stray job: no handler" and handed to [addToDead], whatever
    its fail count and whatever the [select] would have met: the retry set
    is left alone, no handler runs, and the serialized job is in the dead
    set at the current time. *)
Theorem stray_job_goes_to_dead `{!JobCodec} (w : worker) (job : Job)
    (oc : outcome) (σ : world) :
  jobTypes w !! Name job = None ->
  let runErr := errorString "stray job: no handler" in
  let job' := failed (clock σ) runErr job in
  let σ1 := appendTrace [LogError "process_job.stray" "stray job: no handler"] σ in
  let σ' := exec (processJob w job oc) σ in
  LastErr job' = "stray job: no handler"
  ∧ Fails job' = Int64.add (Fails job) 1
  ∧ σ' = exec (deferred w job') (exec (addToDead w job' runErr) σ1)
  ∧ retry (redis σ') = retry (redis σ)
  ∧ (∃ es, trace σ' = trace σ ++ es ∧ noHandlerRun es)
  ∧ match serialize job' with
    | OK raw =>
        zscore (dead (redis σ')) (namespace w) raw = Some (clock σ)
        ∧ list_at (inprogress (redis σ')) (inProgQueue job)
          = lrem 1 (rawJSON job) (list_at (inprogress (redis σ)) (inProgQueue job))
    | Fail _ => dead (redis σ') = dead (redis σ)
    end.
Proof.
  intros Hjt runErr job' σ1 σ'.
  assert (Hσ' : σ' = exec (deferred w job') (exec (addToDead w job' runErr) σ1)).
  { subst σ'. rewrite exec_processJob.
    rewrite (processJobBody_stray w job oc σ Hjt). reflexivity. }
  split_and!; [reflexivity|reflexivity|exact Hσ'|..].
  - rewrite Hσ'.
    destruct (redis_deferred w job' (exec (addToDead w job' runErr) σ1)) as [u ->].
    cbn [retry with_unique].
    destruct (serialize job') as [raw|err] eqn:Hser.
    + rewrite (exec_addToDead_ok w job' runErr σ1 raw Hser). reflexivity.
    + rewrite (exec_addToDead_fail w job' runErr err σ1 Hser). reflexivity.
  - rewrite Hσ', trace_deferred.
    destruct (serialize job') as [raw|err] eqn:Hser.
    + rewrite (exec_addToDead_ok w job' runErr σ1 raw Hser).
      rewrite exec_transaction. cbn [trace]. subst σ1. cbn [appendTrace trace].
      rewrite <- app_assoc. eexists. split; [reflexivity|].
      unfold noHandlerRun, uniqueKeyLog. apply Forall_app. split.
      * by repeat constructor.
      * destruct (Unique job'); [|constructor].
        destruct (redisKeyUniqueJob _ _ _).2; by repeat constructor.
    + rewrite (exec_addToDead_fail w job' runErr err σ1 Hser).
      subst σ1. rewrite appendTrace_app. cbn [appendTrace trace].
      rewrite <- app_assoc. eexists. split; [reflexivity|].
      unfold noHandlerRun, uniqueKeyLog. apply Forall_app. split.
      * by repeat constructor.
      * destruct (Unique job'); [|constructor].
        destruct (redisKeyUniqueJob _ _ _).2; by repeat constructor.
  - rewrite Hσ'.
    destruct (redis_deferred w job' (exec (addToDead w job' runErr) σ1)) as [u ->].
    destruct (serialize job') as [raw|err] eqn:Hser.
    + rewrite (exec_addToDead_ok w job' runErr σ1 raw Hser).
      rewrite exec_transaction. cbn [redis dead inprogress with_unique].
      rewrite EXEC_app. split.
      * simpl. apply zscore_zadd.
      * change (inprogress (EXEC [ZADD (redisKeyDead (namespace w)) (clock σ1) raw]
                              (EXEC (release w job') (redis σ1))))
          with (inprogress (EXEC (release w job') (redis σ1))).
        rewrite release_inprogress.
        change (inProgQueue job') with (inProgQueue job).
        rewrite list_at_list_put. reflexivity.
    + rewrite (exec_addToDead_fail w job' runErr err σ1 Hser). reflexivity.
Qed.

Lemma stray_job_goes_to_dead_witness :
  jobTypes demoWorker !! "sms" = None
  ∧ zscore (dead (redis (exec (@processJob demoCodec demoWorker
                                 (demoJob "sms" "c" 2 false)
                                 (HandlerReturned None "ctx"))
                              worldInFlight)))
           "work" (envelope "sms" "c" 3)
    = Some 1700000100
  ∧ retry (redis (exec (@processJob demoCodec demoWorker
                          (demoJob "sms" "c" 2 false)
                          (HandlerReturned None "ctx"))
                       worldInFlight))
    = retry (redis worldInFlight).
Proof.
  pose proof (@stray_job_goes_to_dead demoCodec demoWorker
                (demoJob "sms" "c" 2 false) (HandlerReturned None "ctx")
                worldInFlight ltac:(vm_compute; reflexivity))
    as (_ & _ & _ & Hretry & _ & Hdead).
  split_and!.
  - vm_compute. reflexivity.
  - apply Hdead.
  - exact Hretry.
Defined.

(** C7. For a job type with a positive starting deadline and a job
    scheduled at a positive time before it, [processJob] runs
    [removeJobFromInProgress] and returns: no handler or hook is started,
    nothing is observed, and the retry and dead sets are left alone. The
    only other step is the deferred deletion of the unique marker of a job
    that carries one; for a job without, the world is exactly the one
    [removeJobFromInProgress] leaves. *)
Theorem missed_deadline_drops_the_job `{!JobCodec} (w : worker) (jt : jobType)
    (job : Job) (oc : outcome) (σ : world) :
  jobTypes w !! Name job = Some jt ->
  0 < StartingDeadline (jtOptions jt) ->
  0 < ScheduledAt job ->
  ScheduledAt job < StartingDeadline (jtOptions jt) ->
  let σ' := exec (processJob w job oc) σ in
  σ' = exec (deferred w job) (exec (removeJobFromInProgress w job) σ)
  ∧ (Unique job = false -> σ' = exec (removeJobFromInProgress w job) σ)
  ∧ list_at (inprogress (redis σ')) (inProgQueue job)
    = lrem 1 (rawJSON job) (list_at (inprogress (redis σ)) (inProgQueue job))
  ∧ retry (redis σ') = retry (redis σ)
  ∧ dead (redis σ') = dead (redis σ)
  ∧ trace σ' = trace σ ++ (if Unique job then uniqueKeyLog w job else [])
  ∧ noHandlerRun (if Unique job then uniqueKeyLog w job else []).
Proof.
  intros Hjt Hd Hs Hlt σ'.
  assert (Hdl : startingDeadlineMissed jt job = true).
  { unfold startingDeadlineMissed.
    apply Z.ltb_lt in Hd, Hs, Hlt. by rewrite Hd, Hs, Hlt. }
  assert (Hσ' : σ' = exec (deferred w job) (exec (removeJobFromInProgress w job) σ)).
  { subst σ'. rewrite exec_processJob.
    rewrite (processJobBody_dropped w jt job oc σ Hjt Hdl). reflexivity. }
  split_and!; [exact Hσ'|..].
  - intros Hu. rewrite Hσ'. unfold deferred. rewrite Hu. reflexivity.
  - rewrite Hσ'.
    destruct (redis_deferred w job (exec (removeJobFromInProgress w job) σ)) as [u ->].
    rewrite redis_removeJobFromInProgress. cbn [inprogress with_unique].
    rewrite release_inprogress. apply list_at_list_put.
  - rewrite Hσ'.
    destruct (redis_deferred w job (exec (removeJobFromInProgress w job) σ)) as [u ->].
    reflexivity.
  - rewrite Hσ'.
    destruct (redis_deferred w job (exec (removeJobFromInProgress w job) σ)) as [u ->].
    reflexivity.
  - rewrite Hσ', trace_deferred. reflexivity.
  - unfold noHandlerRun, uniqueKeyLog.
    destruct (Unique job); [|constructor].
    destruct (redisKeyUniqueJob _ _ _).2; by repeat constructor.
Qed.

Lemma missed_deadline_drops_the_job_witness :
  exec (@processJob demoCodec deadlineWorker lateJob (HandlerReturned None "ctx"))
       worldInFlight
  = exec (removeJobFromInProgress deadlineWorker lateJob) worldInFlight
  ∧ trace (exec (@processJob demoCodec deadlineWorker lateJob
                   (HandlerReturned None "ctx")) worldInFlight) = [].
Proof.
  pose proof (@missed_deadline_drops_the_job demoCodec deadlineWorker deadlineType
                lateJob (HandlerReturned None "ctx") worldInFlight
                ltac:(vm_compute; reflexivity) ltac:(reflexivity)
                ltac:(reflexivity) ltac:(reflexivity))
    as (_ & Hplain & _ & _ & _ & Htrace & _).
  split.
  - apply Hplain. reflexivity.
  - exact Htrace.
Defined.

(** C10. For a job whose unique flag is set, [processJob] ends, on every
    path, with the deferred [deleteUniqueJob]: whatever the [select] met,
    and whether the job type is known, dropped for its deadline or run, the
    last step is the deletion of the key that [redisKeyUniqueJob] names for
    the job, and the store holds no marker under that key afterwards. *)
Theorem unique_marker_deleted_on_every_path `{!JobCodec} (w : worker)
    (job : Job) (oc : outcome) (σ : world) :
  Unique job = true ->
  let key := (redisKeyUniqueJob (namespace w) (Name job) (Args job)).1 in
  let σ' := exec (processJob w job oc) σ in
  unique (redis σ') !! key = None
  ∧ ∃ job' σ1,
      Name job' = Name job ∧ Args job' = Args job
      ∧ σ1 = (processJobBody w job oc σ).2
      ∧ σ' = exec (deleteUniqueJob w job') σ1
      ∧ redis σ' = with_unique (delete key (unique (redis σ1))) (redis σ1).
Proof.
  intros Hu key σ'.
  pose proof (processJobBody_keeps w job oc σ) as (Hn & Ha & Hq & _ & _).
  assert (Hσ' : σ' = exec (deleteUniqueJob w (processJobBody w job oc σ).1)
                          (processJobBody w job oc σ).2).
  { subst σ'. rewrite exec_processJob. unfold deferred. rewrite Hq, Hu. reflexivity. }
  assert (Hredis : redis σ' = with_unique
                                (delete key (unique (redis (processJobBody w job oc σ).2)))
                                (redis (processJobBody w job oc σ).2)).
  { rewrite Hσ', redis_deleteUniqueJob. subst key. by rewrite Hn, Ha. }
  split.
  - rewrite Hredis. cbn [unique with_unique]. apply lookup_delete_eq.
  - exists (processJobBody w job oc σ).1, (processJobBody w job oc σ).2.
    split_and!; [exact Hn|exact Ha|reflexivity|exact Hσ'|exact Hredis].
Qed.

Lemma unique_marker_deleted_on_every_path_witness :
  unique (redis worldInFlight) !! "work:unique:email" = Some "1"
  ∧ unique (redis (exec (@processJob demoCodec demoWorker
                           (demoJob "email" "a" 0 true)
                           (HandlerReturned (Some (errorString "boom")) "ctx"))
                        worldInFlight))
    !! "work:unique:email" = None.
Proof.
  split.
  - vm_compute. reflexivity.
  - apply (@unique_marker_deleted_on_every_path demoCodec demoWorker
             (demoJob "email" "a" 0 true)
             (HandlerReturned (Some (errorString "boom")) "ctx") worldInFlight).
    reflexivity.
Defined.

(** ** The worker loop *)

Section LoopFacts.
Context `{!JobCodec}.

Lemma loopTurn_tick (w : worker) (ls : loopState) (order : list sampleItem)
    (fault : option error) (oc : outcome) (σ : world) :
  loopTurn w ls (TimerTick order fault oc) σ
  = afterFetch w ls oc (eval (fetchJob w order fault) σ)
               (exec (fetchJob w order fault) σ).
Proof.
  unfold loopTurn, mbind, M_bind, eval, exec.
  destruct (fetchJob w order fault σ). reflexivity.
Qed.

Lemma afterFetch_error (w : worker) (ls : loopState) (oc : outcome)
    (err : error) (σ : world) :
  afterFetch w ls oc (Fail err) σ
  = (Continue (mkLoopState (drained ls) (consequtiveNoJobs ls)
                           (10 * Duration.Millisecond)),
     appendTrace [LogError "worker.fetch" (Error err)] σ).
Proof. reflexivity. Qed.

Lemma afterFetch_job (w : worker) (ls : loopState) (oc : outcome)
    (job : Job) (σ : world) :
  afterFetch w ls oc (OK (Some job)) σ
  = (Continue (mkLoopState (drained ls) 0 0), exec (processJob w job oc) σ).
Proof.
  unfold afterFetch, mbind, M_bind, exec.
  destruct (processJob w job oc σ). reflexivity.
Qed.

Lemma afterFetch_nil (w : worker) (ls : loopState) (oc : outcome) (σ : world) :
  0 <= consequtiveNoJobs ls < Int64.max_int ->
  ∃ ms,
    sleepBackoffsInMilliseconds !! Z.to_nat (Z.min (consequtiveNoJobs ls + 1) 4)
      = Some ms
    ∧ afterFetch w ls oc (OK None) σ
      = (Continue (mkLoopState false (consequtiveNoJobs ls + 1)
                               (ms * Duration.Millisecond)),
         if drained ls then appendTrace [DoneDraining] σ else σ).
Proof.
  intros Hc. unfold afterFetch.
  assert (Hadd : Int64.add (consequtiveNoJobs ls) 1 = consequtiveNoJobs ls + 1).
  { apply Int64_wrap_small.
    unfold Int64.in_range, Int64.min_int, Int64.max_int in *. lia. }
  rewrite Hadd. set (c := consequtiveNoJobs ls) in *.
  assert (Hcases : c = 0 ∨ c = 1 ∨ c = 2 ∨ 3 <= c) by lia.
  assert (Hw : ∀ σ0 : world,
             (if drained ls then appendTrace [DoneDraining] σ0 else σ0)
             = ((if drained ls then emit DoneDraining;; mret false else mret false) σ0).2).
  { intros σ0. by destruct (drained ls). }
  destruct Hcases as [->|[->|[->|Hge]]].
  - exists 10. split; [reflexivity|].
    unfold mbind, M_bind. destruct (drained ls); reflexivity.
  - exists 100. split; [reflexivity|].
    unfold mbind, M_bind. destruct (drained ls); reflexivity.
  - exists 1000. split; [reflexivity|].
    unfold mbind, M_bind. destruct (drained ls); reflexivity.
  - exists 5000. split.
    + rewrite Z.min_r by lia. reflexivity.
    + unfold mbind, M_bind. cbn [length sleepBackoffsInMilliseconds].
      destruct (Z.leb_spec (Z.of_nat 5) (c + 1)) as [Hle|Hlt].
      * destruct (drained ls); reflexivity.
      * assert (c = 3) as -> by lia.
        destruct (drained ls); reflexivity.
Qed.

(** The idle counter never exceeds the number of turns taken. *)
Lemma loopTurn_counter (w : worker) (ls ls' : loopState) (ev : loopEvent)
    (σ : world) :
  0 <= consequtiveNoJobs ls < Int64.max_int ->
  (loopTurn w ls ev σ).1 = Continue ls' ->
  0 <= consequtiveNoJobs ls' <= consequtiveNoJobs ls + 1.
Proof.
  intros Hc Hturn. destruct ev as [| |order fault oc].
  - discriminate.
  - simpl in Hturn. injection Hturn as <-. simpl. lia.
  - rewrite loopTurn_tick in Hturn.
    destruct (eval (fetchJob w order fault) σ) as [[job|]|err].
    + rewrite afterFetch_job in Hturn. injection Hturn as <-. simpl. lia.
    + destruct (afterFetch_nil w ls oc (exec (fetchJob w order fault) σ) Hc)
        as (ms & _ & Heq).
      rewrite Heq in Hturn. injection Hturn as <-. simpl. lia.
    + rewrite afterFetch_error in Hturn. injection Hturn as <-. simpl. lia.
Qed.

Lemma loopFrom_counter (w : worker) (evs : list loopEvent) :
  ∀ (ls ls' : loopState) (σ : world),
    0 <= consequtiveNoJobs ls ->
    consequtiveNoJobs ls + Z.of_nat (length evs) <= Int64.max_int ->
    (loopFrom w ls evs σ).1 = Continue ls' ->
    0 <= consequtiveNoJobs ls' <= consequtiveNoJobs ls + Z.of_nat (length evs).
Proof.
  induction evs as [|ev rest IH]; intros ls ls' σ H0 Hfit Hrun.
  - simpl in Hrun. injection Hrun as <-. simpl. lia.
  - cbn [length] in *. rewrite Nat2Z.inj_succ in *.
    cbn [loopFrom] in Hrun. unfold mbind, M_bind in Hrun.
    destruct (loopTurn w ls ev σ) as [r σ1] eqn:Hturn.
    destruct r as [ls1| |idx]; try discriminate.
    assert (H1 : 0 <= consequtiveNoJobs ls1 <= consequtiveNoJobs ls + 1).
    { apply (loopTurn_counter w ls ls1 ev σ); [lia|by rewrite Hturn]. }
    pose proof (IH ls1 ls' σ1 ltac:(lia) ltac:(lia) Hrun). lia.
Qed.

End LoopFacts.

(** C8. On a tick of the timer: an error of the fetch (a transport error
    among them) is logged and the timer reset to 10 ms, the counter
    untouched; a nil fetch increments the counter of consecutive idle
    fetches and resets the timer to the entry of the ladder [0, 10, 100,
    1000, 5000] ms at index min(counter, 4), the counter being the
    incremented one; a fetched job is processed, the counter reset to 0 and
    the timer to 0. The counter is an [int64] that starts at 0 and grows by
    at most one a turn: the nil case is stated for a counter that the
    increment keeps in range, which is every counter the loop reaches in
    fewer than [2^63 - 1] turns. *)
Theorem loop_timer_policy `{!JobCodec} (w : worker) (ls : loopState)
    (order : list sampleItem) (fault : option error) (oc : outcome) (σ : world) :
  let turn := loopTurn w ls (TimerTick order fault oc) σ in
  let σf := exec (fetchJob w order fault) σ in
  (∀ err, fault = Some err ->
     turn = (Continue (mkLoopState (drained ls) (consequtiveNoJobs ls)
                                   (10 * Duration.Millisecond)),
             appendTrace [LogError "worker.fetch" (Error err)] σ))
  ∧ (∀ err, eval (fetchJob w order fault) σ = Fail err ->
       turn = (Continue (mkLoopState (drained ls) (consequtiveNoJobs ls)
                                     (10 * Duration.Millisecond)),
               appendTrace [LogError "worker.fetch" (Error err)] σf))
  ∧ (eval (fetchJob w order fault) σ = OK None ->
     0 <= consequtiveNoJobs ls < Int64.max_int ->
     ∃ ms,
       [0; 10; 100; 1000; 5000] !! Z.to_nat (Z.min (consequtiveNoJobs ls + 1) 4)
         = Some ms
       ∧ turn.1 = Continue (mkLoopState false (consequtiveNoJobs ls + 1)
                                        (ms * Duration.Millisecond)))
  ∧ (∀ job, eval (fetchJob w order fault) σ = OK (Some job) ->
       turn = (Continue (mkLoopState (drained ls) 0 0),
               exec (processJob w job oc) σf))
  ∧ (∀ evs ls' σ0, Z.of_nat (length evs) <= Int64.max_int ->
       (loop w evs σ0).1 = Continue ls' ->
       0 <= consequtiveNoJobs ls' <= Z.of_nat (length evs))
  ∧ (∀ evs ls' σ0, Z.of_nat (length evs) < Int64.max_int ->
       (loop w evs σ0).1 = Continue ls' ->
       eval (fetchJob w order fault) σ = OK None ->
       ∃ ms,
         [0; 10; 100; 1000; 5000] !! Z.to_nat (Z.min (consequtiveNoJobs ls' + 1) 4)
           = Some ms
         ∧ (loopTurn w ls' (TimerTick order fault oc) σ).1
           = Continue (mkLoopState false (consequtiveNoJobs ls' + 1)
                                   (ms * Duration.Millisecond))).
Proof.
  intros turn σf. subst turn σf. rewrite loopTurn_tick. split_and!.
  - intros err ->. reflexivity.
  - intros err ->. apply afterFetch_error.
  - intros -> Hc.
    destruct (afterFetch_nil w ls oc (exec (fetchJob w order fault) σ) Hc)
      as (ms & Hms & Heq).
    exists ms. split; [exact Hms|]. by rewrite Heq.
  - intros job ->. apply afterFetch_job.
  - intros evs ls' σ0 Hlen Hrun.
    apply (loopFrom_counter w evs loopStart ls' σ0); simpl; [lia|lia|exact Hrun].
  - intros evs ls' σ0 Hlen Hrun Hnil.
    assert (Hc : 0 <= consequtiveNoJobs ls' < Int64.max_int).
    { pose proof (loopFrom_counter w evs loopStart ls' σ0) as Hb.
      simpl in Hb. specialize (Hb ltac:(lia) ltac:(lia) Hrun). lia. }
    rewrite loopTurn_tick, Hnil.
    destruct (afterFetch_nil w ls' oc (exec (fetchJob w order fault) σ) Hc)
      as (ms & Hms & Heq).
    exists ms. split; [exact Hms|]. by rewrite Heq.
Qed.

Lemma loop_timer_policy_witness :
  (@loopTurn demoCodec demoWorker (mkLoopState false 2 0)
     (TimerTick (sampler demoWorker) None ClearReceived)
     (mkWorld emptyStore 1700000000 [] [])).1
  = Continue (mkLoopState false 3 (1000 * Duration.Millisecond))
  ∧ @loopTurn demoCodec demoWorker (mkLoopState false 2 0)
      (TimerTick (sampler demoWorker) (Some (errorString "EOF")) ClearReceived)
      (mkWorld emptyStore 1700000000 [] [])
    = (Continue (mkLoopState false 2 (10 * Duration.Millisecond)),
       appendTrace [LogError "worker.fetch" "EOF"]
                   (mkWorld emptyStore 1700000000 [] [])).
Proof.
  split.
  - pose proof (@loop_timer_policy demoCodec demoWorker (mkLoopState false 2 0)
                  (sampler demoWorker) None ClearReceived
                  (mkWorld emptyStore 1700000000 [] [])) as (_ & _ & Hnil & _).
    destruct (Hnil ltac:(vm_compute; reflexivity)
                   ltac:(vm_compute; split; [discriminate|reflexivity]))
      as (ms & Hms & Hturn).
    injection Hms as <-. exact Hturn.
  - pose proof (@loop_timer_policy demoCodec demoWorker (mkLoopState false 2 0)
                  (sampler demoWorker) (Some (errorString "EOF")) ClearReceived
                  (mkWorld emptyStore 1700000000 [] [])) as (Herr & _).
    apply (Herr (errorString "EOF")). reflexivity.
Defined.

(** ** Identity of reflected types *)

(** [rtype_eqb] decides equality of the terms, which is identity of the
    types. *)
Lemma rtype_eqb_eq : ∀ a b : rtype, rtype_eqb a b = true -> a = b.
Proof.
  fix IH 1. intros a b.
  assert (Hall : ∀ l1 l2 : list rtype,
             (fix all2 (l1 l2 : list rtype) {struct l1} : bool :=
                match l1, l2 with
                | [], [] => true
                | x :: r1, y :: r2 => rtype_eqb x y && all2 r1 r2
                | _, _ => false
                end) l1 l2 = true ->
             (∀ x, In x l1 -> ∀ y, rtype_eqb x y = true -> x = y) ->
             l1 = l2).
  { induction l1 as [|x r1 IHl]; intros [|y r2] Hb Hx; try discriminate; [done|].
    apply andb_true_iff in Hb as [Hxy Hr].
    f_equal; [by apply Hx; [left|]|].
    apply IHl; [exact Hr|]. intros z Hz. apply Hx. by right. }
  destruct a as [n1|n1 t1|m1|e1|i1 o1|n1 u1], b as [n2|n2 t2|m2|e2|i2 o2|n2 u2];
    cbn [rtype_eqb]; try discriminate.
  - intros Hb. apply String.eqb_eq in Hb. by subst.
  - intros Hb. apply andb_true_iff in Hb as [Hn Ht].
    apply bool_decide_eq_true in Hn. subst. f_equal.
    apply Hall; [exact Ht|].
    clear Ht. induction t1 as [|x t1 IHt]; intros z Hz; [destruct Hz|].
    destruct Hz as [<-|Hz]; [apply IH|by apply IHt].
  - intros Hb. apply bool_decide_eq_true in Hb. by subst.
  - intros Hb. f_equal. by apply IH.
  - intros Hb. apply andb_true_iff in Hb as [Hi Ho]. f_equal.
    + apply Hall; [exact Hi|].
      clear Hi. induction i1 as [|x i1 IHt]; intros z Hz; [destruct Hz|].
      destruct Hz as [<-|Hz]; [apply IH|by apply IHt].
    + apply Hall; [exact Ho|].
      clear Ho. induction o1 as [|x o1 IHt]; intros z Hz; [destruct Hz|].
      destruct Hz as [<-|Hz]; [apply IH|by apply IHt].
  - intros Hb. apply andb_true_iff in Hb as [Hn Hu].
    apply String.eqb_eq in Hn. subst. f_equal. by apply IH.
Qed.

Lemma rtype_eqb_refl : ∀ a : rtype, rtype_eqb a a = true.
Proof.
  fix IH 1. intros a.
  assert (Hall : ∀ l : list rtype,
             (∀ x, In x l -> rtype_eqb x x = true) ->
             (fix all2 (l1 l2 : list rtype) {struct l1} : bool :=
                match l1, l2 with
                | [], [] => true
                | x :: r1, y :: r2 => rtype_eqb x y && all2 r1 r2
                | _, _ => false
                end) l l = true).
  { induction l as [|x r IHl]; intros Hx; [done|].
    apply andb_true_iff. split; [apply Hx; by left|].
    apply IHl. intros z Hz. apply Hx. by right. }
  destruct a as [n|n t|m|e|i o|n u]; cbn [rtype_eqb].
  - apply String.eqb_refl.
  - apply andb_true_iff. split; [by apply bool_decide_eq_true|].
    apply Hall. induction t as [|x t IHt]; intros z Hz; [destruct Hz|].
    destruct Hz as [<-|Hz]; [apply IH|by apply IHt].
  - by apply bool_decide_eq_true.
  - apply IH.
  - apply andb_true_iff. split; apply Hall.
    + induction i as [|x i IHt]; intros z Hz; [destruct Hz|].
      destruct Hz as [<-|Hz]; [apply IH|by apply IHt].
    + induction o as [|x o IHt]; intros z Hz; [destruct Hz|].
      destruct Hz as [<-|Hz]; [apply IH|by apply IHt].
  - apply andb_true_iff. split; [apply String.eqb_refl|apply IH].
Qed.

(** ** Registration *)

Lemma validateHandlerType_invalid (ctxType : rtype) (fn : dynamic) :
  validHandler ctxType fn = false -> isPanic (validateHandlerType ctxType fn) = true.
Proof.
  unfold validHandler, validateHandlerType, isValidHandlerType.
  destruct fn as [t|]; simpl; [|reflexivity].
  intros ->. reflexivity.
Qed.

Lemma validateMiddlewareType_invalid (ctxType : rtype) (fn : dynamic) :
  validMiddleware ctxType fn = false ->
  isPanic (validateMiddlewareType ctxType fn) = true.
Proof.
  unfold validMiddleware, validateMiddlewareType, isValidMiddlewareType.
  destruct fn as [t|]; simpl; [|reflexivity].
  intros ->. reflexivity.
Qed.

Lemma funcToMiddlewareFrom_invalid (ctxType : rtype) (fns : list dynamic) :
  ∀ acc, existsb (λ fn, negb (validMiddleware ctxType fn)) fns = true ->
         isPanic (funcToMiddlewareFrom acc fns ctxType) = true.
Proof.
  induction fns as [|fn rest IH]; intros acc Hex; [discriminate|].
  cbn [existsb] in Hex. cbn [funcToMiddlewareFrom].
  destruct (validMiddleware ctxType fn) eqn:Hv.
  - simpl in Hex.
    destruct (validateMiddlewareType ctxType fn) as [[]|v]; [|reflexivity].
    unfold mbind at 1, panics_bind.
    destruct (valueType fn) as [vt|v]; [|reflexivity].
    unfold mbind, panics_bind. apply IH, Hex.
  - pose proof (validateMiddlewareType_invalid ctxType fn Hv) as Hp.
    destruct (validateMiddlewareType ctxType fn); [discriminate|reflexivity].
Qed.

Lemma applyDefaultsAndValidate_done (jobOpts jobOpts' : JobOptions) :
  applyDefaultsAndValidate jobOpts = Done jobOpts' ->
  Priority jobOpts' = (if Priority jobOpts =? 0 then 1 else Priority jobOpts)
  ∧ MaxFails jobOpts' = (if MaxFails jobOpts =? 0 then 4 else MaxFails jobOpts)
  ∧ Priority jobOpts' <= 100000
  ∧ SkipDead jobOpts' = SkipDead jobOpts
  ∧ MaxConcurrency jobOpts' = MaxConcurrency jobOpts
  ∧ Backoff jobOpts' = Backoff jobOpts
  ∧ StartingDeadline jobOpts' = StartingDeadline jobOpts
  ∧ RetryOnStart jobOpts' = RetryOnStart jobOpts
  ∧ Timeout jobOpts' = Timeout jobOpts.
Proof.
  unfold applyDefaultsAndValidate.
  destruct (Priority jobOpts =? 0) eqn:Hp; cbn [MaxFails Priority];
    destruct (MaxFails jobOpts =? 0) eqn:Hm; cbn [MaxFails Priority];
    try rewrite Hp; try rewrite Hm; cbn [MaxFails Priority].
  - intros [= <-]. simpl. split_and!; try reflexivity. lia.
  - intros [= <-]. simpl. split_and!; try reflexivity. lia.
  - destruct (100000 <? Priority jobOpts) eqn:Hbig; [discriminate|].
    intros [= <-]. simpl. apply Z.ltb_ge in Hbig. split_and!; try reflexivity. lia.
  - destruct (100000 <? Priority jobOpts) eqn:Hbig; [discriminate|].
    intros [= <-]. apply Z.ltb_ge in Hbig.
    split_and!; try reflexivity. lia.
Qed.

Lemma applyDefaultsAndValidate_panic (jobOpts : JobOptions) :
  100000 < Priority jobOpts ->
  applyDefaultsAndValidate jobOpts
  = Panic (PanicString "work: JobOptions.Priority must be between 1 and 100000").
Proof.
  intros Hbig. unfold applyDefaultsAndValidate.
  assert (Hp : (Priority jobOpts =? 0) = false) by (apply Z.eqb_neq; lia).
  rewrite Hp. apply Z.ltb_lt in Hbig.
  destruct (MaxFails jobOpts =? 0); cbn [Priority]; by rewrite Hbig.
Qed.

(** C9. At registration a priority of 0 becomes 1 and a maxFails of 0
    becomes 4, and this is what the registered job type holds. Registering a
    job with a priority above 100000, or with a handler, a middleware or a
    hook whose signature is not an accepted one, panics; so do [Middlewares]
    and [Hooks] on such a function, and [NewWorkerPool] on a context that
    is not of struct kind. *)
Theorem registration_defaults_and_panics (wp : WorkerPool) (name : string)
    (jobOpts : JobOptions) (fn : dynamic) (fns hks : list dynamic)
    (ctx : dynamic) (n : Z) (ns : string) (poolIsNil : bool) (ids : nat -> string) :
  let registered := JobWithOptionsAndMiddlewares wp name jobOpts fn fns hks in
  (∀ jobOpts', applyDefaultsAndValidate jobOpts = Done jobOpts' ->
     (Priority jobOpts = 0 -> Priority jobOpts' = 1)
     ∧ (MaxFails jobOpts = 0 -> MaxFails jobOpts' = 4))
  ∧ (Priority jobOpts = 0 -> isPanic (applyDefaultsAndValidate jobOpts) = false)
  ∧ (∀ wp', registered = Done wp' ->
       ∃ jt, wpJobTypes wp' !! name = Some jt
             ∧ jtName jt = name
             ∧ applyDefaultsAndValidate jobOpts = Done (jtOptions jt)
             ∧ (Priority jobOpts = 0 -> Priority (jtOptions jt) = 1)
             ∧ (MaxFails jobOpts = 0 -> MaxFails (jtOptions jt) = 4))
  ∧ (100000 < Priority jobOpts ->
       registered
       = Panic (PanicString "work: JobOptions.Priority must be between 1 and 100000"))
  ∧ (validHandler (wpContextType wp) fn = false -> isPanic registered = true)
  ∧ (existsb (λ f, negb (validMiddleware (wpContextType wp) f)) (fns ++ hks) = true ->
       isPanic registered = true)
  ∧ (existsb (λ f, negb (validMiddleware (wpContextType wp) f)) fns = true ->
       isPanic (Middlewares wp fns) = true ∧ isPanic (Hooks wp fns) = true)
  ∧ (match ctx with Some t => isStruct t = false | None => True end ->
       isPanic (NewWorkerPool ctx n ns poolIsNil ids) = true).
Proof.
  intros registered. split_and!.
  - intros jobOpts' Hdone.
    destruct (applyDefaultsAndValidate_done jobOpts jobOpts' Hdone) as (Hp & Hm & _).
    split; intros Hz; [rewrite Hp|rewrite Hm]; by rewrite Hz.
  - intros Hz. unfold applyDefaultsAndValidate. rewrite Hz. cbn [Z.eqb Priority MaxFails].
    by destruct (MaxFails jobOpts =? 0).
  - intros wp'. subst registered. unfold JobWithOptionsAndMiddlewares.
    destruct (applyDefaultsAndValidate jobOpts) as [jobOpts'|v] eqn:Hopts;
      [|discriminate].
    unfold mbind at 1, panics_bind.
    destruct (validateHandlerType (wpContextType wp) fn) as [[]|v]; [|discriminate].
    unfold mbind at 1, panics_bind.
    destruct (funcToMiddleware fns (wpContextType wp)) as [jm|v]; [|discriminate].
    unfold mbind at 1, panics_bind.
    destruct (funcToMiddleware hks (wpContextType wp)) as [hm|v]; [|discriminate].
    unfold mbind at 1, panics_bind.
    destruct (valueType fn) as [vfn|v]; [|discriminate].
    unfold mbind, panics_bind, mret, panics_ret. intros [= <-].
    cbn [wpJobTypes]. eexists. split; [apply lookup_insert_eq|].
    cbn [jtName jtOptions]. split_and!; try reflexivity.
    + intros Hz.
      destruct (applyDefaultsAndValidate_done jobOpts jobOpts' Hopts) as (Hp & _).
      by rewrite Hp, Hz.
    + intros Hz.
      destruct (applyDefaultsAndValidate_done jobOpts jobOpts' Hopts) as (_ & Hm & _).
      by rewrite Hm, Hz.
  - intros Hbig. subst registered. unfold JobWithOptionsAndMiddlewares.
    by rewrite (applyDefaultsAndValidate_panic jobOpts Hbig).
  - intros Hinv. subst registered. unfold JobWithOptionsAndMiddlewares.
    destruct (applyDefaultsAndValidate jobOpts) as [jobOpts'|v]; [|reflexivity].
    unfold mbind at 1, panics_bind.
    pose proof (validateHandlerType_invalid _ _ Hinv) as Hp.
    destruct (validateHandlerType (wpContextType wp) fn); [discriminate|reflexivity].
  - intros Hinv. subst registered. unfold JobWithOptionsAndMiddlewares.
    destruct (applyDefaultsAndValidate jobOpts) as [jobOpts'|v]; [|reflexivity].
    unfold mbind at 1, panics_bind.
    destruct (validateHandlerType (wpContextType wp) fn) as [[]|v]; [|reflexivity].
    unfold mbind at 1, panics_bind.
    rewrite existsb_app in Hinv. apply orb_true_iff in Hinv as [Hinv|Hinv].
    + pose proof (funcToMiddlewareFrom_invalid (wpContextType wp) fns None Hinv) as Hp.
      unfold funcToMiddleware.
      destruct (funcToMiddlewareFrom None fns (wpContextType wp));
        [discriminate|reflexivity].
    + destruct (funcToMiddleware fns (wpContextType wp)) as [jm|v]; [|reflexivity].
      unfold mbind at 1, panics_bind.
      pose proof (funcToMiddlewareFrom_invalid (wpContextType wp) hks None Hinv) as Hp.
      unfold funcToMiddleware.
      destruct (funcToMiddlewareFrom None hks (wpContextType wp));
        [discriminate|reflexivity].
  - intros Hinv.
    pose proof (funcToMiddlewareFrom_invalid (wpContextType wp) fns None Hinv) as Hp.
    unfold Middlewares, Hooks, funcToMiddleware.
    destruct (funcToMiddlewareFrom None fns (wpContextType wp));
      [discriminate|split; reflexivity].
  - intros Hctx. unfold NewWorkerPool.
    destruct poolIsNil; [reflexivity|].
    destruct ctx as [t|]; [|reflexivity].
    unfold validateContextType. rewrite Hctx. reflexivity.
Qed.

Lemma registration_defaults_and_panics_witness :
  (∃ wp' jt,
     registerJob barePool "email" (Some contextHandler) = Done wp'
     ∧ wpJobTypes wp' !! "email" = Some jt
     ∧ Priority (jtOptions jt) = 1
     ∧ MaxFails (jtOptions jt) = 4)
  ∧ isPanic (registerJob barePool "email" (Some notAHandler)) = true
  ∧ isPanic (NewWorkerPool (Some (TPtr demoContext)) 1 "work" false
                           (λ i, "id" +:+ pretty i)) = true
  ∧ isPanic (NewWorkerPool (Some demoContext) 1 "work" false
                           (λ i, "id" +:+ pretty i)) = false.
Proof.
  split_and!.
  - pose proof (registration_defaults_and_panics barePool "email" noOptions
                  (Some contextHandler) [] [] None 1 "work" false (λ _, "id"))
      as (_ & _ & Hreg & _).
    destruct (JobWithOptionsAndMiddlewares barePool "email" noOptions
                (Some contextHandler) [] []) as [wp'|v] eqn:Hdone.
    + destruct (Hreg wp' eq_refl) as (jt & Hjt & _ & _ & Hp & Hm).
      exists wp', jt. unfold registerJob. rewrite Hdone.
      split_and!; [reflexivity|exact Hjt|by apply Hp|by apply Hm].
    + vm_compute in Hdone. discriminate.
  - pose proof (registration_defaults_and_panics barePool "email" noOptions
                  (Some notAHandler) [] [] None 1 "work" false (λ _, "id"))
      as (_ & _ & _ & _ & Hbad & _).
    apply Hbad. vm_compute. reflexivity.
  - pose proof (registration_defaults_and_panics barePool "email" noOptions
                  (Some notAHandler) [] [] (Some (TPtr demoContext)) 1 "work" false
                  (λ i, "id" +:+ pretty i))
      as (_ & _ & _ & _ & _ & _ & _ & Hctx).
    apply Hctx. reflexivity.
  - vm_compute. reflexivity.
Defined.

(** ** The lock and the in-progress lists *)

Lemma countIn_fold_delete (ns name : string)
    (m : gmap (string * string * string) (list string))
    (k : string * string * string) (l : list string) :
  m !! k = Some l ->
  map_fold (λ k l acc, acc + countIn ns name k l) 0 m
  = map_fold (λ k l acc, acc + countIn ns name k l) 0 (delete k m)
    + countIn ns name k l.
Proof.
  intros Hk.
  rewrite (map_fold_delete_L (λ k l acc, acc + countIn ns name k l) 0 k l m);
    [reflexivity| |exact Hk].
  intros. lia.
Qed.

Lemma countIn_fold_insert (ns name : string)
    (m : gmap (string * string * string) (list string))
    (k : string * string * string) (l : list string) :
  m !! k = None ->
  map_fold (λ k l acc, acc + countIn ns name k l) 0 (<[k := l]> m)
  = map_fold (λ k l acc, acc + countIn ns name k l) 0 m + countIn ns name k l.
Proof.
  intros Hk.
  rewrite (map_fold_insert_L (λ k l acc, acc + countIn ns name k l) 0 k l m);
    [reflexivity| |exact Hk].
  intros. lia.
Qed.

Lemma countIn_nil (ns name : string) (k : string * string * string) :
  countIn ns name k [] = 0.
Proof. unfold countIn. by destruct (decide _). Qed.

Lemma countIn_fold_list_put (ns name : string)
    (m : gmap (string * string * string) (list string))
    (k : string * string * string) (l : list string) :
  map_fold (λ k l acc, acc + countIn ns name k l) 0 (list_put k l m)
  = map_fold (λ k l acc, acc + countIn ns name k l) 0 m
    - countIn ns name k (list_at m k) + countIn ns name k l.
Proof.
  assert (Hdel : map_fold (λ k l acc, acc + countIn ns name k l) 0 (delete k m)
                 = map_fold (λ k l acc, acc + countIn ns name k l) 0 m
                   - countIn ns name k (list_at m k)).
  { unfold list_at. destruct (m !! k) as [l0|] eqn:Hk.
    - rewrite (countIn_fold_delete ns name m k l0 Hk). simpl. lia.
    - rewrite delete_id by exact Hk. simpl. rewrite countIn_nil. lia. }
  unfold list_put. destruct l as [|x l].
  - rewrite Hdel, countIn_nil. lia.
  - rewrite <- insert_delete_eq.
    rewrite countIn_fold_insert by apply lookup_delete_eq.
    rewrite Hdel. reflexivity.
Qed.

Lemma inprogressCount_fresh (s : store) (ns name : string) :
  inprogress s = ∅ -> inprogressCount s ns name = 0.
Proof. unfold inprogressCount. intros ->. apply map_fold_empty. Qed.

Lemma lockCounts_fresh (s : store) :
  inprogress s = ∅ -> lock s = ∅ -> lockCounts s.
Proof.
  intros Hi Hl ns name. rewrite (inprogressCount_fresh s ns name Hi).
  unfold int_at. rewrite Hl. by rewrite lookup_empty.
Qed.

(** Removal of one occurrence from a list that has one. *)
Lemma lrem_head_one (v : string) (l : list string) :
  v ∈ l -> l ≡ₚ v :: lrem_head 1 v l.
Proof.
  induction l as [|x l IH]; intros Hin.
  - by apply elem_of_nil in Hin.
  - cbn [lrem_head]. destruct (decide (x = v)) as [->|Hne].
    + by destruct l.
    + apply elem_of_cons in Hin as [->|Hin]; [done|].
      rewrite (IH Hin) at 1. apply perm_swap.
Qed.

Lemma lrem_one (v : string) (l : list string) :
  v ∈ l -> l ≡ₚ v :: lrem 1 v l.
Proof. apply lrem_head_one. Qed.

Lemma rpop_snoc (l : list string) (x : string) (r : list string) :
  rpop l = Some (x, r) -> l = r ++ [x].
Proof.
  unfold rpop. destruct (rev l) as [|y t] eqn:Hrev; [discriminate|].
  intros [= <- <-]. rewrite <- (rev_involutive l), Hrev. reflexivity.
Qed.

Lemma redisLuaFetchJob_cases (keys : list sampleItem) (poolID : string) (s : store) :
  redisLuaFetchJob keys poolID s = (ReplyNil, s)
  ∨ ∃ it payload remaining,
      it ∈ keys
      ∧ rpop (list_at (pending s) (redisJobs it)) = Some (payload, remaining)
      ∧ redisLuaFetchJob keys poolID s
        = (ReplyValues payload (redisJobs it) (redisJobsInProg it),
           fetched it poolID payload remaining s).
Proof.
  induction keys as [|it rest IH]; [by left|].
  cbn [redisLuaFetchJob].
  assert (Hrest : redisLuaFetchJob rest poolID s = (ReplyNil, s)
                  ∨ ∃ it0 payload remaining,
                      it0 ∈ it :: rest
                      ∧ rpop (list_at (pending s) (redisJobs it0))
                        = Some (payload, remaining)
                      ∧ redisLuaFetchJob rest poolID s
                        = (ReplyValues payload (redisJobs it0) (redisJobsInProg it0),
                           fetched it0 poolID payload remaining s)).
  { destruct IH as [IH|(it0 & p & r & Hin & Hpop & Heq)]; [by left|].
    right. exists it0, p, r. split_and!; [by apply list_elem_of_further|done|done]. }
  destruct (isPaused s (redisJobsPaused it)); [exact Hrest|].
  destruct (negb (canRun s (redisJobsLock it) (redisJobsMaxConcurrency it)));
    [exact Hrest|].
  destruct (rpop (list_at (pending s) (redisJobs it))) as [[payload remaining]|] eqn:Hpop;
    [|exact Hrest].
  right. exists it, payload, remaining.
  split_and!; [by apply list_elem_of_here|exact Hpop|reflexivity].
Qed.

Section LockInvariant.
Context `{!JobCodec}.

Lemma heldAt_cons (k : string * string * string) (w : worker) (j : Job)
    (fl : inFlight) :
  heldAt k ((w, j) :: fl)
  = (if decide (inProgQueue j = k) then [rawJSON j] else []) ++ heldAt k fl.
Proof.
  unfold heldAt. rewrite filter_cons. simpl.
  destruct (decide (inProgQueue j = k)); reflexivity.
Qed.

Lemma heldAt_delete (k : string * string * string) (fl : inFlight) :
  ∀ (i : nat) (w : worker) (j : Job),
    fl !! i = Some (w, j) ->
    heldAt k fl
    ≡ₚ (if decide (inProgQueue j = k) then [rawJSON j] else [])
       ++ heldAt k (delete i fl).
Proof.
  induction fl as [|[w0 j0] fl IH]; intros i w j Hi; [discriminate|].
  destruct i as [|i].
  - injection Hi as -> ->. cbn [delete list_delete]. by rewrite heldAt_cons.
  - cbn [delete list_delete]. rewrite !heldAt_cons.
    rewrite (IH i w j Hi).
    rewrite !app_assoc. apply Permutation_app_tail, Permutation_app_comm.
Qed.

Lemma delete_absent {A} (l : list A) :
  ∀ i, l !! i = None -> delete i l = l.
Proof.
  induction l as [|x l IH]; intros [|i] Hi; try done.
  cbn [delete list_delete]. f_equal. by apply IH.
Qed.

Lemma runInv_untouched (σ σ' : world) (fl : inFlight) (i : nat) :
  runInv (σ, fl) -> untouched (redis σ) (redis σ') -> runInv (σ', delete i fl).
Proof.
  intros [Hlock Hheld Hqueue Hpend] (Hi & Hl & Hp). cbn [fst snd] in *.
  split; cbn [fst snd].
  - intros ns name. unfold inprogressCount. rewrite Hl, Hi. apply Hlock.
  - intros k. rewrite Hi. etrans; [|apply Hheld].
    destruct (fl !! i) as [[w j]|] eqn:Hfl.
    + rewrite (heldAt_delete k fl i w j Hfl). by apply submseteq_inserts_l.
    + by rewrite delete_absent.
  - by apply Forall_delete.
  - unfold pendingNamed. by rewrite Hp.
Qed.

Lemma runInv_released (σ σ' : world) (fl : inFlight) (i : nat)
    (w : worker) (j : Job) :
  runInv (σ, fl) -> fl !! i = Some (w, j) ->
  released w j (redis σ) (redis σ') ->
  runInv (σ', delete i fl).
Proof.
  intros [Hlock Hheld Hqueue Hpend] Hfl (Hi & Hl & Hp). cbn [fst snd] in *.
  assert (Hq : inProgQueue j
               = redisKeyJobsInProgress (namespace w) (poolID w) (Name j)).
  { rewrite Forall_forall in Hqueue.
    apply (Hqueue (w, j)). by eapply list_elem_of_lookup_2. }
  assert (Hin : rawJSON j ∈ list_at (inprogress (redis σ)) (inProgQueue j)).
  { eapply elem_of_submseteq; [|apply Hheld].
    rewrite (heldAt_delete (inProgQueue j) fl i w j Hfl).
    rewrite decide_True by done. apply list_elem_of_here. }
  pose proof (lrem_one _ _ Hin) as Hperm.
  rewrite release_inprogress in Hi. rewrite release_lock in Hl.
  split; cbn [fst snd].
  - intros ns name. unfold inprogressCount. rewrite Hl, Hi.
    rewrite countIn_fold_list_put.
    pose proof (Hlock ns name) as Hold. unfold inprogressCount in Hold.
    assert (Hc : ∀ l, countIn ns name (inProgQueue j) l
                      = if decide (namespace w = ns ∧ Name j = name)
                        then Z.of_nat (length l) else 0).
    { intros l. unfold countIn. rewrite Hq. reflexivity. }
    rewrite !Hc. unfold redisKeyJobsLock in *.
    apply Permutation_length in Hperm. cbn [length] in Hperm.
    destruct (decide (namespace w = ns ∧ Name j = name)) as [[<- <-]|Hne].
    + unfold int_at at 1. rewrite lookup_insert_eq. cbn [from_option id]. lia.
    + unfold int_at at 1. rewrite lookup_insert_ne.
      * fold (int_at (lock (redis σ)) (ns, name)). lia.
      * intros [= <- <-]. by apply Hne.
  - intros k. rewrite Hi. destruct (decide (inProgQueue j = k)) as [<-|Hne].
    + rewrite list_at_list_put.
      apply (submseteq_app_inv_l _ _ [rawJSON j]). cbn [app].
      rewrite <- Hperm. etrans; [|apply Hheld].
      rewrite (heldAt_delete (inProgQueue j) fl i w j Hfl).
      by rewrite decide_True by done.
    + rewrite list_at_list_put_ne by done. etrans; [|apply Hheld].
      rewrite (heldAt_delete k fl i w j Hfl). by apply submseteq_inserts_l.
  - by apply Forall_delete.
  - unfold pendingNamed. by rewrite Hp.
Qed.

Lemma released_same (w : worker) (j j' : Job) (s s' : store) :
  Name j' = Name j -> rawJSON j' = rawJSON j -> inProgQueue j' = inProgQueue j ->
  released w j' s s' -> released w j s s'.
Proof.
  intros Hn Hr Hq. unfold released, release. by rewrite Hn, Hr, Hq.
Qed.

Lemma removeJob_effect (w : worker) (j : Job) (σ : world) :
  released w j (redis σ) (redis (exec (removeJobFromInProgress w j) σ)).
Proof. split_and!; reflexivity. Qed.

Lemma addToRetry_effect (w : worker) (j : Job) (e : error) (σ : world) :
  released w j (redis σ) (redis (exec (addToRetry w j e) σ))
  ∨ untouched (redis σ) (redis (exec (addToRetry w j e) σ)).
Proof.
  destruct (serialize j) as [raw|err] eqn:Hser.
  - left. destruct (exec_addToRetry_ok w j e σ raw Hser)
      as (delay & σ1 & Hr & _ & _ & ->).
    rewrite exec_transaction. cbn [redis]. rewrite Hr.
    split_and!; reflexivity.
  - right. rewrite (exec_addToRetry_fail w j e err σ Hser).
    split_and!; reflexivity.
Qed.

Lemma addToDead_effect (w : worker) (j : Job) (e : error) (σ : world) :
  released w j (redis σ) (redis (exec (addToDead w j e) σ))
  ∨ untouched (redis σ) (redis (exec (addToDead w j e) σ)).
Proof.
  destruct (serialize j) as [raw|err] eqn:Hser.
  - left. rewrite (exec_addToDead_ok w j e σ raw Hser).
    split_and!; reflexivity.
  - right. rewrite (exec_addToDead_fail w j e err σ Hser).
    split_and!; reflexivity.
Qed.

Lemma addToRetryOrDead_effect (w : worker) (jt : jobType) (j : Job) (e : error)
    (σ : world) :
  released w j (redis σ) (redis (exec (addToRetryOrDead w jt j e) σ))
  ∨ untouched (redis σ) (redis (exec (addToRetryOrDead w jt j e) σ)).
Proof.
  unfold addToRetryOrDead.
  destruct ((0 <? failsRemaining jt j) && negb (isNoRetryError e)).
  - apply addToRetry_effect.
  - destruct (negb (SkipDead (jtOptions jt))).
    + apply addToDead_effect.
    + left. apply removeJob_effect.
Qed.

Lemma effect_deferred (w : worker) (j j' : Job) (s : store) (σ1 : world) :
  released w j s (redis σ1) ∨ untouched s (redis σ1) ->
  released w j s (redis (exec (deferred w j') σ1))
  ∨ untouched s (redis (exec (deferred w j') σ1)).
Proof.
  destruct (redis_deferred w j' σ1) as [u ->].
  intros [(Hi & Hl & Hp)|(Hi & Hl & Hp)]; [left|right]; by split_and!.
Qed.

Lemma processJob_effect (w : worker) (j : Job) (oc : outcome) (σ : world) :
  released w j (redis σ) (redis (exec (processJob w j oc) σ))
  ∨ untouched (redis σ) (redis (exec (processJob w j oc) σ)).
Proof.
  rewrite exec_processJob. apply effect_deferred.
  destruct (jobTypes w !! Name j) as [jt|] eqn:Hjt.
  - destruct (startingDeadlineMissed jt j) eqn:Hdl.
    + rewrite (processJobBody_dropped w jt j oc σ Hjt Hdl). left.
      apply removeJob_effect.
    + rewrite (processJobBody_registered w jt j oc σ Hjt Hdl).
      destruct oc as [|[e|] ctx|]; cbn [selected snd].
      * match goal with
        | |- context [exec (addToRetryOrDead w jt ?j2 ?e) ?σ1] =>
            destruct (addToRetryOrDead_effect w jt j2 e σ1) as [Hrel|Hun];
              [left; by apply (released_same w j j2)|by right]
        end.
      * match goal with
        | |- context [exec (addToRetryOrDead w jt ?j2 ?e) ?σ1] =>
            destruct (addToRetryOrDead_effect w jt j2 e σ1) as [Hrel|Hun];
              [left; by apply (released_same w j j2)|by right]
        end.
      * left. match goal with
        | |- context [exec (removeJobFromInProgress w ?j2) ?σ1] =>
            apply (released_same w j j2); [done..|apply (removeJob_effect w j2 σ1)]
        end.
      * left. match goal with
        | |- context [exec (removeJobFromInProgress w ?j2) ?σ1] =>
            apply (removeJob_effect w j2 σ1)
        end.
  - rewrite (processJobBody_stray w j oc σ Hjt). cbn [snd].
    match goal with
    | |- context [exec (addToDead w ?j2 ?e) ?σ1] =>
        destruct (addToDead_effect w j2 e σ1) as [Hrel|Hun];
          [left; by apply (released_same w j j2)|by right]
    end.
Qed.

Lemma sampleKeyed_keys (w : worker) (it : sampleItem) :
  sampleKeyed w it = true ->
  redisJobs it = (namespace w, (redisJobs it).2)
  ∧ redisJobsInProg it = (namespace w, poolID w, (redisJobs it).2)
  ∧ redisJobsLock it = (namespace w, (redisJobs it).2).
Proof.
  unfold sampleKeyed. rewrite !andb_true_iff, !bool_decide_eq_true.
  intros (((((H1 & H2) & _) & H4) & _) & _). by split_and!.
Qed.

Lemma pendingNamed_lookup (s : store) (k : string * string) (raw : string) (j : Job) :
  pendingNamed s -> raw ∈ list_at (pending s) k -> unmarshal raw = OK j ->
  Name j = k.2.
Proof.
  intros Hp Hin Hj. unfold list_at in Hin.
  destruct (pending s !! k) as [l|] eqn:Hk; [|by apply elem_of_nil in Hin].
  specialize (Hp k l Hk). cbn beta in Hp.
  rewrite forallb_forall in Hp. apply list_elem_of_In in Hin.
  specialize (Hp raw Hin). rewrite Hj in Hp. by apply bool_decide_eq_true in Hp.
Qed.

Lemma pendingNamed_pop (s s' : store) (k : string * string)
    (payload : string) (remaining : list string) :
  pendingNamed s ->
  list_at (pending s) k = remaining ++ [payload] ->
  pending s' = list_put k remaining (pending s) ->
  pendingNamed s'.
Proof.
  intros Hp Hl Hs'. unfold pendingNamed. rewrite Hs'. unfold list_put.
  destruct remaining as [|x r] eqn:Hrem.
  - by apply map_Forall_delete.
  - rewrite <- Hrem in *. apply map_Forall_insert_2; [|exact Hp].
    unfold list_at in Hl.
    destruct (pending s !! k) as [l|] eqn:Hk; [|by destruct remaining].
    specialize (Hp k l Hk). cbn beta in Hp. cbn [default from_option id] in Hl.
    rewrite Hl, forallb_app in Hp. by apply andb_true_iff in Hp as [Hp _].
Qed.

Lemma runInv_fetched (σ σ' : world) (fl : inFlight) (w : worker)
    (it : sampleItem) (payload : string) (remaining : list string) :
  runInv (σ, fl) ->
  sampleKeyed w it = true ->
  rpop (list_at (pending (redis σ)) (redisJobs it)) = Some (payload, remaining) ->
  redis σ' = fetched it (poolID w) payload remaining (redis σ) ->
  runInv (σ', fl)
  ∧ ∀ j, unmarshal payload = OK j ->
         runInv (σ', (w, mkJob (Name j) (ID j) (EnqueuedAt j) (Args j) (Unique j)
                              (Fails j) (LastErr j) (FailedAt j) (ScheduledAt j)
                              (Success j) payload (redisJobs it)
                              (redisJobsInProg it)) :: fl).
Proof.
  intros [Hlock Hheld Hqueue Hpend] Hkeyed Hpop Hσ'. cbn [fst snd] in *.
  destruct (sampleKeyed_keys w it Hkeyed) as (Hkj & Hkq & Hkl).
  apply rpop_snoc in Hpop.
  assert (Hi : inprogress (redis σ')
               = list_put (redisJobsInProg it)
                   (payload :: list_at (inprogress (redis σ)) (redisJobsInProg it))
                   (inprogress (redis σ))) by (by rewrite Hσ').
  assert (Hl : lock (redis σ')
               = <[redisJobsLock it := int_at (lock (redis σ)) (redisJobsLock it) + 1]>
                   (lock (redis σ))) by (by rewrite Hσ').
  assert (Hp : pending (redis σ')
               = list_put (redisJobs it) remaining (pending (redis σ)))
    by (by rewrite Hσ').
  assert (Hlock' : lockCounts (redis σ')).
  { intros ns name. unfold inprogressCount. rewrite Hl, Hi.
    rewrite countIn_fold_list_put.
    pose proof (Hlock ns name) as Hold. unfold inprogressCount in Hold.
    assert (Hc : ∀ l, countIn ns name (redisJobsInProg it) l
                      = if decide (namespace w = ns ∧ (redisJobs it).2 = name)
                        then Z.of_nat (length l) else 0).
    { intros l. unfold countIn. rewrite Hkq. reflexivity. }
    rewrite !Hc. rewrite Hkl. unfold redisKeyJobsLock in *. cbn [length].
    destruct (decide (namespace w = ns ∧ (redisJobs it).2 = name)) as [[<- <-]|Hne].
    - unfold int_at at 1. rewrite lookup_insert_eq. cbn [from_option id]. lia.
    - unfold int_at at 1. rewrite lookup_insert_ne.
      + fold (int_at (lock (redis σ)) (ns, name)). lia.
      + intros [= <- <-]. by apply Hne. }
  assert (Hheld' : ∀ k, heldAt k fl ⊆+ list_at (inprogress (redis σ')) k).
  { intros k. rewrite Hi.
    destruct (decide (redisJobsInProg it = k)) as [<-|Hne].
    - rewrite list_at_list_put. by apply submseteq_cons.
    - by rewrite list_at_list_put_ne. }
  assert (Hpend' : pendingNamed (redis σ')).
  { by apply (pendingNamed_pop (redis σ) (redis σ') (redisJobs it) payload remaining). }
  split; [by split|].
  intros j Hj. split; cbn [fst snd]; [exact Hlock'| |  |exact Hpend'].
  - intros k. rewrite heldAt_cons. cbn [inProgQueue rawJSON].
    destruct (decide (redisJobsInProg it = k)) as [<-|Hne].
    + rewrite Hi, list_at_list_put. cbn [app]. apply submseteq_skip, Hheld.
    + apply Hheld'.
  - apply Forall_cons. split; [|exact Hqueue].
    cbn [fst snd inProgQueue Name].
    assert (Hname : Name j = (redisJobs it).2).
    { apply (pendingNamed_lookup (redis σ) (redisJobs it) payload j Hpend); [|exact Hj].
      rewrite Hpop. apply elem_of_app. right. apply list_elem_of_here. }
    rewrite Hname. exact Hkq.
Qed.

Lemma runInv_redis (σ σ' : world) (fl : inFlight) :
  redis σ' = redis σ -> runInv (σ, fl) -> runInv (σ', fl).
Proof.
  intros Hr [Hlock Hheld Hqueue Hpend]. cbn [fst snd] in *.
  split; cbn [fst snd]; try rewrite Hr; done.
Qed.

Lemma runInv_runOp (st : world * inFlight) (o : op) :
  runInv st -> opOK o -> runInv (runOp st o).
Proof.
  destruct st as [σ fl]. intros Hinv Hok. destruct o as [w order fault|i|i e|i e|i oc].
  - destruct Hok as [Hperm Hkeyed]. cbn [runOp fst snd]. unfold fetchJob.
    destruct fault as [err|]; [exact Hinv|].
    destruct (redisLuaFetchJob_cases order (poolID w) (redis σ))
      as [->|(it & payload & remaining & Hin & Hpop & ->)].
    + apply (runInv_redis σ); [reflexivity|exact Hinv].
    + assert (Hk : sampleKeyed w it = true).
      { rewrite forallb_forall in Hkeyed. apply Hkeyed, list_elem_of_In.
        by rewrite <- Hperm. }
      destruct (runInv_fetched σ
                  (mkWorldWire (fetched it (poolID w) payload remaining (redis σ))
                               (clock σ) (entropy σ) (trace σ) (wire σ))
                  fl w it payload remaining Hinv Hk Hpop eq_refl) as [Hsame Hmore].
      unfold newJob. destruct (unmarshal payload) as [j|err] eqn:Hj.
      * by apply Hmore.
      * exact Hsame.
  - cbn [runOp]. unfold completeWith. cbn [fst snd].
    destruct (fl !! i) as [[w j]|] eqn:Hfl; [|exact Hinv].
    apply (runInv_released σ _ fl i w j Hinv Hfl), removeJob_effect.
  - cbn [runOp]. unfold completeWith. cbn [fst snd].
    destruct (fl !! i) as [[w j]|] eqn:Hfl; [|exact Hinv].
    destruct (addToRetry_effect w j e σ) as [Hrel|Hun].
    + by apply (runInv_released σ _ fl i w j).
    + by apply (runInv_untouched σ).
  - cbn [runOp]. unfold completeWith. cbn [fst snd].
    destruct (fl !! i) as [[w j]|] eqn:Hfl; [|exact Hinv].
    destruct (addToDead_effect w j e σ) as [Hrel|Hun].
    + by apply (runInv_released σ _ fl i w j).
    + by apply (runInv_untouched σ).
  - cbn [runOp]. unfold completeWith. cbn [fst snd].
    destruct (fl !! i) as [[w j]|] eqn:Hfl; [|exact Hinv].
    destruct (processJob_effect w j oc σ) as [Hrel|Hun].
    + by apply (runInv_released σ _ fl i w j).
    + by apply (runInv_untouched σ).
Qed.

Lemma runInv_run (ops : list op) :
  ∀ st, runInv st -> Forall opOK ops -> runInv (run ops st).
Proof.
  induction ops as [|o ops IH]; intros st Hinv Hok; [exact Hinv|].
  apply Forall_cons in Hok as [Ho Hok]. cbn [run foldl].
  apply IH; [|exact Hok]. by apply runInv_runOp.
Qed.

(** The samplers the code builds carry the keys of their worker. *)
Lemma updateMiddlewareAndJobTypes_keyed (w : worker)
    (mw hk : option (list middlewareHandler)) (jts : gmap string jobType) :
  forallb (sampleKeyed (updateMiddlewareAndJobTypes w mw hk jts))
          (sampler (updateMiddlewareAndJobTypes w mw hk jts)) = true.
Proof.
  apply forallb_forall. intros it Hin.
  cbn [updateMiddlewareAndJobTypes sampler] in Hin.
  apply list_elem_of_In, list_elem_of_fmap in Hin as ([n jt] & -> & _).
  unfold sampleKeyed. cbn.
  by rewrite !bool_decide_eq_true_2.
Qed.

End LockInvariant.

(** C1, as stated, fails: a payload that decodes to the name [sms] but
    waits in the pending list of [email] is fetched under the keys of
    [email] and released under the keys of [sms]. From a store where every
    lock counts its records, the fetch and the processing of that job leave
    the lock of [email] at 1 with no record in progress, and the lock of
    [sms] at -1. *)
Lemma misfiled_payload_breaks_the_lock_count :
  lockCounts (redis worldMisfiled)
  ∧ Forall opOK misfiledOps
  ∧ int_at (lock (redis (@run misfiledCodec misfiledOps (worldMisfiled, [])).1))
           (redisKeyJobsLock "work" "email")
    = 1
  ∧ inprogressCount (redis (@run misfiledCodec misfiledOps (worldMisfiled, [])).1)
                    "work" "email"
    = 0
  ∧ int_at (lock (redis (@run misfiledCodec misfiledOps (worldMisfiled, [])).1))
           (redisKeyJobsLock "work" "sms")
    = -1.
Proof.
  split_and!.
  - apply lockCounts_fresh; reflexivity.
  - unfold misfiledOps.
    apply List.Forall_cons; [split; [reflexivity|vm_compute; reflexivity]|].
    apply List.Forall_cons; [exact I|]. apply List.Forall_nil.
  - vm_compute. reflexivity.
  - vm_compute. reflexivity.
  - vm_compute. reflexivity.
Qed.

(** C1, amended. Each of the three completions sends exactly one
    transaction, one entry of the wire, that starts with the release
    commands: the removal of the record from the in-progress list, the
    decrement of the lock of the job's name and the decrement of the pool's
    field of the lock info ([addToRetry] and [addToDead] when the job
    serializes; otherwise they send nothing). These commands take one
    occurrence of the record out of the list and lower both counters by
    one. So after any run of fetches and completions from a store where the
    locks count the in-progress records, provided the pending payloads are
    filed under the names they decode to, the lock of every name is the
    number of records in the in-progress lists of that name over all
    pools; and the pending payloads are still filed under their names, so
    the proviso is one on what is enqueued, not on the workers. *)
Theorem completions_keep_the_lock_count `{!JobCodec} (ops : list op)
    (σ0 : world) (w : worker) (job : Job) (runErr : error) (σ : world) :
  lockCounts (redis σ0) ->
  pendingNamed (redis σ0) ->
  Forall opOK ops ->
  (redis (exec (removeJobFromInProgress w job) σ) = EXEC (release w job) (redis σ)
   ∧ wire (exec (removeJobFromInProgress w job) σ) = wire σ ++ [release w job])
  ∧ match serialize job with
    | OK raw =>
        (∃ score,
           redis (exec (addToRetry w job runErr) σ)
           = EXEC (release w job ++ [ZADD (redisKeyRetry (namespace w)) score raw])
                  (redis σ)
           ∧ wire (exec (addToRetry w job runErr) σ)
             = wire σ
               ++ [release w job ++ [ZADD (redisKeyRetry (namespace w)) score raw]])
        ∧ redis (exec (addToDead w job runErr) σ)
          = EXEC (release w job ++ [ZADD (redisKeyDead (namespace w)) (clock σ) raw])
                 (redis σ)
        ∧ wire (exec (addToDead w job runErr) σ)
          = wire σ
            ++ [release w job ++ [ZADD (redisKeyDead (namespace w)) (clock σ) raw]]
    | Fail _ =>
        redis (exec (addToRetry w job runErr) σ) = redis σ
        ∧ redis (exec (addToDead w job runErr) σ) = redis σ
        ∧ wire (exec (addToRetry w job runErr) σ) = wire σ
        ∧ wire (exec (addToDead w job runErr) σ) = wire σ
    end
  ∧ (∀ s,
       list_at (inprogress (EXEC (release w job) s)) (inProgQueue job)
       = lrem 1 (rawJSON job) (list_at (inprogress s) (inProgQueue job))
       ∧ int_at (lock (EXEC (release w job) s))
                (redisKeyJobsLock (namespace w) (Name job))
         = int_at (lock s) (redisKeyJobsLock (namespace w) (Name job)) - 1
       ∧ int_at (default ∅ (lock_info (EXEC (release w job) s)
                            !! redisKeyJobsLockInfo (namespace w) (Name job)))
                (poolID w)
         = int_at (default ∅ (lock_info s
                              !! redisKeyJobsLockInfo (namespace w) (Name job)))
                  (poolID w) - 1)
  ∧ (∀ ns name,
       int_at (lock (redis (run ops (σ0, [])).1)) (redisKeyJobsLock ns name)
       = inprogressCount (redis (run ops (σ0, [])).1) ns name)
  ∧ pendingNamed (redis (run ops (σ0, [])).1).
Proof.
  intros Hlock Hpend Hops.
  assert (Hinv : runInv (run ops (σ0, []))).
  { apply runInv_run; [|exact Hops]. split; cbn [fst snd].
    - exact Hlock.
    - intros k. apply submseteq_nil_l.
    - constructor.
    - exact Hpend. }
  split_and!.
  - reflexivity.
  - reflexivity.
  - destruct (serialize job) as [raw|err] eqn:Hser.
    + split_and!.
      * destruct (wire_addToRetry_ok w job runErr σ raw Hser) as (score & Hr & Hw).
        by exists score.
      * by rewrite (exec_addToDead_ok w job runErr σ raw Hser).
      * by rewrite (exec_addToDead_ok w job runErr σ raw Hser).
    + split_and!.
      * by rewrite (exec_addToRetry_fail w job runErr err σ Hser).
      * by rewrite (exec_addToDead_fail w job runErr err σ Hser).
      * by rewrite (exec_addToRetry_fail w job runErr err σ Hser).
      * by rewrite (exec_addToDead_fail w job runErr err σ Hser).
  - intros s. split_and!.
    + rewrite release_inprogress. apply list_at_list_put.
    + rewrite release_lock. unfold int_at at 1. by rewrite lookup_insert_eq.
    + apply release_lock_info.
  - apply (inv_lock _ Hinv).
  - apply (inv_pending _ Hinv).
Qed.

Lemma completions_keep_the_lock_count_witness :
  int_at (lock (redis (@run demoCodec demoOps (worldPending, [])).1))
         (redisKeyJobsLock "work" "email")
  = inprogressCount (redis (@run demoCodec demoOps (worldPending, [])).1)
                    "work" "email"
  ∧ inprogressCount (redis (@run demoCodec demoOps (worldPending, [])).1)
                    "work" "email" = 1.
Proof.
  split.
  - apply (@completions_keep_the_lock_count demoCodec demoOps worldPending
             demoWorker (demoJob "email" "a" 0 false) (errorString "boom")
             worldPending).
    + apply lockCounts_fresh; reflexivity.
    + unfold pendingNamed. refine (bool_decide_unpack _ _). vm_compute. exact I.
    + unfold demoOps.
      apply List.Forall_cons; [split; [reflexivity|vm_compute; reflexivity]|].
      apply List.Forall_cons; [split; [reflexivity|vm_compute; reflexivity]|].
      apply List.Forall_cons; [exact I|]. apply List.Forall_nil.
  - vm_compute. reflexivity.
Defined.

(** * Further properties of the code *)

(** ** What [processJob] does to the store *)

Section Settling.
Context `{!JobCodec}.

Lemma settled_same (w : worker) (j j' : Job) (σ σ1 : world) (s' : store) :
  Name j' = Name j -> rawJSON j' = rawJSON j -> inProgQueue j' = inProgQueue j ->
  redis σ1 = redis σ -> clock σ1 = clock σ ->
  settled w j' σ1 s' -> settled w j σ s'.
Proof.
  intros Hn Hr Hq Hs Hc. unfold settled, release. rewrite Hn, Hr, Hq, Hs, Hc.
  intros [H1|[H2|[H3|(H4 & j0 & err & Hn0 & Hr0 & Hf)]]]; [by left|by right; left|
    by right; right; left|].
  right; right; right. split; [done|]. exists j0, err. by split_and!.
Qed.

Lemma removeJob_settles (w : worker) (j : Job) (σ : world) :
  settled w j σ (redis (exec (removeJobFromInProgress w j) σ)).
Proof. by left. Qed.

Lemma addToRetry_settles (w : worker) (j : Job) (e : error) (σ : world) :
  settled w j σ (redis (exec (addToRetry w j e) σ)).
Proof.
  destruct (serialize j) as [raw|err] eqn:Hser.
  - right; left.
    destruct (exec_addToRetry_ok w j e σ raw Hser) as (delay & σ1 & Hr & _ & _ & ->).
    exists (Int64.add (clock σ) delay), raw.
    rewrite exec_transaction. cbn [redis]. by rewrite Hr.
  - right; right; right. rewrite (exec_addToRetry_fail w j e err σ Hser).
    split; [reflexivity|]. by exists j, err.
Qed.

Lemma addToDead_settles (w : worker) (j : Job) (e : error) (σ : world) :
  settled w j σ (redis (exec (addToDead w j e) σ)).
Proof.
  destruct (serialize j) as [raw|err] eqn:Hser.
  - right; right; left. exists raw.
    by rewrite (exec_addToDead_ok w j e σ raw Hser).
  - right; right; right. rewrite (exec_addToDead_fail w j e err σ Hser).
    split; [reflexivity|]. by exists j, err.
Qed.

Lemma addToRetryOrDead_settles (w : worker) (jt : jobType) (j : Job) (e : error)
    (σ : world) :
  settled w j σ (redis (exec (addToRetryOrDead w jt j e) σ)).
Proof.
  unfold addToRetryOrDead.
  destruct ((0 <? failsRemaining jt j) && negb (isNoRetryError e)).
  - apply addToRetry_settles.
  - destruct (negb (SkipDead (jtOptions jt))).
    + apply addToDead_settles.
    + apply removeJob_settles.
Qed.

Lemma processJobBody_settles (w : worker) (j : Job) (oc : outcome) (σ : world) :
  settled w j σ (redis (processJobBody w j oc σ).2).
Proof.
  destruct (jobTypes w !! Name j) as [jt|] eqn:Hjt.
  - destruct (startingDeadlineMissed jt j) eqn:Hdl.
    + rewrite (processJobBody_dropped w jt j oc σ Hjt Hdl). apply removeJob_settles.
    + rewrite (processJobBody_registered w jt j oc σ Hjt Hdl).
      destruct oc as [|[e|] ctx|]; cbn [selected snd].
      * match goal with
        | |- context [exec (addToRetryOrDead w jt ?j2 ?e) ?σ1] =>
            apply (settled_same w j j2 σ σ1); [done..|];
            apply addToRetryOrDead_settles
        end.
      * match goal with
        | |- context [exec (addToRetryOrDead w jt ?j2 ?e) ?σ1] =>
            apply (settled_same w j j2 σ σ1); [done..|];
            apply addToRetryOrDead_settles
        end.
      * match goal with
        | |- context [exec (removeJobFromInProgress w ?j2) ?σ1] =>
            apply (settled_same w j j2 σ σ1); [done..|];
            apply removeJob_settles
        end.
      * match goal with
        | |- context [exec (removeJobFromInProgress w ?j2) ?σ1] =>
            apply (settled_same w j j2 σ σ1); [done..|];
            apply removeJob_settles
        end.
  - rewrite (processJobBody_stray w j oc σ Hjt). cbn [snd].
    match goal with
    | |- context [exec (addToDead w ?j2 ?e) ?σ1] =>
        apply (settled_same w j j2 σ σ1); [done..|];
        apply addToDead_settles
    end.
Qed.

End Settling.

Lemma list_put_lookup_ne `{Countable K} (k k' : K) (l : list string)
    (m : gmap K (list string)) :
  k ≠ k' -> list_put k l m !! k' = m !! k'.
Proof.
  intros Hne. unfold list_put. destruct l.
  - by rewrite lookup_delete_ne.
  - by rewrite lookup_insert_ne.
Qed.

(** A settled store differs from the one before in the job's own list and
    lock, in the lock info of its name, and in the retry or dead set. *)
Lemma settled_frame `{!JobCodec} (w : worker) (job : Job) (σ : world) (s1 : store) :
  settled w job σ s1 ->
  pending s1 = pending (redis σ)
  ∧ paused s1 = paused (redis σ)
  ∧ max_concurrency s1 = max_concurrency (redis σ)
  ∧ unique s1 = unique (redis σ)
  ∧ (∀ k, k ≠ inProgQueue job -> inprogress s1 !! k = inprogress (redis σ) !! k)
  ∧ (∀ k, k ≠ redisKeyJobsLock (namespace w) (Name job) ->
          lock s1 !! k = lock (redis σ) !! k)
  ∧ (∀ k, k ≠ redisKeyJobsLockInfo (namespace w) (Name job) ->
          lock_info s1 !! k = lock_info (redis σ) !! k).
Proof.
  assert (Hrel : ∀ tail,
             (tail = [] ∨ (∃ zk score raw, tail = [ZADD zk score raw])) ->
             let s := EXEC (release w job ++ tail) (redis σ) in
             pending s = pending (redis σ)
             ∧ paused s = paused (redis σ)
             ∧ max_concurrency s = max_concurrency (redis σ)
             ∧ unique s = unique (redis σ)
             ∧ (∀ k, k ≠ inProgQueue job -> inprogress s !! k = inprogress (redis σ) !! k)
             ∧ (∀ k, k ≠ redisKeyJobsLock (namespace w) (Name job) ->
                     lock s !! k = lock (redis σ) !! k)
             ∧ (∀ k, k ≠ redisKeyJobsLockInfo (namespace w) (Name job) ->
                     lock_info s !! k = lock_info (redis σ) !! k)).
  { intros tail Htail s.
    assert (Hs : pending s = pending (redis σ)
                 ∧ paused s = paused (redis σ)
                 ∧ max_concurrency s = max_concurrency (redis σ)
                 ∧ unique s = unique (redis σ)
                 ∧ inprogress s = inprogress (EXEC (release w job) (redis σ))
                 ∧ lock s = lock (EXEC (release w job) (redis σ))
                 ∧ lock_info s = lock_info (EXEC (release w job) (redis σ))).
    { subst s. destruct Htail as [->|(zk & score & raw & ->)].
      - rewrite app_nil_r. by split_and!.
      - rewrite EXEC_app. destruct zk; by split_and!. }
    destruct Hs as (Hp & Hpa & Hm & Hu & Hi & Hl & Hli).
    split_and!; [done..| | |].
    - intros k Hk. rewrite Hi, release_inprogress. by apply list_put_lookup_ne.
    - intros k Hk. rewrite Hl, release_lock. by apply lookup_insert_ne.
    - intros k Hk. rewrite Hli. unfold release, EXEC. cbn.
      by apply lookup_insert_ne. }
  intros [->|[(score & raw & ->)|[(raw & ->)|(-> & _)]]].
  - rewrite <- (app_nil_r (release w job)). apply Hrel. by left.
  - apply Hrel. right. by eexists _, _, _.
  - apply Hrel. right. by eexists _, _, _.
  - by split_and!.
Qed.

(** X1. Whatever the [select] meets and whether the job type is known,
    [processJob] leaves the store settled for the job: the release commands
    ran once, alone or with the entry in the retry set or in the dead set,
    or nothing ran because the job did not serialize; after that only the
    unique marker of a job that carries one is deleted. So it never changes
    a pending list, a pause flag, a concurrency cap, the in-progress list or
    the lock of another key, or the unique marker of another job. *)
Theorem processJob_settles_the_job `{!JobCodec} (w : worker) (job : Job)
    (oc : outcome) (σ : world) :
  let σ' := exec (processJob w job oc) σ in
  let key := (redisKeyUniqueJob (namespace w) (Name job) (Args job)).1 in
  ∃ s1,
    settled w job σ s1
    ∧ redis σ' = (if Unique job then with_unique (delete key (unique s1)) s1 else s1)
    ∧ pending (redis σ') = pending (redis σ)
    ∧ paused (redis σ') = paused (redis σ)
    ∧ max_concurrency (redis σ') = max_concurrency (redis σ)
    ∧ (∀ k, k ≠ inProgQueue job ->
            inprogress (redis σ') !! k = inprogress (redis σ) !! k)
    ∧ (∀ k, k ≠ redisKeyJobsLock (namespace w) (Name job) ->
            lock (redis σ') !! k = lock (redis σ) !! k)
    ∧ unique (redis σ')
      = (if Unique job then delete key (unique (redis σ)) else unique (redis σ)).
Proof.
  intros σ' key. exists (redis (processJobBody w job oc σ).2).
  pose proof (processJobBody_settles w job oc σ) as Hset.
  pose proof (settled_frame w job σ _ Hset) as (Hp & Hpa & Hm & Hu & Hi & Hl & _).
  pose proof (processJobBody_keeps w job oc σ) as (Hn & Ha & Hq & _ & _).
  assert (Hσ' : redis σ'
                = if Unique job
                  then with_unique
                         (delete key (unique (redis (processJobBody w job oc σ).2)))
                         (redis (processJobBody w job oc σ).2)
                  else redis (processJobBody w job oc σ).2).
  { subst σ'. rewrite exec_processJob. unfold deferred. rewrite Hq.
    destruct (Unique job); [|reflexivity].
    rewrite redis_deleteUniqueJob. subst key. by rewrite Hn, Ha. }
  split; [exact Hset|]. split; [exact Hσ'|].
  rewrite Hσ'. destruct (Unique job); split_and!; try done.
  cbn [unique with_unique]. by rewrite Hu.
Qed.

(** ** What [processJob] emits *)

Section Traces.
Context `{!JobCodec}.

Lemma addToRetry_trace (w : worker) (j : Job) (e : error) (σ : world) :
  ∃ logs, onlyLogs logs ∧ trace (exec (addToRetry w j e) σ) = trace σ ++ logs.
Proof.
  destruct (serialize j) as [raw|err] eqn:Hser.
  - destruct (exec_addToRetry_ok w j e σ raw Hser) as (delay & σ1 & _ & _ & Ht & ->).
    exists []. split; [constructor|]. rewrite exec_transaction. cbn [trace].
    by rewrite Ht, app_nil_r.
  - rewrite (exec_addToRetry_fail w j e err σ Hser).
    eexists. split; [|reflexivity]. by repeat constructor.
Qed.

Lemma addToDead_trace (w : worker) (j : Job) (e : error) (σ : world) :
  ∃ logs, onlyLogs logs ∧ trace (exec (addToDead w j e) σ) = trace σ ++ logs.
Proof.
  destruct (serialize j) as [raw|err] eqn:Hser.
  - rewrite (exec_addToDead_ok w j e σ raw Hser).
    exists []. split; [constructor|]. rewrite exec_transaction. cbn [trace].
    by rewrite app_nil_r.
  - rewrite (exec_addToDead_fail w j e err σ Hser).
    eexists. split; [|reflexivity]. by repeat constructor.
Qed.

Lemma removeJob_trace (w : worker) (j : Job) (σ : world) :
  ∃ logs, onlyLogs logs
          ∧ trace (exec (removeJobFromInProgress w j) σ) = trace σ ++ logs.
Proof. exists []. split; [constructor|]. cbn. by rewrite app_nil_r. Qed.

Lemma addToRetryOrDead_trace (w : worker) (jt : jobType) (j : Job) (e : error)
    (σ : world) :
  ∃ logs, onlyLogs logs
          ∧ trace (exec (addToRetryOrDead w jt j e) σ) = trace σ ++ logs.
Proof.
  unfold addToRetryOrDead.
  destruct ((0 <? failsRemaining jt j) && negb (isNoRetryError e)).
  - apply addToRetry_trace.
  - destruct (negb (SkipDead (jtOptions jt))).
    + apply addToDead_trace.
    + apply removeJob_trace.
Qed.

Lemma deferred_trace (w : worker) (j : Job) (σ : world) :
  ∃ logs, onlyLogs logs ∧ trace (exec (deferred w j) σ) = trace σ ++ logs.
Proof.
  rewrite trace_deferred. eexists. split; [|reflexivity].
  unfold onlyLogs, uniqueKeyLog. destruct (Unique j); [|constructor].
  destruct (redisKeyUniqueJob _ _ _).2; by repeat constructor.
Qed.

(** The events of a run of a registered job whose deadline is not missed:
    those up to the end of the [select], then lines of the error log. *)
Lemma processJob_trace_registered (w : worker) (jt : jobType) (job : Job)
    (oc : outcome) (σ : world) :
  jobTypes w !! Name job = Some jt ->
  startingDeadlineMissed jt job = false ->
  ∃ logs,
    onlyLogs logs
    ∧ trace (exec (processJob w job oc) σ)
      = trace σ
        ++ [ObserveStarted (Name job) (ID job) (Args job);
            RunJob job (middleware w ++ jtMiddleware jt) (jtName jt);
            After (effectiveTimeout jt)]
        ++ (selected job (hook w ++ jtHook jt) oc).2
        ++ [ObserveDone (Name job) (ID job)
              (selected job (hook w ++ jtHook jt) oc).1.1]
        ++ logs.
Proof.
  intros Hjt Hdl. rewrite exec_processJob.
  rewrite (processJobBody_registered w jt job oc σ Hjt Hdl).
  destruct (selected job (hook w ++ jtHook jt) oc) as [[runErr job1] evs] eqn:Hsel.
  cbn [fst snd].
  destruct runErr as [e|]; cbn [fst snd].
  - match goal with
    | |- context [exec (deferred w ?j2) (exec (addToRetryOrDead w jt ?j2 ?e) ?σ1)] =>
        destruct (deferred_trace w j2 (exec (addToRetryOrDead w jt j2 e) σ1))
          as (l2 & Hl2 & ->);
        destruct (addToRetryOrDead_trace w jt j2 e σ1) as (l1 & Hl1 & ->)
    end.
    exists (l1 ++ l2). split; [by apply Forall_app|].
    cbn [appendTrace trace]. by rewrite <- !app_assoc.
  - match goal with
    | |- context [exec (deferred w ?j2) (exec (removeJobFromInProgress w ?j2) ?σ1)] =>
        destruct (deferred_trace w j2 (exec (removeJobFromInProgress w j2) σ1))
          as (l2 & Hl2 & ->)
    end.
    exists l2. split; [done|].
    cbn [appendTrace trace exec removeJobFromInProgress transaction snd].
    by rewrite <- !app_assoc.
Qed.

End Traces.

(** X2. For a registered job whose deadline is not missed, [processJob]
    observes the start once and the end once, starts the handler once with
    the pool's middleware followed by the job type's, and runs the hooks
    exactly when the handler returned: once, after the handler and before
    the end is observed, with the pool's hooks followed by the job type's
    and the success flag set to whether the handler returned no error. When
    the timer fires or the clear signal arrives no hook runs. Whatever
    follows the observation of the end is lines of the error log. *)
Theorem hooks_run_when_the_handler_returned `{!JobCodec} (w : worker)
    (jt : jobType) (job : Job) (oc : outcome) (σ : world) :
  jobTypes w !! Name job = Some jt ->
  startingDeadlineMissed jt job = false ->
  ∃ logs,
    onlyLogs logs
    ∧ trace (exec (processJob w job oc) σ)
      = trace σ
        ++ [ObserveStarted (Name job) (ID job) (Args job);
            RunJob job (middleware w ++ jtMiddleware jt) (jtName jt);
            After (effectiveTimeout jt)]
        ++ match oc with
           | HandlerReturned runErr ctx =>
               [RunHook (setSuccess (bool_decide (runErr = None)) job) ctx
                        (hook w ++ jtHook jt);
                ObserveDone (Name job) (ID job) runErr]
           | TimerFired =>
               [Printf ("Job " +:+ Name job +:+ " Timeout");
                ObserveDone (Name job) (ID job)
                            (Some (errorString "Run Job Timeout"))]
           | ClearReceived =>
               [DoneClearing; ObserveDone (Name job) (ID job) None]
           end
        ++ logs.
Proof.
  intros Hjt Hdl.
  destruct (processJob_trace_registered w jt job oc σ Hjt Hdl) as (logs & Hlogs & ->).
  exists logs. split; [exact Hlogs|].
  destruct oc as [|[e|] ctx|]; reflexivity.
Qed.

Lemma hooks_run_when_the_handler_returned_witness :
  trace (exec (@processJob demoCodec demoWorker (demoJob "email" "a" 0 true)
                 (HandlerReturned None "ctx")) worldInFlight)
  = [ObserveStarted "email" "a" [];
     RunJob (demoJob "email" "a" 0 true) [] "email";
     After timeoutSentinel;
     RunHook (setSuccess true (demoJob "email" "a" 0 true)) "ctx" [];
     ObserveDone "email" "a" None]
  ∧ jobTypes demoWorker !! "email" = Some emailType.
Proof.
  split; [|vm_compute; reflexivity].
  destruct (@hooks_run_when_the_handler_returned demoCodec demoWorker emailType
              (demoJob "email" "a" 0 true) (HandlerReturned None "ctx") worldInFlight
              ltac:(vm_compute; reflexivity) ltac:(vm_compute; reflexivity))
    as (logs & _ & Htrace).
  vm_compute. reflexivity.
Defined.

(** ** Errors of the handler and the count of fails *)

Section Failing.
Context `{!JobCodec}.

Lemma retry_after_retry (w : worker) (j : Job) (score : Z) (raw : string) (s : store) :
  retry (EXEC (release w j ++ [ZADD (redisKeyRetry (namespace w)) score raw]) s)
  = zadd score raw (namespace w) (retry s)
  ∧ dead (EXEC (release w j ++ [ZADD (redisKeyRetry (namespace w)) score raw]) s)
    = dead s.
Proof. split; reflexivity. Qed.

Lemma dead_after_dead (w : worker) (j : Job) (score : Z) (raw : string) (s : store) :
  dead (EXEC (release w j ++ [ZADD (redisKeyDead (namespace w)) score raw]) s)
  = zadd score raw (namespace w) (dead s)
  ∧ retry (EXEC (release w j ++ [ZADD (redisKeyDead (namespace w)) score raw]) s)
    = retry s.
Proof. split; reflexivity. Qed.

Lemma deferred_sets (w : worker) (j : Job) (σ : world) :
  retry (redis (exec (deferred w j) σ)) = retry (redis σ)
  ∧ dead (redis (exec (deferred w j) σ)) = dead (redis σ).
Proof. destruct (redis_deferred w j σ) as [u ->]. split; reflexivity. Qed.

(** What a run whose handler returned an error does to the two sorted
    sets, by the branch of [addToRetryOrDead]. *)
Lemma handler_error_sets (w : worker) (jt : jobType) (job : Job) (e : error)
    (ctx : string) (σ : world) (raw : string) :
  jobTypes w !! Name job = Some jt ->
  startingDeadlineMissed jt job = false ->
  let job' := failed (clock σ) e (setSuccess false job) in
  let σ' := exec (processJob w job (HandlerReturned (Some e) ctx)) σ in
  serialize job' = OK raw ->
  if (0 <? failsRemaining jt job') && negb (isNoRetryError e)
  then (∃ score, zscore (retry (redis σ')) (namespace w) raw = Some score)
       ∧ dead (redis σ') = dead (redis σ)
  else if negb (SkipDead (jtOptions jt))
  then zscore (dead (redis σ')) (namespace w) raw = Some (clock σ)
       ∧ retry (redis σ') = retry (redis σ)
  else retry (redis σ') = retry (redis σ) ∧ dead (redis σ') = dead (redis σ).
Proof.
  intros Hjt Hdl job' σ' Hser. subst σ'.
  rewrite exec_processJob.
  rewrite (processJobBody_registered w jt job _ σ Hjt Hdl).
  cbn [selected fst snd]. fold job'.
  match goal with
  | |- context [exec (addToRetryOrDead w jt job' e) ?σ1] => set (σ1' := σ1)
  end.
  destruct (deferred_sets w job' (exec (addToRetryOrDead w jt job' e) σ1'))
    as [-> ->].
  unfold addToRetryOrDead.
  destruct ((0 <? failsRemaining jt job') && negb (isNoRetryError e)).
  - destruct (exec_addToRetry_ok w job' e σ1' raw Hser)
      as (delay & σ2 & Hr & _ & _ & ->).
    rewrite exec_transaction. cbn [redis]. rewrite Hr.
    destruct (retry_after_retry w job' (Int64.add (clock σ1') delay) raw (redis σ1'))
      as [-> ->].
    split; [|reflexivity]. eexists. apply zscore_zadd.
  - destruct (negb (SkipDead (jtOptions jt))).
    + rewrite (exec_addToDead_ok w job' e σ1' raw Hser).
      rewrite exec_transaction. cbn [redis].
      destruct (dead_after_dead w job' (clock σ1') raw (redis σ1')) as [-> ->].
      split; [|reflexivity]. apply zscore_zadd.
    + split; reflexivity.
Qed.

End Failing.

(** X3. The count of fails is bumped before the remaining fails are
    computed, so a job type with [MaxFails = n] lets a job fail [n] times
    in all: when the handler returns an error that is not a no-retry error,
    the job goes to the retry set if its count of fails before this run is
    below [MaxFails - 1], and otherwise to the dead set stamped with the
    clock (or nowhere, under [SkipDead]). With [MaxFails = 1] the first
    error is the last. The counts are taken in the range of an [int64] and
    the failed job is taken to serialize. *)
Theorem a_job_fails_at_most_MaxFails_times `{!JobCodec} (w : worker)
    (jt : jobType) (job : Job) (e : error) (ctx : string) (σ : world)
    (raw : string) :
  jobTypes w !! Name job = Some jt ->
  startingDeadlineMissed jt job = false ->
  isNoRetryError e = false ->
  0 <= MaxFails (jtOptions jt) <= Int64.max_int ->
  0 <= Fails job < Int64.max_int ->
  serialize (failed (clock σ) e (setSuccess false job)) = OK raw ->
  let σ' := exec (processJob w job (HandlerReturned (Some e) ctx)) σ in
  (Fails job + 1 < MaxFails (jtOptions jt) ->
     (∃ score, zscore (retry (redis σ')) (namespace w) raw = Some score)
     ∧ dead (redis σ') = dead (redis σ))
  ∧ (MaxFails (jtOptions jt) <= Fails job + 1 -> SkipDead (jtOptions jt) = false ->
     zscore (dead (redis σ')) (namespace w) raw = Some (clock σ)
     ∧ retry (redis σ') = retry (redis σ))
  ∧ (MaxFails (jtOptions jt) <= Fails job + 1 -> SkipDead (jtOptions jt) = true ->
     retry (redis σ') = retry (redis σ) ∧ dead (redis σ') = dead (redis σ)).
Proof.
  intros Hjt Hdl Hnr Hm Hf Hser σ'.
  pose proof (handler_error_sets w jt job e ctx σ raw Hjt Hdl Hser) as Hsets.
  cbv zeta in Hsets. fold σ' in Hsets.
  assert (Hfails : Fails (failed (clock σ) e (setSuccess false job)) = Fails job + 1).
  { cbn [failed setSuccess Fails]. unfold Int64.add. apply Int64_wrap_small.
    unfold Int64.in_range, Int64.min_int, Int64.max_int in *. lia. }
  rewrite failsRemaining_exact in Hsets
    by (rewrite ?Hfails; unfold Int64.max_int in *; lia).
  rewrite Hfails, Hnr in Hsets. cbn [negb] in Hsets. rewrite andb_true_r in Hsets.
  split_and!.
  - intros Hlt.
    destruct (Z.ltb_spec 0 (MaxFails (jtOptions jt) - (Fails job + 1))) as [_|Hle];
      [exact Hsets|lia].
  - intros Hge Hsd.
    destruct (Z.ltb_spec 0 (MaxFails (jtOptions jt) - (Fails job + 1))) as [Hlt|_];
      [lia|]. rewrite Hsd in Hsets. exact Hsets.
  - intros Hge Hsd.
    destruct (Z.ltb_spec 0 (MaxFails (jtOptions jt) - (Fails job + 1))) as [Hlt|_];
      [lia|]. rewrite Hsd in Hsets. exact Hsets.
Qed.

Lemma a_job_fails_at_most_MaxFails_times_witness :
  zscore (dead (redis (exec (@processJob demoCodec demoWorker
                               (demoJob "email" "a" 2 true)
                               (HandlerReturned (Some (errorString "boom")) "ctx"))
                            worldInFlight)))
         "work" (envelope "email" "a" 3)
  = Some 1700000100
  ∧ MaxFails (jtOptions emailType) = 3.
Proof.
  split; [|reflexivity].
  refine (proj1 (proj1 (proj2
    (@a_job_fails_at_most_MaxFails_times demoCodec demoWorker emailType
       (demoJob "email" "a" 2 true) (errorString "boom") "ctx" worldInFlight
       (envelope "email" "a" 3) _ _ _ _ _ _)) _ _)).
  - vm_compute; reflexivity.
  - vm_compute; reflexivity.
  - reflexivity.
  - unfold Int64.max_int; cbn; lia.
  - unfold Int64.max_int; cbn; lia.
  - vm_compute; reflexivity.
  - cbn; lia.
  - reflexivity.
Defined.

(** ** The backoff of the job type *)

Lemma exec_addToRetry_custom `{!JobCodec} (w : worker) (jt : jobType) (job : Job)
    (e : error) (f : Job -> Z) (σ : world) (raw : string) :
  jobTypes w !! Name job = Some jt ->
  Backoff (jtOptions jt) = Some f ->
  serialize job = OK raw ->
  exec (addToRetry w job e) σ
  = exec (transaction
            (release w job
             ++ [ZADD (redisKeyRetry (namespace w)) (Int64.add (clock σ) (f job)) raw]))
         σ.
Proof.
  intros Hjt Hb Hser. unfold addToRetry. rewrite Hser, Hjt, Hb. reflexivity.
Qed.

Lemma exec_addToRetry_default `{!JobCodec} (w : worker) (job : Job)
    (e : error) (σ : world) (raw : string) :
  usesDefaultBackoff w job ->
  serialize job = OK raw ->
  exec (addToRetry w job e) σ
  = exec (transaction
            (release w job
             ++ [ZADD (redisKeyRetry (namespace w))
                      (Int64.add (clock σ) (eval (defaultBackoffCalculator job) σ)) raw]))
         (exec (defaultBackoffCalculator job) σ).
Proof.
  intros Hb Hser. unfold addToRetry, usesDefaultBackoff in *. rewrite Hser.
  destruct (jobTypes w !! Name job) as [jt|]; [rewrite Hb|];
    rewrite !exec_bind; reflexivity.
Qed.

(** The default calculator reads the random source only. *)
Lemma defaultBackoff_after_events (job : Job) (σ σ1 : world) :
  entropy σ1 = entropy σ ->
  redis σ1 = redis σ ->
  eval (defaultBackoffCalculator job) σ1 = eval (defaultBackoffCalculator job) σ
  ∧ entropy (exec (defaultBackoffCalculator job) σ1) = tl (entropy σ)
  ∧ redis (exec (defaultBackoffCalculator job) σ1) = redis σ.
Proof.
  intros He Hr.
  unfold defaultBackoffCalculator, eval, exec, mbind, M_bind, Int63n, mret, M_ret.
  cbn [fst snd entropy redis]. rewrite He.
  split_and!; [reflexivity|reflexivity|exact Hr].
Qed.

(** X4. When the handler of a job returns an error and the job is retried,
    a backoff function set on the job type is applied to the job as
    [job.failed] left it, with the count of fails already bumped and the
    error recorded; the score sent with the retry entry is the clock plus
    what the function returns, in [int64] arithmetic and without a check of
    sign or range, the store holds the float nearest to it, and the random
    source is not drawn from. Without a backoff of its own the job type
    gets the default calculator, which draws one sample. *)
Theorem the_backoff_sees_the_failed_job `{!JobCodec} (w : worker)
    (jt : jobType) (job : Job) (e : error) (ctx : string) (σ : world)
    (raw : string) :
  jobTypes w !! Name job = Some jt ->
  startingDeadlineMissed jt job = false ->
  let job' := failed (clock σ) e (setSuccess false job) in
  let σ' := exec (processJob w job (HandlerReturned (Some e) ctx)) σ in
  (0 <? failsRemaining jt job') && negb (isNoRetryError e) = true ->
  serialize job' = OK raw ->
  match Backoff (jtOptions jt) with
  | Some f =>
      storedScore (retry (redis σ')) (namespace w) raw
      = Some (float64 (Int64.add (clock σ) (f job')))
      ∧ entropy σ' = entropy σ
  | None =>
      storedScore (retry (redis σ')) (namespace w) raw
      = Some (float64 (Int64.add (clock σ) (eval (defaultBackoffCalculator job') σ)))
      ∧ entropy σ' = tl (entropy σ)
  end.
Proof.
  intros Hjt Hdl job' σ' Hroute Hser. subst σ'.
  rewrite exec_processJob.
  rewrite (processJobBody_registered w jt job _ σ Hjt Hdl).
  cbn [selected fst snd]. fold job'.
  match goal with
  | |- context [exec (addToRetryOrDead w jt job' e) ?σ1] => set (σ1' := σ1)
  end.
  assert (Hent : ∀ σ2, entropy (exec (deferred w job') σ2) = entropy σ2).
  { intros σ2. unfold deferred, deleteUniqueJob. destruct (Unique job'); [|reflexivity].
    destruct (redisKeyUniqueJob _ _ _) as [k [err|]]; reflexivity. }
  destruct (deferred_sets w job' (exec (addToRetryOrDead w jt job' e) σ1'))
    as [-> _]. rewrite Hent.
  unfold addToRetryOrDead. rewrite Hroute.
  destruct (Backoff (jtOptions jt)) as [f|] eqn:Hb.
  - rewrite (exec_addToRetry_custom w jt job' e f σ1' raw Hjt Hb Hser).
    rewrite exec_transaction. cbn [redis entropy].
    destruct (retry_after_retry w job' (Int64.add (clock σ1') (f job')) raw (redis σ1'))
      as [-> _].
    split; [apply storedScore_zadd|reflexivity].
  - rewrite (exec_addToRetry_default w job' e σ1' raw); [|
      unfold usesDefaultBackoff, job'; cbn [failed setSuccess Name];
      rewrite Hjt; exact Hb|exact Hser].
    rewrite exec_transaction. cbn [redis entropy].
    destruct (defaultBackoff_after_events job' σ σ1' eq_refl eq_refl)
      as (-> & -> & ->).
    match goal with
    | |- context [EXEC (release w job' ++ [ZADD _ ?sc raw]) ?s] =>
        destruct (retry_after_retry w job' sc raw s) as [-> _]
    end.
    split; [apply storedScore_zadd|reflexivity].
Qed.

Lemma the_backoff_sees_the_failed_job_witness :
  storedScore (retry (redis (exec (@processJob demoCodec backoffWorker
                                     (demoJob "email" "a" 0 true)
                                     (HandlerReturned (Some (errorString "boom")) "ctx"))
                                  worldInFlight)))
              "work" (envelope "email" "a" 1)
  = Some (1700000100 + 60)
  ∧ entropy (exec (@processJob demoCodec backoffWorker
                     (demoJob "email" "a" 0 true)
                     (HandlerReturned (Some (errorString "boom")) "ctx"))
                  worldInFlight)
    = [7].
Proof.
  refine (@the_backoff_sees_the_failed_job demoCodec backoffWorker backoffType
            (demoJob "email" "a" 0 true) (errorString "boom") "ctx" worldInFlight
            (envelope "email" "a" 1) _ _ _ _).
  - vm_compute; reflexivity.
  - vm_compute; reflexivity.
  - vm_compute; reflexivity.
  - vm_compute; reflexivity.
Defined.

(** ** Releasing a record that is not there *)

Lemma lrem_head_absent (n : nat) (v : string) (l : list string) :
  v ∉ l -> lrem_head n v l = l.
Proof.
  induction l as [|x l IH]; intros Hin; destruct n as [|n]; try reflexivity.
  cbn [lrem_head]. apply not_elem_of_cons in Hin as [Hne Hin].
  destruct (decide (x = v)) as [->|_]; [done|].
  by rewrite IH.
Qed.

Lemma lrem_head_first (v : string) (l1 l2 : list string) :
  v ∉ l1 -> lrem_head 1 v (l1 ++ v :: l2) = l1 ++ l2.
Proof.
  induction l1 as [|x l1 IH]; intros Hin.
  - cbn [app lrem_head]. destruct (decide (v = v)); [|done]. by destruct l2.
  - apply not_elem_of_cons in Hin as [Hne Hin].
    cbn [app lrem_head]. destruct (decide (x = v)) as [->|_]; [done|].
    by rewrite IH.
Qed.

(** X5. [removeJobFromInProgress] does not look at what [LREM] found: the
    lock of the job's name and the pool's field of the lock info go down by
    one whether or not the record was in the in-progress list. A record
    that is there is removed once, the first occurrence from the head, the
    others keeping their order; a record that is not there leaves the list
    as it was, so releasing a job a second time leaves the lock one below
    the count of the records. *)
Theorem release_decrements_without_a_check `{!JobCodec} (w : worker) (job : Job)
    (σ : world) :
  let σ' := exec (removeJobFromInProgress w job) σ in
  let l := list_at (inprogress (redis σ)) (inProgQueue job) in
  let l' := list_at (inprogress (redis σ')) (inProgQueue job) in
  let key := redisKeyJobsLock (namespace w) (Name job) in
  let info := redisKeyJobsLockInfo (namespace w) (Name job) in
  int_at (lock (redis σ')) key = int_at (lock (redis σ)) key - 1
  ∧ int_at (default ∅ (lock_info (redis σ') !! info)) (poolID w)
    = int_at (default ∅ (lock_info (redis σ) !! info)) (poolID w) - 1
  ∧ (∀ l1 l2, l = l1 ++ rawJSON job :: l2 -> rawJSON job ∉ l1 -> l' = l1 ++ l2)
  ∧ (rawJSON job ∉ l -> l' = l).
Proof.
  intros σ' l l' key info. subst σ' l l' key info.
  rewrite redis_removeJobFromInProgress.
  rewrite release_lock, release_lock_info, release_inprogress, list_at_list_put.
  split_and!.
  - unfold int_at at 1. by rewrite lookup_insert_eq.
  - reflexivity.
  - intros l1 l2 -> Hin. by apply lrem_head_first.
  - intros Hin. by apply (lrem_head_absent 1).
Qed.

(** ** The answers of the loop *)

Section LoopAnswers.
Context `{!JobCodec}.

Lemma onlyLogs_workEvent (es : list event) : onlyLogs es -> Forall workEvent es.
Proof.
  intros Hl. eapply Forall_impl; [exact Hl|].
  intros [] Hev; by try destruct Hev.
Qed.

Lemma processJob_workEvents (w : worker) (job : Job) (oc : outcome) (σ : world) :
  ∃ es, trace (exec (processJob w job oc) σ) = trace σ ++ es ∧ Forall workEvent es.
Proof.
  destruct (jobTypes w !! Name job) as [jt|] eqn:Hjt.
  - destruct (startingDeadlineMissed jt job) eqn:Hdl.
    + rewrite exec_processJob, (processJobBody_dropped w jt job oc σ Hjt Hdl).
      cbn [fst snd].
      destruct (deferred_trace w job (exec (removeJobFromInProgress w job) σ))
        as (logs & Hlogs & ->).
      exists logs. split; [reflexivity|by apply onlyLogs_workEvent].
    + destruct (processJob_trace_registered w jt job oc σ Hjt Hdl)
        as (logs & Hlogs & ->).
      eexists. split; [reflexivity|].
      apply Forall_app. split; [by repeat constructor|].
      apply Forall_app. split; [destruct oc as [|[e|] ctx|]; by repeat constructor|].
      apply Forall_app. split; [by repeat constructor|by apply onlyLogs_workEvent].
  - rewrite exec_processJob, (processJobBody_stray w job oc σ Hjt).
    cbn [fst snd].
    match goal with
    | |- context [exec (deferred w ?j2) (exec (addToDead w ?j2 ?e) ?σ1)] =>
        destruct (deferred_trace w j2 (exec (addToDead w j2 e) σ1))
          as (l2 & Hl2 & ->);
        destruct (addToDead_trace w j2 e σ1) as (l1 & Hl1 & ->)
    end.
    cbn [appendTrace trace]. rewrite <- !app_assoc.
    eexists. split; [reflexivity|].
    apply Forall_app. split; [by repeat constructor|].
    apply Forall_app. split; by apply onlyLogs_workEvent.
Qed.

Lemma trace_fetchJob (w : worker) (order : list sampleItem) (fault : option error)
    (σ : world) :
  trace (exec (fetchJob w order fault) σ) = trace σ.
Proof.
  unfold fetchJob, exec. destruct fault as [err|]; [reflexivity|].
  destruct (redisLuaFetchJob order (poolID w) (redis σ)) as [[|raw from inProg] s'];
    [reflexivity|].
  destruct (newJob raw from inProg); reflexivity.
Qed.

Lemma workEvents_acks (es : list event) :
  Forall workEvent es -> drainAcks es = 0%nat ∧ stopAcks es = 0%nat.
Proof.
  unfold drainAcks, stopAcks.
  induction 1 as [|ev es [Hd Hs] _ [IHd IHs]]; [done|].
  cbn [List.filter]. by rewrite Hd, Hs.
Qed.

(** The nil branch of a tick, whatever the counter: the pending drain is
    answered, and nothing else is emitted. *)
Lemma afterFetch_nil_trace (w : worker) (ls : loopState) (oc : outcome) (σ : world) :
  trace (exec (afterFetch w ls oc (OK None)) σ)
  = trace σ ++ (if drained ls then [DoneDraining] else [])
  ∧ drainPending (eval (afterFetch w ls oc (OK None)) σ) = 0%nat
  ∧ eval (afterFetch w ls oc (OK None)) σ ≠ Returned.
Proof.
  unfold afterFetch, exec, eval, mbind, M_bind.
  destruct (drained ls); cbn [emit mret M_ret];
    repeat match goal with
           | |- context [if ?b then _ else _] =>
               lazymatch b with
               | _ <? 0 => destruct b
               end
           | |- context [match ?o with Some _ => _ | None => _ end] =>
               lazymatch o with
               | sleepBackoffsInMilliseconds !! _ => destruct o
               end
           end;
    cbn [fst snd trace drainPending drained];
    rewrite ?app_nil_r; split_and!; (reflexivity || discriminate).
Qed.

(** One turn: what it emits is work events followed by at most one answer;
    a drain is answered only if one was pending, and stays pending
    otherwise; the stop is answered exactly when the turn returns. *)
Lemma loopTurn_answers (w : worker) (ls : loopState) (ev : loopEvent) (σ : world) :
  ∃ es,
    trace (exec (loopTurn w ls ev) σ) = trace σ ++ es
    ∧ (drainAcks es + drainPending (eval (loopTurn w ls ev) σ)
       <= drainPending (Continue ls) + (if isDrainSignal ev then 1 else 0))%nat
    ∧ stopAcks es = (if isStopSignal ev then 1 else 0)%nat
    ∧ (eval (loopTurn w ls ev) σ = Returned ↔ ev = StopSignal).
Proof.
  destruct ev as [| |order fault oc].
  - exists [DoneStopping]. split_and!; try reflexivity; [|done].
    unfold drainPending, eval, loopTurn, mbind, M_bind, emit, mret, M_ret.
    cbn [fst]. destruct (drained ls); cbn; lia.
  - exists []. cbn. rewrite app_nil_r. split_and!; try reflexivity.
    + destruct (drained ls); cbn; lia.
    + split; discriminate.
  - unfold exec, eval. rewrite loopTurn_tick.
    pose proof (trace_fetchJob w order fault σ) as Hf.
    set (σf := exec (fetchJob w order fault) σ) in *.
    destruct (eval (fetchJob w order fault) σ) as [[job|]|err].
    + rewrite afterFetch_job. cbn [fst snd].
      destruct (processJob_workEvents w job oc σf) as (es & -> & Hes).
      destruct (workEvents_acks es Hes) as [Hd Hs].
      exists es. rewrite Hf, Hd, Hs. cbn [isDrainSignal isStopSignal drainPending drained].
      split_and!; try reflexivity;
        [unfold drainPending; cbn [drained]; destruct (drained ls); cbn; lia|].
      split; discriminate.
    + destruct (afterFetch_nil_trace w ls oc σf) as (Ht & Hp & Hr).
      unfold exec, eval in Ht, Hp, Hr.
      exists (if drained ls then [DoneDraining] else []).
      rewrite Ht, Hf, Hp. cbn [isDrainSignal isStopSignal].
      split_and!; try reflexivity.
      * cbn [drainPending]. destruct (drained ls); cbn; lia.
      * by destruct (drained ls).
      * split; [done|discriminate].
    + rewrite afterFetch_error. cbn [fst snd appendTrace trace].
      exists [LogError "worker.fetch" (Error err)]. rewrite Hf.
      split_and!; try reflexivity;
        [unfold drainPending; cbn [drained]; destruct (drained ls); cbn; lia|].
      split; discriminate.
Qed.

End LoopAnswers.

Section LoopRuns.
Context `{!JobCodec}.

Lemma loopFrom_cons (w : worker) (ls : loopState) (ev : loopEvent)
    (rest : list loopEvent) (σ : world) :
  loopFrom w ls (ev :: rest) σ
  = match eval (loopTurn w ls ev) σ with
    | Continue ls' => loopFrom w ls' rest (exec (loopTurn w ls ev) σ)
    | r => (r, exec (loopTurn w ls ev) σ)
    end.
Proof.
  cbn [loopFrom]. unfold mbind, M_bind, eval, exec.
  destruct (loopTurn w ls ev σ) as [[ls'| |idx] σ1]; reflexivity.
Qed.

Lemma drainAcks_app (es1 es2 : list event) :
  drainAcks (es1 ++ es2) = (drainAcks es1 + drainAcks es2)%nat.
Proof. unfold drainAcks. by rewrite List.filter_app, length_app. Qed.

Lemma stopAcks_app (es1 es2 : list event) :
  stopAcks (es1 ++ es2) = (stopAcks es1 + stopAcks es2)%nat.
Proof. unfold stopAcks. by rewrite List.filter_app, length_app. Qed.

Lemma loopFrom_drains (w : worker) (evs : list loopEvent) :
  ∀ (ls : loopState) (σ : world),
    ∃ es,
      trace (exec (loopFrom w ls evs) σ) = trace σ ++ es
      ∧ (drainAcks es + drainPending (eval (loopFrom w ls evs) σ)
         <= drainPending (Continue ls) + drainSignals evs)%nat.
Proof.
  induction evs as [|ev rest IH]; intros ls σ.
  - exists []. cbn. rewrite app_nil_r. split; [reflexivity|lia].
  - destruct (loopTurn_answers w ls ev σ) as (es1 & Ht1 & Hd1 & _ & _).
    unfold exec at 1, eval at 1. rewrite loopFrom_cons.
    assert (Hsig : drainSignals (ev :: rest)
                   = ((if isDrainSignal ev then 1 else 0) + drainSignals rest)%nat).
    { unfold drainSignals. cbn [List.filter]. by destruct (isDrainSignal ev). }
    rewrite Hsig.
    destruct (eval (loopTurn w ls ev) σ) as [ls1| |idx] eqn:Hr.
    + destruct (IH ls1 (exec (loopTurn w ls ev) σ)) as (es2 & Ht2 & Hd2).
      exists (es1 ++ es2). unfold exec, eval in Ht2, Hd2 |- *.
      rewrite Ht2. unfold exec in Ht1. rewrite Ht1, <- app_assoc.
      split; [reflexivity|]. rewrite drainAcks_app. lia.
    + exists es1. cbn [fst snd]. split; [exact Ht1|lia].
    + exists es1. cbn [fst snd]. split; [exact Ht1|lia].
Qed.

Lemma loopTurn_goes_on (w : worker) (ls : loopState) (ev : loopEvent) (σ : world) :
  0 <= consequtiveNoJobs ls < Int64.max_int ->
  ev ≠ StopSignal ->
  ∃ ls', eval (loopTurn w ls ev) σ = Continue ls'
         ∧ 0 <= consequtiveNoJobs ls' <= consequtiveNoJobs ls + 1.
Proof.
  intros Hc Hev.
  assert (∃ ls', eval (loopTurn w ls ev) σ = Continue ls') as [ls' Hls'].
  { destruct ev as [| |order fault oc]; [done|by eexists|].
    unfold eval. rewrite loopTurn_tick.
    destruct (eval (fetchJob w order fault) σ) as [[job|]|err].
    - rewrite afterFetch_job. by eexists.
    - destruct (afterFetch_nil w ls oc (exec (fetchJob w order fault) σ) Hc)
        as (ms & _ & ->). by eexists.
    - rewrite afterFetch_error. by eexists. }
  exists ls'. split; [exact Hls'|].
  by apply (loopTurn_counter w ls ls' ev σ).
Qed.

Lemma loopFrom_stops (w : worker) (evs : list loopEvent) :
  ∀ (ls : loopState) (σ : world),
    0 <= consequtiveNoJobs ls ->
    consequtiveNoJobs ls + Z.of_nat (length evs) <= Int64.max_int ->
    ∃ es,
      trace (exec (loopFrom w ls evs) σ) = trace σ ++ es
      ∧ (if existsb isStopSignal evs
         then eval (loopFrom w ls evs) σ = Returned ∧ stopAcks es = 1%nat
              ∧ ∃ es', es = es' ++ [DoneStopping]
         else (∃ ls', eval (loopFrom w ls evs) σ = Continue ls')
              ∧ stopAcks es = 0%nat).
Proof.
  induction evs as [|ev rest IH]; intros ls σ H0 Hfit.
  - exists []. cbn [loopFrom existsb].
    cbn. rewrite app_nil_r. split_and!; [reflexivity|by eexists|reflexivity].
  - cbn [length] in Hfit. rewrite Nat2Z.inj_succ in Hfit.
    destruct (loopTurn_answers w ls ev σ) as (es1 & Ht1 & _ & Hs1 & Hret).
    unfold exec at 1, eval. rewrite loopFrom_cons. cbn [existsb].
    destruct (isStopSignal ev) eqn:His.
    + assert (ev = StopSignal) as -> by (by destruct ev).
      rewrite (proj2 Hret eq_refl). cbn [fst snd orb].
      exists [DoneStopping]. split_and!; try reflexivity. by exists [].
    + assert (Hev : ev ≠ StopSignal) by (by intros ->).
      destruct (loopTurn_goes_on w ls ev σ ltac:(lia) Hev) as (ls1 & Hls1 & Hc1).
      rewrite Hls1. cbn [orb].
      destruct (IH ls1 (exec (loopTurn w ls ev) σ) ltac:(lia) ltac:(lia))
        as (es2 & Ht2 & Hrest).
      exists (es1 ++ es2). unfold exec, eval in Ht2, Hrest |- *.
      rewrite Ht2. unfold exec in Ht1. rewrite Ht1, <- app_assoc.
      split; [reflexivity|].
      rewrite stopAcks_app, Hs1.
      destruct (existsb isStopSignal rest).
      * destruct Hrest as (Hr & Hs & es' & ->).
        split_and!; [exact Hr|by rewrite Hs|].
        exists (es1 ++ es'). by rewrite <- app_assoc.
      * destruct Hrest as (Hr & Hs). split; [exact Hr|by rewrite Hs].
Qed.

Lemma loopFrom_after_stop (w : worker) (evs1 evs2 : list loopEvent) :
  ∀ (ls : loopState) (σ : world),
    loopFrom w ls (evs1 ++ StopSignal :: evs2) σ
    = loopFrom w ls (evs1 ++ [StopSignal]) σ.
Proof.
  induction evs1 as [|ev rest IH]; intros ls σ.
  - reflexivity.
  - cbn [app]. rewrite !loopFrom_cons.
    destruct (eval (loopTurn w ls ev) σ); [apply IH|reflexivity..].
Qed.

End LoopRuns.

(** X6. The loop answers a drain on [doneDrainingChan] only when one is
    pending, and then once: over any run, the answers given plus the drain
    still pending at the end are at most the drain pending at the start
    plus the drain signals received. The answer is given at the first tick
    whose fetch finds no job: that tick emits the answer and nothing else
    and clears the flag; a tick that fetches a job or whose fetch fails
    gives no answer and leaves the flag as it was. A drain signal sets the
    flag, resets the timer to zero and keeps the counter of idle turns. *)
Theorem a_drain_is_answered_once `{!JobCodec} (w : worker) (ls : loopState)
    (evs : list loopEvent) (σ : world) :
  (∃ es,
     trace (exec (loopFrom w ls evs) σ) = trace σ ++ es
     ∧ (drainAcks es + drainPending (eval (loopFrom w ls evs) σ)
        <= drainPending (Continue ls) + drainSignals evs)%nat)
  ∧ (∀ order fault oc,
       let turn := loopTurn w ls (TimerTick order fault oc) in
       (eval (fetchJob w order fault) σ = OK None ->
          trace (exec turn σ)
          = trace σ ++ (if drained ls then [DoneDraining] else [])
          ∧ drainPending (eval turn σ) = 0%nat)
       ∧ (eval (fetchJob w order fault) σ ≠ OK None ->
          drainPending (eval turn σ) = drainPending (Continue ls)
          ∧ ∃ es, trace (exec turn σ) = trace σ ++ es ∧ drainAcks es = 0%nat))
  ∧ eval (loopTurn w ls DrainSignal) σ
    = Continue (mkLoopState true (consequtiveNoJobs ls) 0).
Proof.
  split_and!; [apply loopFrom_drains| |reflexivity].
  intros order fault oc turn. subst turn.
  pose proof (trace_fetchJob w order fault σ) as Hf.
  set (σf := exec (fetchJob w order fault) σ) in *.
  assert (He : exec (loopTurn w ls (TimerTick order fault oc)) σ
               = exec (afterFetch w ls oc (eval (fetchJob w order fault) σ)) σf).
  { unfold exec at 1. rewrite loopTurn_tick. reflexivity. }
  assert (Hv : eval (loopTurn w ls (TimerTick order fault oc)) σ
               = eval (afterFetch w ls oc (eval (fetchJob w order fault) σ)) σf).
  { unfold eval at 1. rewrite loopTurn_tick. reflexivity. }
  rewrite He, Hv. clear He Hv.
  split.
  - intros ->.
    destruct (afterFetch_nil_trace w ls oc σf) as (Ht & Hp & _).
    by rewrite Ht, Hp, Hf.
  - intros Hne. destruct (eval (fetchJob w order fault) σ) as [[job|]|err]; [|done|].
    + unfold exec, eval. rewrite afterFetch_job. cbn [fst snd]. split; [reflexivity|].
      destruct (processJob_workEvents w job oc σf) as (es & -> & Hes).
      exists es. rewrite Hf. split; [reflexivity|].
      by destruct (workEvents_acks es Hes).
    + unfold exec, eval. rewrite afterFetch_error. cbn [fst snd appendTrace trace].
      split; [reflexivity|]. eexists. rewrite Hf. split; reflexivity.
Qed.

(** X7. The loop returns on the stop signal and on nothing else. While the
    counter of idle turns fits in an [int64], no turn indexes the ladder of
    delays out of range, so a run that receives no stop signal goes on; a
    run that receives one returns at the first, answers on
    [doneStoppingChan] once, as the last thing it does, and reads nothing
    that was sent after it. *)
Theorem the_loop_returns_only_when_stopped `{!JobCodec} (w : worker)
    (ls : loopState) (evs : list loopEvent) (σ : world) :
  0 <= consequtiveNoJobs ls ->
  consequtiveNoJobs ls + Z.of_nat (length evs) <= Int64.max_int ->
  ∃ es,
    trace (exec (loopFrom w ls evs) σ) = trace σ ++ es
    ∧ (if existsb isStopSignal evs
       then eval (loopFrom w ls evs) σ = Returned ∧ stopAcks es = 1%nat
            ∧ ∃ es', es = es' ++ [DoneStopping]
       else (∃ ls', eval (loopFrom w ls evs) σ = Continue ls')
            ∧ stopAcks es = 0%nat)
    ∧ (∀ evs1 evs2, evs = evs1 ++ StopSignal :: evs2 ->
         loopFrom w ls evs σ = loopFrom w ls (evs1 ++ [StopSignal]) σ).
Proof.
  intros H0 Hfit.
  destruct (loopFrom_stops w evs ls σ H0 Hfit) as (es & Ht & Hif).
  exists es. split_and!; [exact Ht|exact Hif|].
  intros evs1 evs2 ->. apply loopFrom_after_stop.
Qed.

Lemma the_loop_returns_only_when_stopped_witness :
  eval (@loopFrom demoCodec demoWorker loopStart demoEvents) worldPending = Returned
  ∧ existsb isStopSignal demoEvents = true.
Proof.
  split; [|reflexivity].
  destruct (@the_loop_returns_only_when_stopped demoCodec demoWorker loopStart
              demoEvents worldPending)
    as (es & _ & Hif & _).
  - cbn; lia.
  - unfold Int64.max_int; cbn; lia.
  - change (existsb isStopSignal demoEvents) with true in Hif.
    exact (proj1 Hif).
Defined.

(** ** From the fetch to the completion *)

Section RoundTrip.
Context `{!JobCodec}.

(** What [fetchJob] returned, read back from the reply of the script. *)
Lemma fetchJob_reply (w : worker) (order : list sampleItem) (σ : world) :
  (eval (fetchJob w order None) σ = OK None
   ∧ redis (exec (fetchJob w order None) σ) = redis σ)
  ∨ ∃ it payload remaining,
      it ∈ order
      ∧ rpop (list_at (pending (redis σ)) (redisJobs it)) = Some (payload, remaining)
      ∧ redis (exec (fetchJob w order None) σ)
        = fetched it (poolID w) payload remaining (redis σ)
      ∧ eval (fetchJob w order None) σ
        = match newJob payload (redisJobs it) (redisJobsInProg it) with
          | OK job => OK (Some job)
          | Fail e => Fail e
          end.
Proof.
  unfold fetchJob, eval, exec.
  destruct (redisLuaFetchJob_cases order (poolID w) (redis σ))
    as [->|(it & payload & remaining & Hin & Hpop & ->)].
  - left. split; reflexivity.
  - right. exists it, payload, remaining.
    split_and!; [exact Hin|exact Hpop|..];
      destruct (newJob payload (redisJobs it) (redisJobsInProg it)); reflexivity.
Qed.

Lemma settled_lists (w : worker) (job : Job) (σ : world) (s1 : store) :
  settled w job σ s1 ->
  (inprogress s1 = inprogress (EXEC (release w job) (redis σ))
   ∧ lock s1 = lock (EXEC (release w job) (redis σ))
   ∧ lock_info s1 = lock_info (EXEC (release w job) (redis σ)))
  ∨ (s1 = redis σ
     ∧ ∃ j' err, Name j' = Name job ∧ rawJSON j' = rawJSON job
                 ∧ serialize j' = Fail err).
Proof.
  intros [->|[(score & raw & ->)|[(raw & ->)|Hfail]]].
  - left. by split_and!.
  - left. rewrite EXEC_app. by split_and!.
  - left. rewrite EXEC_app. by split_and!.
  - by right.
Qed.

Lemma int_at_insert `{Countable K} (k k' : K) (z : Z) (m : gmap K Z) :
  int_at (<[k := z]> m) k' = if decide (k = k') then z else int_at m k'.
Proof.
  unfold int_at. destruct (decide (k = k')) as [->|Hne].
  - by rewrite lookup_insert_eq.
  - by rewrite lookup_insert_ne.
Qed.

(** The release of a job undoes what the fetch of its payload did to the
    in-progress lists, the locks and the lock info, when the job carries
    the name its queue is filed under. *)
Lemma release_undoes_fetched (w : worker) (it : sampleItem) (job : Job)
    (remaining : list string) (s : store) :
  sampleKeyed w it = true ->
  Name job = (redisJobs it).2 ->
  inProgQueue job = redisJobsInProg it ->
  let s' := EXEC (release w job) (fetched it (poolID w) (rawJSON job) remaining s) in
  (∀ k, list_at (inprogress s') k = list_at (inprogress s) k)
  ∧ (∀ k, int_at (lock s') k = int_at (lock s) k)
  ∧ (∀ k f, int_at (default ∅ (lock_info s' !! k)) f
            = int_at (default ∅ (lock_info s !! k)) f).
Proof.
  intros Hkeyed Hname Hq s'.
  pose proof Hkeyed as Hkeys. unfold sampleKeyed in Hkeys.
  rewrite !andb_true_iff, !bool_decide_eq_true in Hkeys.
  destruct Hkeys as (((((_ & Hkq) & _) & Hkl) & Hki) & _).
  split_and!.
  - intros k. subst s'. rewrite release_inprogress, Hq.
    assert (Hf : inprogress (fetched it (poolID w) (rawJSON job) remaining s)
                 = list_put (redisJobsInProg it)
                     (rawJSON job :: list_at (inprogress s) (redisJobsInProg it))
                     (inprogress s)) by reflexivity.
    rewrite Hf, list_at_list_put.
    assert (Hl : lrem 1 (rawJSON job)
                   (rawJSON job :: list_at (inprogress s) (redisJobsInProg it))
                 = list_at (inprogress s) (redisJobsInProg it)).
    { unfold lrem. cbn [Z.ltb Z.compare Z.to_nat Pos.to_nat Pos.iter_op Nat.add lrem_head].
      destruct (decide (rawJSON job = rawJSON job)); [|done].
      by destruct (list_at (inprogress s) (redisJobsInProg it)). }
    rewrite Hl.
    destruct (decide (redisJobsInProg it = k)) as [<-|Hne].
    + by rewrite list_at_list_put.
    + by rewrite !list_at_list_put_ne.
  - intros k. subst s'. rewrite release_lock, <- Hname in *.
    assert (Hf : lock (fetched it (poolID w) (rawJSON job) remaining s)
                 = <[redisJobsLock it := int_at (lock s) (redisJobsLock it) + 1]>
                     (lock s)) by reflexivity.
    rewrite Hf, Hkl, !int_at_insert.
    destruct (decide (redisKeyJobsLock (namespace w) (Name job) = k)) as [<-|Hne];
      [|reflexivity].
    destruct (decide (redisKeyJobsLock (namespace w) (Name job)
                      = redisKeyJobsLock (namespace w) (Name job))); [lia|done].
  - intros k f. subst s'.
    assert (Hr : lock_info (EXEC (release w job)
                   (fetched it (poolID w) (rawJSON job) remaining s))
                 = let li := lock_info (fetched it (poolID w) (rawJSON job) remaining s) in
                   let h := default ∅ (li !! redisKeyJobsLockInfo (namespace w) (Name job)) in
                   <[redisKeyJobsLockInfo (namespace w) (Name job) :=
                       <[poolID w := int_at h (poolID w) + -1]> h]> li)
      by reflexivity.
    assert (Hf : lock_info (fetched it (poolID w) (rawJSON job) remaining s)
                 = let h := default ∅ (lock_info s !! redisJobsLockInfo it) in
                   <[redisJobsLockInfo it := <[poolID w := int_at h (poolID w) + 1]> h]>
                     (lock_info s)) by reflexivity.
    rewrite Hr, Hf. cbv zeta. rewrite Hki, <- Hname.
    set (ki := redisKeyJobsLockInfo (namespace w) (Name job)).
    rewrite lookup_insert_eq. cbn [default from_option id].
    destruct (decide (ki = k)) as [<-|Hne].
    + rewrite lookup_insert_eq. cbn [default from_option id].
      destruct (decide (poolID w = f)) as [<-|Hnf]; unfold int_at.
      * rewrite !lookup_insert_eq. cbn [default from_option id]. lia.
      * by rewrite !lookup_insert_ne.
    + by rewrite !lookup_insert_ne.
Qed.

End RoundTrip.

Section FetchAndProcess.
Context `{!JobCodec}.

Lemma processJob_lists (w : worker) (job : Job) (oc : outcome) (σ : world) :
  let σ' := exec (processJob w job oc) σ in
  pending (redis σ') = pending (redis σ)
  ∧ ((inprogress (redis σ') = inprogress (EXEC (release w job) (redis σ))
      ∧ lock (redis σ') = lock (EXEC (release w job) (redis σ))
      ∧ lock_info (redis σ') = lock_info (EXEC (release w job) (redis σ)))
     ∨ (inprogress (redis σ') = inprogress (redis σ)
        ∧ lock (redis σ') = lock (redis σ)
        ∧ lock_info (redis σ') = lock_info (redis σ)
        ∧ ∃ j' err, Name j' = Name job ∧ rawJSON j' = rawJSON job
                    ∧ serialize j' = Fail err)).
Proof.
  intros σ'. subst σ'. rewrite exec_processJob.
  destruct (redis_deferred w (processJobBody w job oc σ).1 (processJobBody w job oc σ).2)
    as [u ->].
  pose proof (processJobBody_settles w job oc σ) as Hset.
  pose proof (settled_frame w job σ _ Hset) as (Hp & _).
  split; [exact Hp|].
  destruct (settled_lists w job σ _ Hset) as [(Hi & Hl & Hli)|(Hs & Hfail)].
  - left. by split_and!.
  - right. cbn [inprogress lock lock_info with_unique]. rewrite Hs. by split_and!.
Qed.

Lemma fetchJob_job (w : worker) (order : list sampleItem) (job : Job) (σ : world) :
  forallb (sampleKeyed w) order = true ->
  pendingNamed (redis σ) ->
  eval (fetchJob w order None) σ = OK (Some job) ->
  ∃ it remaining,
    sampleKeyed w it = true
    ∧ list_at (pending (redis σ)) (redisJobs it) = remaining ++ [rawJSON job]
    ∧ redis (exec (fetchJob w order None) σ)
      = fetched it (poolID w) (rawJSON job) remaining (redis σ)
    ∧ Name job = (redisJobs it).2
    ∧ dequeuedFrom job = redisJobs it
    ∧ inProgQueue job = redisJobsInProg it.
Proof.
  intros Hkeyed Hpend Hjob.
  destruct (fetchJob_reply w order σ)
    as [[Hnil _]|(it & payload & remaining & Hin & Hpop & Hs & Hv)].
  { rewrite Hnil in Hjob. discriminate. }
  rewrite Hv in Hjob. unfold newJob in Hjob.
  destruct (unmarshal payload) as [j|e] eqn:Hj; [|discriminate].
  injection Hjob as <-. cbn [rawJSON Name dequeuedFrom inProgQueue].
  apply rpop_snoc in Hpop.
  exists it, remaining. split_and!; try done.
  - rewrite forallb_forall in Hkeyed. apply Hkeyed. by apply list_elem_of_In.
  - apply (pendingNamed_lookup (redis σ) (redisJobs it) payload j Hpend); [|exact Hj].
    rewrite Hpop. apply elem_of_app. right. apply list_elem_of_here.
Qed.

End FetchAndProcess.

(** X8. A fetch followed by [processJob] is a round trip on the
    in-progress lists and the locks. The fetch takes the payload from the
    tail of its pending list, puts it at the head of the in-progress list
    of the pool and raises the lock of the name by one; [processJob],
    whatever the [select] meets and whether or not the name is registered,
    then leaves every in-progress list, every lock and every field of
    every lock info as before the fetch, provided the job serializes. The
    sampler's entries carry the keys of the worker and pending payloads are
    filed under their names. The fetch script is the one section 4.2
    describes. *)
Theorem fetch_then_process_is_a_round_trip `{!JobCodec} (w : worker)
    (order : list sampleItem) (job : Job) (oc : outcome) (σ : world) :
  forallb (sampleKeyed w) order = true ->
  pendingNamed (redis σ) ->
  eval (fetchJob w order None) σ = OK (Some job) ->
  let σf := exec (fetchJob w order None) σ in
  let σ' := exec (processJob w job oc) σf in
  list_at (pending (redis σ)) (dequeuedFrom job)
  = list_at (pending (redis σ')) (dequeuedFrom job) ++ [rawJSON job]
  ∧ list_at (inprogress (redis σf)) (inProgQueue job)
    = rawJSON job :: list_at (inprogress (redis σ)) (inProgQueue job)
  ∧ int_at (lock (redis σf)) (redisKeyJobsLock (namespace w) (Name job))
    = int_at (lock (redis σ)) (redisKeyJobsLock (namespace w) (Name job)) + 1
  ∧ ((∀ j', Name j' = Name job -> rawJSON j' = rawJSON job ->
            ∃ raw, serialize j' = OK raw) ->
     (∀ k, list_at (inprogress (redis σ')) k = list_at (inprogress (redis σ)) k)
     ∧ (∀ k, int_at (lock (redis σ')) k = int_at (lock (redis σ)) k)
     ∧ (∀ k f, int_at (default ∅ (lock_info (redis σ') !! k)) f
               = int_at (default ∅ (lock_info (redis σ) !! k)) f)).
Proof.
  intros Hkeyed Hpend Hjob σf σ'.
  destruct (fetchJob_job w order job σ Hkeyed Hpend Hjob)
    as (it & remaining & Hit & Hl & Hs & Hname & Hfrom & Hq).
  destruct (processJob_lists w job oc σf) as (Hp' & Hlists). fold σ' in Hp', Hlists.
  pose proof (sampleKeyed_keys w it Hit) as (_ & _ & Hkl).
  split_and!.
  - rewrite Hp', Hfrom, Hl. subst σf. rewrite Hs.
    assert (Hf : pending (fetched it (poolID w) (rawJSON job) remaining (redis σ))
                 = list_put (redisJobs it) remaining (pending (redis σ)))
      by reflexivity.
    by rewrite Hf, list_at_list_put.
  - subst σf. rewrite Hs, Hq.
    assert (Hf : inprogress (fetched it (poolID w) (rawJSON job) remaining (redis σ))
                 = list_put (redisJobsInProg it)
                     (rawJSON job :: list_at (inprogress (redis σ)) (redisJobsInProg it))
                     (inprogress (redis σ))) by reflexivity.
    by rewrite Hf, list_at_list_put.
  - subst σf. rewrite Hs.
    assert (Hf : lock (fetched it (poolID w) (rawJSON job) remaining (redis σ))
                 = <[redisJobsLock it := int_at (lock (redis σ)) (redisJobsLock it) + 1]>
                     (lock (redis σ))) by reflexivity.
    rewrite Hf, Hkl, <- Hname. unfold int_at at 1. by rewrite lookup_insert_eq.
  - intros Hser.
    destruct Hlists as [(Hi & Hlk & Hli)|(_ & _ & _ & j' & err & Hn & Hr & Hfail)].
    + rewrite Hi, Hlk, Hli. subst σf. rewrite Hs.
      by apply release_undoes_fetched.
    + destruct (Hser j' Hn Hr) as [raw Hok]. rewrite Hok in Hfail. discriminate.
Qed.

Lemma fetch_then_process_is_a_round_trip_witness :
  list_at (inprogress (redis (exec (@processJob demoCodec demoWorker
                                      (demoJob "email" "a" 0 false)
                                      (HandlerReturned None "ctx"))
                                   (exec (@fetchJob demoCodec demoWorker
                                            (sampler demoWorker) None)
                                         worldPending))))
          (redisKeyJobsInProgress "work" "pool1" "email")
  = []
  ∧ int_at (lock (redis (exec (@processJob demoCodec demoWorker
                                 (demoJob "email" "a" 0 false)
                                 (HandlerReturned None "ctx"))
                              (exec (@fetchJob demoCodec demoWorker
                                       (sampler demoWorker) None)
                                    worldPending))))
           (redisKeyJobsLock "work" "email")
    = 0.
Proof.
  destruct (@fetch_then_process_is_a_round_trip demoCodec demoWorker
              (sampler demoWorker) (demoJob "email" "a" 0 false)
              (HandlerReturned None "ctx") worldPending)
    as (_ & _ & _ & Hrt).
  - vm_compute; reflexivity.
  - unfold pendingNamed. refine (bool_decide_unpack _ _). vm_compute. exact I.
  - vm_compute; reflexivity.
  - destruct Hrt as (Hi & Hl & _).
    + intros j' _ _. eexists. reflexivity.
    + split; [rewrite Hi|rewrite Hl]; reflexivity.
Defined.

(** X9. [fetchJob] does not undo the script when the payload it got does
    not decode: it returns the error of [newJob], and the payload, taken
    from the pending list, stays at the head of the in-progress list with
    the lock raised by one. The loop then only logs the error and resets
    the timer to 10 ms, so no completion ever releases the record. *)
Theorem an_undecodable_payload_stays_in_progress `{!JobCodec} (w : worker)
    (ls : loopState) (order : list sampleItem) (oc : outcome) (e : error)
    (σ : world) :
  eval (fetchJob w order None) σ = Fail e ->
  let σf := exec (fetchJob w order None) σ in
  let σ' := exec (loopTurn w ls (TimerTick order None oc)) σ in
  ∃ it payload remaining,
    it ∈ order
    ∧ unmarshal payload = Fail e
    ∧ list_at (pending (redis σ)) (redisJobs it) = remaining ++ [payload]
    ∧ list_at (pending (redis σ')) (redisJobs it) = remaining
    ∧ list_at (inprogress (redis σ')) (redisJobsInProg it)
      = payload :: list_at (inprogress (redis σ)) (redisJobsInProg it)
    ∧ int_at (lock (redis σ')) (redisJobsLock it)
      = int_at (lock (redis σ)) (redisJobsLock it) + 1
    ∧ redis σ' = redis σf
    ∧ trace σ' = trace σ ++ [LogError "worker.fetch" (Error e)]
    ∧ eval (loopTurn w ls (TimerTick order None oc)) σ
      = Continue (mkLoopState (drained ls) (consequtiveNoJobs ls)
                              (10 * Duration.Millisecond)).
Proof.
  intros Hfail σf σ'.
  destruct (fetchJob_reply w order σ)
    as [[Hnil _]|(it & payload & remaining & Hin & Hpop & Hs & Hv)].
  { rewrite Hnil in Hfail. discriminate. }
  rewrite Hv in Hfail. unfold newJob in Hfail.
  destruct (unmarshal payload) as [j|e'] eqn:Hj; [discriminate|].
  injection Hfail as ->.
  assert (Hturn : loopTurn w ls (TimerTick order None oc) σ
                  = (Continue (mkLoopState (drained ls) (consequtiveNoJobs ls)
                                           (10 * Duration.Millisecond)),
                     appendTrace [LogError "worker.fetch" (Error e)] σf)).
  { rewrite loopTurn_tick, Hv. unfold newJob. rewrite Hj. apply afterFetch_error. }
  assert (Hσ' : σ' = appendTrace [LogError "worker.fetch" (Error e)] σf).
  { subst σ'. unfold exec at 1. by rewrite Hturn. }
  assert (Hr : redis σ' = fetched it (poolID w) payload remaining (redis σ)).
  { rewrite Hσ'. cbn [appendTrace redis]. exact Hs. }
  apply rpop_snoc in Hpop.
  exists it, payload, remaining. split_and!; try done.
  - rewrite Hr.
    assert (Hf : pending (fetched it (poolID w) payload remaining (redis σ))
                 = list_put (redisJobs it) remaining (pending (redis σ)))
      by reflexivity.
    by rewrite Hf, list_at_list_put.
  - rewrite Hr.
    assert (Hf : inprogress (fetched it (poolID w) payload remaining (redis σ))
                 = list_put (redisJobsInProg it)
                     (payload :: list_at (inprogress (redis σ)) (redisJobsInProg it))
                     (inprogress (redis σ))) by reflexivity.
    by rewrite Hf, list_at_list_put.
  - rewrite Hr.
    assert (Hf : lock (fetched it (poolID w) payload remaining (redis σ))
                 = <[redisJobsLock it := int_at (lock (redis σ)) (redisJobsLock it) + 1]>
                     (lock (redis σ))) by reflexivity.
    rewrite Hf. unfold int_at at 1. by rewrite lookup_insert_eq.
  - rewrite Hσ'. reflexivity.
  - rewrite Hσ'. cbn [appendTrace trace]. subst σf.
    by rewrite trace_fetchJob.
  - unfold eval. by rewrite Hturn.
Qed.

Lemma an_undecodable_payload_stays_in_progress_witness :
  eval (@fetchJob demoCodec demoWorker (sampler demoWorker) None) worldGarbled
  = Fail (errorString "invalid character")
  ∧ list_at (inprogress (redis (exec (@loopTurn demoCodec demoWorker loopStart
                                        (TimerTick (sampler demoWorker) None
                                                   ClearReceived))
                                     worldGarbled)))
            (redisKeyJobsInProgress "work" "pool1" "email")
    = ["{name:"].
Proof.
  assert (Hfail : eval (@fetchJob demoCodec demoWorker (sampler demoWorker) None)
                       worldGarbled
                  = Fail (errorString "invalid character"))
    by (vm_compute; reflexivity).
  split; [exact Hfail|].
  destruct (@an_undecodable_payload_stays_in_progress demoCodec demoWorker
              loopStart (sampler demoWorker) ClearReceived
              (errorString "invalid character") worldGarbled Hfail)
    as (it & payload & remaining & _).
  vm_compute. reflexivity.
Defined.

(** ** The accepted signatures *)

Lemma rtype_eqb_iff (a b : rtype) : rtype_eqb a b = true ↔ a = b.
Proof. split; [apply rtype_eqb_eq|intros ->; apply rtype_eqb_refl]. Qed.

Lemma validHandler_shape (ctxType : rtype) (fn : dynamic) :
  validHandler ctxType fn = true ↔ ∃ t, fn = Some t ∧ handlerShape ctxType t.
Proof.
  unfold validHandler, isValidHandlerType, handlerShape.
  destruct fn as [t|]; cbn [valueType mbind panics_bind mret panics_ret];
    [|split; [discriminate|by intros (t & ? & _)]].
  split.
  - intros Hv. exists t. split; [reflexivity|].
    destruct (isFunc t); [|discriminate]. cbn [negb] in Hv.
    destruct (funcOuts t) as [|o [|o' os]]; try discriminate.
    destruct (rtype_eqb o errorType) eqn:Ho; [|discriminate]. cbn [negb] in Hv.
    apply rtype_eqb_eq in Ho as ->.
    destruct (funcIns t) as [|i0 [|i1 [|i2 irest]]]; try discriminate.
    + apply rtype_eqb_eq in Hv as ->. by split_and!; [..|left].
    + apply andb_true_iff in Hv as [H0 H1].
      apply rtype_eqb_eq in H0 as ->. apply rtype_eqb_eq in H1 as ->.
      by split_and!; [..|right].
  - intros (t' & [= <-] & Hf & Ho & Hi). rewrite Hf, Ho. cbn [negb].
    rewrite rtype_eqb_refl. cbn [negb].
    destruct Hi as [->| ->]; rewrite ?rtype_eqb_refl; reflexivity.
Qed.

Lemma validMiddleware_shape (ctxType : rtype) (fn : dynamic) :
  validMiddleware ctxType fn = true ↔ ∃ t, fn = Some t ∧ middlewareShape ctxType t.
Proof.
  unfold validMiddleware, isValidMiddlewareType, middlewareShape.
  destruct fn as [t|]; cbn [valueType mbind panics_bind mret panics_ret];
    [|split; [discriminate|by intros (t & ? & _)]].
  split.
  - intros Hv. exists t. split; [reflexivity|].
    destruct (isFunc t); [|discriminate]. cbn [negb] in Hv.
    destruct (funcOuts t) as [|o [|o' os]]; try discriminate.
    destruct (rtype_eqb o errorType) eqn:Ho; [|discriminate]. cbn [negb] in Hv.
    apply rtype_eqb_eq in Ho as ->.
    destruct (funcIns t) as [|i0 [|i1 [|i2 [|i3 irest]]]]; try discriminate.
    + apply andb_true_iff in Hv as [H0 H1].
      apply rtype_eqb_eq in H0 as ->. apply rtype_eqb_eq in H1 as ->.
      by split_and!; [..|left].
    + apply andb_true_iff in Hv as [H01 H2]. apply andb_true_iff in H01 as [H0 H1].
      apply rtype_eqb_eq in H0 as ->. apply rtype_eqb_eq in H1 as ->.
      apply rtype_eqb_eq in H2 as ->.
      by split_and!; [..|right].
  - intros (t' & [= <-] & Hf & Ho & Hi). rewrite Hf, Ho. cbn [negb].
    rewrite rtype_eqb_refl. cbn [negb].
    destruct Hi as [->| ->]; rewrite ?rtype_eqb_refl; reflexivity.
Qed.

(** X10. The handler check accepts exactly the functions with the one
    result [error] and the parameters [(job)] or [(ctx, job)], [ctx] a
    pointer to the context type of the pool; the middleware check exactly
    those with the result [error] and the parameters [(job, next)] or
    [(ctx, job, next)]. A defined function type with such a signature is
    accepted like the plain one. No function passes both checks, even for
    two different context types; a function of the shape that takes a
    context is accepted for that context type only; the two generic shapes
    are accepted for every context type. *)
Theorem accepted_signatures (ctxType : rtype) (fn : dynamic) :
  (validHandler ctxType fn = true ↔ ∃ t, fn = Some t ∧ handlerShape ctxType t)
  ∧ (validMiddleware ctxType fn = true
     ↔ ∃ t, fn = Some t ∧ middlewareShape ctxType t)
  ∧ (validHandler ctxType fn = true ->
     ∀ ctxType', validMiddleware ctxType' fn = false)
  ∧ (∀ ctxType' t,
       fn = Some t -> ctxType' ≠ ctxType ->
       (funcIns t = [TPtr ctxType; JobPtr] -> validHandler ctxType' fn = false)
       ∧ (funcIns t = [TPtr ctxType; JobPtr; NextMiddlewareFunc] ->
          validMiddleware ctxType' fn = false))
  ∧ validHandler ctxType (Some GenericHandler) = true
  ∧ validMiddleware ctxType (Some GenericMiddlewareHandler) = true
  ∧ (∀ name, validHandler ctxType (Some (TNamed name GenericHandler)) = true).
Proof.
  split_and!.
  - apply validHandler_shape.
  - apply validMiddleware_shape.
  - intros Hh ctxType'. apply validHandler_shape in Hh as (t & -> & _ & _ & Hi).
    apply not_true_is_false. intros Hm.
    apply validMiddleware_shape in Hm as (t' & [= <-] & _ & _ & Hi').
    destruct Hi as [Hi|Hi]; destruct Hi' as [Hi'|Hi']; rewrite Hi in Hi';
      discriminate.
  - intros ctxType' t -> Hne.
    split; intros Hins; apply not_true_is_false; intros Hv.
    + apply validHandler_shape in Hv as (t' & [= <-] & _ & _ & [Hi|Hi]);
        rewrite Hins in Hi; [discriminate|]. injection Hi as Hc. by symmetry in Hc.
    + apply validMiddleware_shape in Hv as (t' & [= <-] & _ & _ & [Hi|Hi]);
        rewrite Hins in Hi; [discriminate|]. injection Hi as Hc. by symmetry in Hc.
  - apply validHandler_shape. exists GenericHandler. split; [reflexivity|].
    by split_and!; [..|left].
  - apply validMiddleware_shape. exists GenericMiddlewareHandler.
    split; [reflexivity|]. by split_and!; [..|left].
  - intros name. apply validHandler_shape. eexists. split; [reflexivity|].
    by split_and!; [..|left].
Qed.

(** ** The chain [funcToMiddleware] builds *)

Lemma validateMiddlewareType_done (ctxType : rtype) (fn : dynamic) :
  validateMiddlewareType ctxType fn = Done tt ↔ validMiddleware ctxType fn = true.
Proof.
  unfold validateMiddlewareType, validMiddleware.
  destruct (isValidMiddlewareType ctxType fn) as [[]|v] eqn:Hv;
    cbn [mbind panics_bind negb mret panics_ret]; [done| |done].
  destruct (valueType fn); cbn [mbind panics_bind]; split; discriminate.
Qed.

Lemma funcToMiddlewareFrom_cons (acc : option (list middlewareHandler))
    (fn : dynamic) (rest : list dynamic) (ctxType : rtype) :
  funcToMiddlewareFrom acc (fn :: rest) ctxType
  = match fn with
    | Some t =>
        if validMiddleware ctxType (Some t)
        then funcToMiddlewareFrom (Some (default [] acc ++ [handlerOf t])) rest ctxType
        else funcToMiddlewareFrom acc [fn] ctxType
    | None => funcToMiddlewareFrom acc [fn] ctxType
    end.
Proof.
  destruct fn as [t|]; [|reflexivity].
  destruct (validMiddleware ctxType (Some t)) eqn:Hv.
  - apply validateMiddlewareType_done in Hv.
    cbn [funcToMiddlewareFrom]. rewrite Hv. reflexivity.
  - cbn [funcToMiddlewareFrom].
    destruct (validateMiddlewareType ctxType (Some t)) as [[]|v] eqn:Hd;
      [|reflexivity].
    apply validateMiddlewareType_done in Hd. congruence.
Qed.

Lemma funcToMiddlewareFrom_single_invalid (acc : option (list middlewareHandler))
    (fn : dynamic) (ctxType : rtype) :
  validMiddleware ctxType fn = false ->
  ∃ v, funcToMiddlewareFrom acc [fn] ctxType = Panic v
       ∧ validateMiddlewareType ctxType fn = Panic v.
Proof.
  intros Hv. cbn [funcToMiddlewareFrom].
  destruct (validateMiddlewareType ctxType fn) as [[]|v] eqn:Hd.
  - apply validateMiddlewareType_done in Hd. congruence.
  - by exists v.
Qed.

Lemma funcToMiddlewareFrom_valid (ctxType : rtype) (ts : list rtype) :
  ∀ acc,
    forallb (λ t, validMiddleware ctxType (Some t)) ts = true ->
    funcToMiddlewareFrom acc (Some <$> ts) ctxType
    = Done (match ts with
            | [] => acc
            | _ :: _ => Some (default [] acc ++ (handlerOf <$> ts))
            end).
Proof.
  induction ts as [|t ts IH]; intros acc Hall; [reflexivity|].
  cbn [forallb] in Hall. apply andb_true_iff in Hall as [Ht Hts].
  cbn [fmap list_fmap]. rewrite funcToMiddlewareFrom_cons, Ht.
  change (funcToMiddlewareFrom (Some (default [] acc ++ [handlerOf t]))
            (Some <$> ts) ctxType
          = Done (Some (default [] acc ++ handlerOf t :: (handlerOf <$> ts)))).
  rewrite (IH _ Hts). destruct ts as [|t' ts]; [reflexivity|].
  cbn [default from_option id]. by rewrite <- app_assoc.
Qed.

Lemma funcToMiddlewareFrom_first_invalid (ctxType : rtype) (ts : list rtype)
    (bad : dynamic) (rest : list dynamic) :
  ∀ acc,
    forallb (λ t, validMiddleware ctxType (Some t)) ts = true ->
    validMiddleware ctxType bad = false ->
    ∃ v, funcToMiddlewareFrom acc ((Some <$> ts) ++ bad :: rest) ctxType = Panic v
         ∧ validateMiddlewareType ctxType bad = Panic v.
Proof.
  induction ts as [|t ts IH]; intros acc Hall Hbad.
  - cbn [fmap list_fmap app].
    destruct (funcToMiddlewareFrom_single_invalid acc bad ctxType Hbad)
      as (v & Hp & Hv).
    exists v. split; [|exact Hv].
    rewrite funcToMiddlewareFrom_cons. destruct bad as [t|]; [|exact Hp].
    by rewrite Hbad.
  - cbn [forallb] in Hall. apply andb_true_iff in Hall as [Ht Hts].
    cbn [fmap list_fmap app]. rewrite funcToMiddlewareFrom_cons, Ht.
    apply (IH _ Hts Hbad).
Qed.

Lemma funcToMiddlewareFrom_done (ctxType : rtype) (fns : list dynamic) :
  ∀ acc r,
    funcToMiddlewareFrom acc fns ctxType = Done r ->
    ∃ ts, fns = Some <$> ts
          ∧ forallb (λ t, validMiddleware ctxType (Some t)) ts = true.
Proof.
  induction fns as [|fn fns IH]; intros acc r Hdone.
  - by exists [].
  - rewrite funcToMiddlewareFrom_cons in Hdone. destruct fn as [t|].
    + destruct (validMiddleware ctxType (Some t)) eqn:Hv.
      * destruct (IH _ _ Hdone) as (ts & -> & Hts). exists (t :: ts).
        split; [reflexivity|]. cbn [forallb]. by rewrite Hv, Hts.
      * destruct (funcToMiddlewareFrom_single_invalid acc (Some t) ctxType Hv)
          as (v & Hp & _). congruence.
    + destruct (funcToMiddlewareFrom_single_invalid acc None ctxType eq_refl)
        as (v & Hp & _). congruence.
Qed.

Lemma funcToMiddleware_done (ctxType : rtype) (fns : list dynamic)
    (r : option (list middlewareHandler)) :
  funcToMiddleware fns ctxType = Done r
  ↔ ∃ ts, fns = Some <$> ts
          ∧ forallb (λ t, validMiddleware ctxType (Some t)) ts = true
          ∧ r = match ts with [] => None | _ :: _ => Some (handlerOf <$> ts) end.
Proof.
  unfold funcToMiddleware. split.
  - intros Hdone.
    destruct (funcToMiddlewareFrom_done ctxType fns None r Hdone) as (ts & -> & Hts).
    exists ts. split; [reflexivity|]. split; [exact Hts|].
    rewrite (funcToMiddlewareFrom_valid ctxType ts None Hts) in Hdone.
    injection Hdone as <-. by destruct ts.
  - intros (ts & -> & Hts & ->).
    rewrite (funcToMiddlewareFrom_valid ctxType ts None Hts). by destruct ts.
Qed.

(** X11. [funcToMiddleware] returns exactly when every function passes the
    middleware check, and then with one handler per function, in the order
    given, each marked generic exactly when its type is the plain generic
    middleware type; for no function at all the result is the nil slice.
    Otherwise it panics with the message of the first function that fails
    the check, without looking at the ones after it. *)
Theorem funcToMiddleware_keeps_the_order (ctxType : rtype) (fns : list dynamic) :
  (∀ r, funcToMiddleware fns ctxType = Done r
        ↔ ∃ ts, fns = Some <$> ts
                ∧ forallb (λ t, validMiddleware ctxType (Some t)) ts = true
                ∧ r = match ts with
                      | [] => None
                      | _ :: _ => Some (handlerOf <$> ts)
                      end)
  ∧ (∀ ts bad rest,
       fns = (Some <$> ts) ++ bad :: rest ->
       forallb (λ t, validMiddleware ctxType (Some t)) ts = true ->
       validMiddleware ctxType bad = false ->
       ∃ v, funcToMiddleware fns ctxType = Panic v
            ∧ validateMiddlewareType ctxType bad = Panic v)
  ∧ (∀ t, mwIsGeneric (handlerOf t) = true ↔ t = GenericMiddlewareHandler)
  ∧ (∀ t, DynamicMiddleware (handlerOf t) = t).
Proof.
  split_and!.
  - intros r. apply funcToMiddleware_done.
  - intros ts bad rest -> Hts Hbad.
    by apply funcToMiddlewareFrom_first_invalid.
  - intros t. apply rtype_eqb_iff.
  - reflexivity.
Qed.

(** ** Pools and their workers *)

Lemma updateMiddlewareAndJobTypes_agrees (wp : WorkerPool) (w : worker)
    (mw hk : option (list middlewareHandler)) (jts : gmap string jobType)
    (wp' : WorkerPool) :
  namespace w = wpNamespace wp -> poolID w = workerPoolID wp ->
  contextType w = wpContextType wp ->
  wpNamespace wp' = wpNamespace wp -> workerPoolID wp' = workerPoolID wp ->
  wpContextType wp' = wpContextType wp -> wpJobTypes wp' = jts ->
  map_Forall (λ name jt, jtName jt = name) jts ->
  agrees wp' (updateMiddlewareAndJobTypes w mw hk jts).
Proof.
  intros Hns Hid Hctx Hns' Hid' Hctx' Hjts Hnames. unfold agrees.
  split_and!.
  - by rewrite Hjts.
  - cbn [updateMiddlewareAndJobTypes namespace]. congruence.
  - cbn [updateMiddlewareAndJobTypes poolID]. congruence.
  - cbn [updateMiddlewareAndJobTypes contextType]. congruence.
  - rewrite Hjts. cbn [updateMiddlewareAndJobTypes sampler].
    rewrite <- list_fmap_compose. apply list_fmap_ext.
    intros i [name jt] Hi. cbn.
    apply list_elem_of_lookup_2, elem_of_map_to_list in Hi.
    by rewrite (Hnames name jt Hi).
  - apply updateMiddlewareAndJobTypes_keyed.
Qed.

Lemma JobWithOptionsAndMiddlewares_done (wp wp' : WorkerPool) (name : string)
    (jobOpts : JobOptions) (fn : dynamic) (fns hks : list dynamic) :
  JobWithOptionsAndMiddlewares wp name jobOpts fn fns hks = Done wp' ->
  ∃ jobOpts' vfn jm hm,
    applyDefaultsAndValidate jobOpts = Done jobOpts'
    ∧ fn = Some vfn
    ∧ validHandler (wpContextType wp) fn = true
    ∧ funcToMiddleware fns (wpContextType wp) = Done jm
    ∧ funcToMiddleware hks (wpContextType wp) = Done hm
    ∧ wp' = let jt := mkJobType name jobOpts' (rtype_eqb vfn GenericHandler) vfn
                        (default [] jm) (default [] hm) in
            let jobTypes := <[name := jt]> (wpJobTypes wp) in
            mkWorkerPool (workerPoolID wp) (concurrency wp) (wpNamespace wp)
              (wpContextType wp) jobTypes (wpMiddleware wp) (wpHook wp) (started wp)
              ((λ w, updateMiddlewareAndJobTypes w (wpMiddleware wp) (wpHook wp)
                       jobTypes) <$> workers wp).
Proof.
  unfold JobWithOptionsAndMiddlewares.
  destruct (applyDefaultsAndValidate jobOpts) as [jobOpts'|v]; [|discriminate].
  unfold mbind at 1, panics_bind.
  destruct (validateHandlerType (wpContextType wp) fn) as [[]|v] eqn:Hvalid;
    [|discriminate].
  unfold mbind at 1, panics_bind.
  destruct (funcToMiddleware fns (wpContextType wp)) as [jm|v]; [|discriminate].
  unfold mbind at 1, panics_bind.
  destruct (funcToMiddleware hks (wpContextType wp)) as [hm|v]; [|discriminate].
  unfold mbind at 1, panics_bind.
  destruct fn as [vfn|]; [|discriminate].
  cbn [valueType]. unfold mbind, panics_bind, mret, panics_ret. intros [= <-].
  exists jobOpts', vfn, jm, hm. split_and!; try reflexivity.
  apply not_false_iff_true. intros Hinv.
  pose proof (validateHandlerType_invalid _ _ Hinv) as Hp.
  by rewrite Hvalid in Hp.
Qed.

Lemma Middlewares_done (wp wp' : WorkerPool) (fns : list dynamic) :
  Middlewares wp fns = Done wp' ->
  ∃ mw,
    funcToMiddleware fns (wpContextType wp) = Done mw
    ∧ wp' = mkWorkerPool (workerPoolID wp) (concurrency wp) (wpNamespace wp)
              (wpContextType wp) (wpJobTypes wp) mw (wpHook wp) (started wp)
              ((λ w, updateMiddlewareAndJobTypes w mw None (wpJobTypes wp))
                 <$> workers wp).
Proof.
  unfold Middlewares.
  destruct (funcToMiddleware fns (wpContextType wp)) as [mw|v]; [|discriminate].
  unfold mbind, panics_bind, mret, panics_ret. intros [= <-]. by exists mw.
Qed.

Lemma Hooks_done (wp wp' : WorkerPool) (fns : list dynamic) :
  Hooks wp fns = Done wp' ->
  ∃ hk,
    funcToMiddleware fns (wpContextType wp) = Done hk
    ∧ wp' = mkWorkerPool (workerPoolID wp) (concurrency wp) (wpNamespace wp)
              (wpContextType wp) (wpJobTypes wp) (wpMiddleware wp) hk (started wp)
              ((λ w, updateMiddlewareAndJobTypes w None hk (wpJobTypes wp))
                 <$> workers wp).
Proof.
  unfold Hooks.
  destruct (funcToMiddleware fns (wpContextType wp)) as [hk|v]; [|discriminate].
  unfold mbind, panics_bind, mret, panics_ret. intros [= <-]. by exists hk.
Qed.

Lemma coherent_update (wp wp' : WorkerPool)
    (mw hk : option (list middlewareHandler)) :
  coherent wp ->
  wpNamespace wp' = wpNamespace wp -> workerPoolID wp' = workerPoolID wp ->
  wpContextType wp' = wpContextType wp ->
  map_Forall (λ name jt, jtName jt = name) (wpJobTypes wp') ->
  workers wp' = (λ w, updateMiddlewareAndJobTypes w mw hk (wpJobTypes wp'))
                <$> workers wp ->
  coherent wp'.
Proof.
  intros [Hnames Hws] Hns Hid Hctx Hnames' Hworkers.
  split; [exact Hnames'|]. rewrite Hworkers. apply Forall_fmap.
  eapply Forall_impl; [exact Hws|].
  intros w (_ & Hwns & Hwid & Hwctx & _). cbn [compose].
  by apply (updateMiddlewareAndJobTypes_agrees wp).
Qed.

Lemma NewWorkerPool_done (ctx : dynamic) (n : Z) (ns : string) (ids : nat -> string)
    (poolIsNil : bool) (wp : WorkerPool) :
  NewWorkerPool ctx n ns poolIsNil ids = Done wp ->
  ∃ ctxType,
    poolIsNil = false ∧ ctx = Some ctxType ∧ isStruct ctxType = true
    ∧ wp = let jobTypes :=
             <[("WorkerDrain:" +:+ ids O) := drainJobType (ids O)]>
               (∅ : gmap string jobType) in
           mkWorkerPool (ids O) n ns ctxType jobTypes None None false
             ((λ i, updateMiddlewareAndJobTypes
                      (newWorker (ids (S i)) ns (ids O) ctxType None None ∅)
                      None None jobTypes)
                <$> seq 0 (Z.to_nat n)).
Proof.
  unfold NewWorkerPool. destruct poolIsNil; [discriminate|].
  destruct ctx as [ctxType|]; [|discriminate]. cbn [validateContextType].
  destruct (isStruct ctxType) eqn:Hs; [|discriminate].
  cbn [negb mbind panics_bind]. intros Hreg.
  exists ctxType. split_and!; [reflexivity|reflexivity|exact Hs|].
  unfold registerJob in Hreg.
  apply JobWithOptionsAndMiddlewares_done in Hreg
    as (jobOpts' & vfn & jm & hm & Hopts & [= <-] & _ & Hjm & Hhm & ->).
  injection Hopts as <-. injection Hjm as <-. injection Hhm as <-.
  cbn [workerPoolID concurrency wpNamespace wpContextType wpJobTypes wpMiddleware
       wpHook started workers default from_option id].
  rewrite <- list_fmap_compose. reflexivity.
Qed.

Lemma NewWorkerPool_coherent (ctx : dynamic) (n : Z) (ns : string)
    (ids : nat -> string) (poolIsNil : bool) (wp : WorkerPool) :
  NewWorkerPool ctx n ns poolIsNil ids = Done wp -> coherent wp.
Proof.
  intros Hnew.
  apply NewWorkerPool_done in Hnew as (ctxType & _ & _ & _ & ->). cbv zeta.
  assert (Hnames : map_Forall (λ name jt, jtName jt = name)
                     (<[("WorkerDrain:" +:+ ids O) := drainJobType (ids O)]>
                        (∅ : gmap string jobType))).
  { apply map_Forall_insert_2; [reflexivity|apply map_Forall_empty]. }
  split; [exact Hnames|]. cbn [workers]. apply Forall_fmap, Forall_forall.
  intros i _. cbn [compose].
  match goal with
  | |- agrees ?wp0 _ => by apply (updateMiddlewareAndJobTypes_agrees wp0)
  end.
Qed.

(** X12. A pool and its workers stay in agreement through registration.
    [NewWorkerPool] returns a pool whose workers all hold the pool's job
    types, namespace, identifier and context type, each with a sampler
    that lists the pool's job types with their priorities under the keys
    of that worker; registering a job, [Middlewares] and [Hooks] keep it
    so. A registration files the job type under its name, replacing an
    earlier one of that name and leaving the others; [Middlewares] and
    [Hooks] leave the job types alone. None of them adds or drops a
    worker. *)
Theorem the_workers_follow_the_pool (wp wp' : WorkerPool) :
  (∀ ctx n ns poolIsNil ids,
     NewWorkerPool ctx n ns poolIsNil ids = Done wp' -> coherent wp')
  ∧ (coherent wp ->
     (∀ name jobOpts fn fns hks,
        JobWithOptionsAndMiddlewares wp name jobOpts fn fns hks = Done wp' ->
        coherent wp'
        ∧ (∃ jt, wpJobTypes wp' = <[name := jt]> (wpJobTypes wp) ∧ jtName jt = name)
        ∧ workerID <$> workers wp' = workerID <$> workers wp)
     ∧ (∀ fns, Middlewares wp fns = Done wp' ->
          coherent wp' ∧ wpJobTypes wp' = wpJobTypes wp
          ∧ workerID <$> workers wp' = workerID <$> workers wp)
     ∧ (∀ fns, Hooks wp fns = Done wp' ->
          coherent wp' ∧ wpJobTypes wp' = wpJobTypes wp
          ∧ workerID <$> workers wp' = workerID <$> workers wp)).
Proof.
  split; [intros ctx n ns poolIsNil ids; apply NewWorkerPool_coherent|].
  intros Hco. split_and!.
  - intros name jobOpts fn fns hks Hreg.
    apply JobWithOptionsAndMiddlewares_done in Hreg
      as (jobOpts' & vfn & jm & hm & _ & _ & _ & _ & _ & ->). cbv zeta.
    split_and!.
    + eapply (coherent_update wp); [exact Hco|reflexivity..| |reflexivity].
      cbn [wpJobTypes]. apply map_Forall_insert_2; [reflexivity|apply Hco].
    + eexists. split; reflexivity.
    + cbn [workers]. rewrite <- list_fmap_compose. reflexivity.
  - intros fns Hmw. apply Middlewares_done in Hmw as (mw & _ & ->).
    split_and!; [|reflexivity|].
    + eapply (coherent_update wp); [exact Hco|reflexivity..| |reflexivity].
      apply Hco.
    + cbn [workers]. rewrite <- list_fmap_compose. reflexivity.
  - intros fns Hhk. apply Hooks_done in Hhk as (hk & _ & ->).
    split_and!; [|reflexivity|].
    + eapply (coherent_update wp); [exact Hco|reflexivity..| |reflexivity].
      apply Hco.
    + cbn [workers]. rewrite <- list_fmap_compose. reflexivity.
Qed.

Lemma validateHandlerType_done (ctxType : rtype) (fn : dynamic) :
  validateHandlerType ctxType fn = Done tt ↔ validHandler ctxType fn = true.
Proof.
  unfold validateHandlerType, validHandler.
  destruct (isValidHandlerType ctxType fn) as [[]|v] eqn:Hv;
    cbn [mbind panics_bind negb mret panics_ret]; [done| |done].
  destruct (valueType fn); cbn [mbind panics_bind]; split; discriminate.
Qed.

Lemma registerJob_generic (wp : WorkerPool) (name : string) :
  registerJob wp name (Some GenericHandler)
  = Done (let jt := mkJobType name (mkJobOptions 1 4 false 0 None 0 false 0)
                      true GenericHandler [] [] in
          let jobTypes := <[name := jt]> (wpJobTypes wp) in
          mkWorkerPool (workerPoolID wp) (concurrency wp) (wpNamespace wp)
            (wpContextType wp) jobTypes (wpMiddleware wp) (wpHook wp) (started wp)
            ((λ w, updateMiddlewareAndJobTypes w (wpMiddleware wp) (wpHook wp)
                     jobTypes) <$> workers wp)).
Proof.
  unfold registerJob, JobWithOptionsAndMiddlewares.
  assert (Hv : validateHandlerType (wpContextType wp) (Some GenericHandler) = Done tt).
  { apply validateHandlerType_done, validHandler_shape.
    exists GenericHandler. split; [reflexivity|]. by split_and!; [..|left]. }
  rewrite Hv. reflexivity.
Qed.

(** X13. [Middlewares] sets the chain, it does not append to it: after a
    call that returns, the pool's chain is made of the handlers of the
    functions given, in their order, whatever the chain was before, and so
    is the chain of every worker. With no function at all the pool's chain
    becomes the nil slice and the workers keep the chain they had, since a
    nil chain is not handed on; a later registration of a job does not
    change that. [Hooks] does the same to the hooks. Neither touches the
    other chain. *)
Theorem Middlewares_sets_the_chain (wp : WorkerPool) (fns : list dynamic) :
  (∀ wp', Middlewares wp fns = Done wp' ->
     ∃ ts, fns = Some <$> ts
       ∧ wpMiddleware wp'
         = match ts with [] => None | _ :: _ => Some (handlerOf <$> ts) end
       ∧ middleware <$> workers wp'
         = match ts with
           | [] => middleware <$> workers wp
           | _ :: _ => (λ _, handlerOf <$> ts) <$> workers wp
           end
       ∧ hook <$> workers wp' = hook <$> workers wp
       ∧ wpHook wp' = wpHook wp)
  ∧ (∀ wp', Hooks wp fns = Done wp' ->
       ∃ ts, fns = Some <$> ts
         ∧ wpHook wp'
           = match ts with [] => None | _ :: _ => Some (handlerOf <$> ts) end
         ∧ hook <$> workers wp'
           = match ts with
             | [] => hook <$> workers wp
             | _ :: _ => (λ _, handlerOf <$> ts) <$> workers wp
             end
         ∧ middleware <$> workers wp' = middleware <$> workers wp
         ∧ wpMiddleware wp' = wpMiddleware wp)
  ∧ (∀ wp' name jobOpts fn jfns jhks,
       JobWithOptionsAndMiddlewares wp name jobOpts fn jfns jhks = Done wp' ->
       wpMiddleware wp' = wpMiddleware wp
       ∧ wpHook wp' = wpHook wp
       ∧ middleware <$> workers wp'
         = (λ w, default (middleware w) (wpMiddleware wp)) <$> workers wp
       ∧ hook <$> workers wp'
         = (λ w, default (hook w) (wpHook wp)) <$> workers wp).
Proof.
  split_and!.
  - intros wp' Hmw. apply Middlewares_done in Hmw as (mw & Hmw & ->).
    apply funcToMiddleware_done in Hmw as (ts & -> & _ & ->).
    exists ts. cbn [wpMiddleware wpHook workers].
    rewrite <- !list_fmap_compose.
    split_and!; try reflexivity. by destruct ts.
  - intros wp' Hhk. apply Hooks_done in Hhk as (hk & Hhk & ->).
    apply funcToMiddleware_done in Hhk as (ts & -> & _ & ->).
    exists ts. cbn [wpMiddleware wpHook workers].
    rewrite <- !list_fmap_compose.
    split_and!; try reflexivity. by destruct ts.
  - intros wp' name jobOpts fn jfns jhks Hreg.
    apply JobWithOptionsAndMiddlewares_done in Hreg
      as (jobOpts' & vfn & jm & hm & _ & _ & _ & _ & _ & ->). cbv zeta.
    cbn [wpMiddleware wpHook workers]. rewrite <- !list_fmap_compose.
    by split_and!.
Qed.

(** X14. [NewWorkerPool] returns exactly when the connection pool is not
    nil and the context is of struct kind. The pool it returns is not
    started, has no middleware and no hooks, takes the first identifier
    for itself and gives the next ones, in order, to as many workers as the
    concurrency says; it holds one job type, the drain job filed under
    ["WorkerDrain:"] followed by the pool's identifier, generic, with the
    default priority 1 and the default 4 fails, and every worker samples
    that one job type under its own keys. *)
Theorem NewWorkerPool_returns_a_drain_ready_pool (ctx : dynamic) (n : Z)
    (ns : string) (poolIsNil : bool) (ids : nat -> string) :
  (isPanic (NewWorkerPool ctx n ns poolIsNil ids) = false
   ↔ poolIsNil = false ∧ ∃ t, ctx = Some t ∧ isStruct t = true)
  ∧ (∀ wp, NewWorkerPool ctx n ns poolIsNil ids = Done wp ->
       let name := "WorkerDrain:" +:+ ids O in
       workerPoolID wp = ids O
       ∧ wpNamespace wp = ns
       ∧ concurrency wp = n
       ∧ started wp = false
       ∧ wpMiddleware wp = None
       ∧ wpHook wp = None
       ∧ wpJobTypes wp = {[ name := drainJobType (ids O) ]}
       ∧ workerID <$> workers wp = (λ i, ids (S i)) <$> seq 0 (Z.to_nat n)
       ∧ Forall (λ w, middleware w = [] ∧ hook w = []
                      ∧ jobTypes w = wpJobTypes wp
                      ∧ sampler w
                        = [mkSampleItem 1
                             (redisKeyJobs ns name)
                             (redisKeyJobsInProgress ns (ids O) name)
                             (redisKeyJobsPaused ns name)
                             (redisKeyJobsLock ns name)
                             (redisKeyJobsLockInfo ns name)
                             (redisKeyJobsConcurrency ns name)])
                (workers wp)).
Proof.
  split.
  - split.
    + intros Hp.
      destruct (NewWorkerPool ctx n ns poolIsNil ids) as [wp|v] eqn:Hnew;
        [|discriminate].
      apply NewWorkerPool_done in Hnew as (t & Hnil & -> & Hs & _).
      split; [exact Hnil|]. by exists t.
    + intros (-> & t & -> & Hs). unfold NewWorkerPool.
      cbn [validateContextType]. rewrite Hs.
      cbn [negb mbind panics_bind]. by rewrite registerJob_generic.
  - intros wp Hnew name.
    apply NewWorkerPool_done in Hnew as (t & _ & _ & _ & ->). cbv zeta.
    cbn [workerPoolID wpNamespace concurrency started wpMiddleware wpHook
         wpJobTypes workers].
    split_and!; try reflexivity.
    + by rewrite <- list_fmap_compose.
    + apply Forall_fmap, Forall_forall. intros i _. cbn [compose].
      split_and!; try reflexivity.
      cbn [updateMiddlewareAndJobTypes sampler].
      change (<[("WorkerDrain:" +:+ ids O) := drainJobType (ids O)]>
                (∅ : gmap string jobType))
        with ({[ ("WorkerDrain:" +:+ ids O) := drainJobType (ids O) ]}
               : gmap string jobType).
      rewrite map_to_list_singleton. reflexivity.
Qed.

(** ** The concurrency caps *)

Lemma caps_fold (ns : string) (base : gmap (string * string) Z)
    (jts : gmap string jobType) (k : string * string) :
  map_fold
    (λ (jobName : string) (jt : jobType) (m : gmap (string * string) Z),
       <[redisKeyJobsConcurrency ns jobName := MaxConcurrency (jtOptions jt)]> m)
    base jts !! k
  = match jts !! k.2 with
    | Some jt => if decide (k.1 = ns) then Some (MaxConcurrency (jtOptions jt))
                 else base !! k
    | None => base !! k
    end.
Proof.
  revert jts. apply (map_fold_weak_ind (λ r jts, r !! k = match jts !! k.2 with
    | Some jt => if decide (k.1 = ns) then Some (MaxConcurrency (jtOptions jt))
                 else base !! k
    | None => base !! k
    end)).
  - by rewrite lookup_empty.
  - intros name jt jts r Hfresh IH. destruct k as [kns kname]. cbn [fst snd] in *.
    unfold redisKeyJobsConcurrency.
    destruct (decide (name = kname)) as [->|Hne].
    + rewrite (lookup_insert_eq jts).
      destruct (decide (kns = ns)) as [->|Hns].
      * by rewrite lookup_insert_eq.
      * rewrite lookup_insert_ne by congruence. rewrite IH, Hfresh. reflexivity.
    + rewrite (lookup_insert_ne jts) by done.
      rewrite lookup_insert_ne by congruence. exact IH.
Qed.

(** X15. [writeConcurrencyControlsToRedis] leaves the store with the cap
    of every job type of the pool under the key of its name, whatever the
    order of the [range] over the map; every other cap, those of names no
    longer registered among them, and every other key of the store stay as
    they were. The fetch script of section 4.2 then holds a registered job
    type back exactly when its cap is positive and its lock has reached
    it: a cap of zero never holds back. *)
Theorem caps_are_written_per_job_type (wp : WorkerPool) (σ : world) :
  let σ' := exec (writeConcurrencyControlsToRedis wp) σ in
  (∀ name jt, wpJobTypes wp !! name = Some jt ->
     max_concurrency (redis σ') !! redisKeyJobsConcurrency (wpNamespace wp) name
     = Some (MaxConcurrency (jtOptions jt))
     ∧ canRun (redis σ') (redisKeyJobsLock (wpNamespace wp) name)
              (redisKeyJobsConcurrency (wpNamespace wp) name)
       = negb ((0 <? MaxConcurrency (jtOptions jt))
               && (MaxConcurrency (jtOptions jt)
                   <=? int_at (lock (redis σ))
                              (redisKeyJobsLock (wpNamespace wp) name))))
  ∧ (∀ ns name, (ns ≠ wpNamespace wp ∨ wpJobTypes wp !! name = None) ->
       max_concurrency (redis σ') !! redisKeyJobsConcurrency ns name
       = max_concurrency (redis σ) !! redisKeyJobsConcurrency ns name)
  ∧ with_max_concurrency (max_concurrency (redis σ)) (redis σ') = redis σ
  ∧ clock σ' = clock σ ∧ entropy σ' = entropy σ ∧ trace σ' = trace σ.
Proof.
  intros σ'. subst σ'. unfold writeConcurrencyControlsToRedis.
  destruct (decide (size (wpJobTypes wp) = 0%nat)) as [Hz|Hnz].
  - apply map_size_empty_iff in Hz. rewrite Hz.
    split_and!; try reflexivity.
    + intros name jt Hjt. by rewrite lookup_empty in Hjt.
    + destruct σ as [[] ? ? ? ?]. reflexivity.
  - unfold exec. cbn [snd redis clock entropy trace].
    split_and!; try reflexivity.
    + intros name jt Hjt.
      assert (Hcap : max_concurrency
                (with_max_concurrency
                   (map_fold
                      (λ (jobName : string) (jt0 : jobType)
                         (m : gmap (string * string) Z),
                         <[redisKeyJobsConcurrency (wpNamespace wp) jobName
                           := MaxConcurrency (jtOptions jt0)]> m)
                      (max_concurrency (redis σ)) (wpJobTypes wp)) (redis σ))
                !! redisKeyJobsConcurrency (wpNamespace wp) name
              = Some (MaxConcurrency (jtOptions jt))).
      { cbn [max_concurrency with_max_concurrency]. rewrite caps_fold.
        cbn [redisKeyJobsConcurrency fst snd]. rewrite Hjt.
        by destruct (decide (wpNamespace wp = wpNamespace wp)). }
      split; [exact Hcap|]. unfold canRun. rewrite Hcap. reflexivity.
    + intros ns name Hother. cbn [max_concurrency with_max_concurrency].
      rewrite caps_fold. cbn [redisKeyJobsConcurrency fst snd].
      destruct (wpJobTypes wp !! name) as [jt|] eqn:Hjt; [|reflexivity].
      destruct (decide (ns = wpNamespace wp)) as [->|Hns]; [|reflexivity].
      by destruct Hother.
    + destruct σ as [[] ? ? ? ?]. reflexivity.
Qed.

(** ** The connection pool of the web UI *)

Lemma Split_nonempty (s : string) (sep : ascii) : Split s sep ≠ [].
Proof.
  destruct s as [|c r]; [done|]. cbn [Split].
  destruct (Ascii.eqb c sep); [done|]. by destruct (Split r sep).
Qed.

Lemma concat_cons_char (sep : string) (c : ascii) (piece : string)
    (pieces : list string) :
  String.concat sep (String c piece :: pieces)
  = String c (String.concat sep (piece :: pieces)).
Proof. by destruct pieces. Qed.

Lemma Split_concat (s : string) (sep : ascii) :
  String.concat (String sep EmptyString) (Split s sep) = s.
Proof.
  induction s as [|c r IH]; [reflexivity|]. cbn [Split].
  destruct (Ascii.eqb c sep) eqn:Hc.
  - apply Ascii.eqb_eq in Hc as ->.
    pose proof (Split_nonempty r sep) as Hne.
    destruct (Split r sep) as [|piece pieces]; [done|].
    cbn [String.concat String.append]. cbn [String.concat] in IH. by rewrite IH.
  - pose proof (Split_nonempty r sep) as Hne.
    destruct (Split r sep) as [|piece pieces]; [done|].
    by rewrite concat_cons_char, IH.
Qed.

Lemma Split_pieces (s : string) (sep : ascii) :
  Forall (λ piece, hasByte sep piece = false) (Split s sep).
Proof.
  induction s as [|c r IH]; [by repeat constructor|]. cbn [Split].
  destruct (Ascii.eqb c sep) eqn:Hc.
  - by constructor.
  - destruct (Split r sep) as [|piece pieces]; [by repeat constructor; cbn; rewrite Hc|].
    apply Forall_cons in IH as [Hp Hps].
    constructor; [|exact Hps]. cbn [hasByte]. by rewrite Hc, Hp.
Qed.

Lemma Split_of_concat (sep : ascii) (pieces : list string) :
  pieces ≠ [] ->
  Forall (λ piece, hasByte sep piece = false) pieces ->
  Split (String.concat (String sep EmptyString) pieces) sep = pieces.
Proof.
  induction pieces as [|piece pieces IH]; [done|]. intros _ Hall.
  apply Forall_cons in Hall as [Hp Hps].
  induction piece as [|c piece IHp].
  - destruct pieces as [|p2 pieces]; [reflexivity|].
    change (Split (String sep (String.concat (String sep EmptyString) (p2 :: pieces)))
                  sep = EmptyString :: p2 :: pieces).
    cbn [Split]. rewrite Ascii.eqb_refl.
    by rewrite (IH ltac:(done) Hps).
  - cbn [hasByte] in Hp. apply orb_false_iff in Hp as [Hc Hp].
    rewrite concat_cons_char. cbn [Split]. rewrite Hc. by rewrite (IHp Hp).
Qed.

(** X16. For a string that [TrimSpace] does not empty, [sentinelHosts]
    cuts at every comma and nowhere else: the hosts contain no comma,
    joined with commas they give the string back, and they are the only
    such list; they are not trimmed. For a string of white space it
    returns no host. [createPool] fails exactly when the sentinel string
    and the value of the flag [redis] are both empty, whatever [addr] is;
    a sentinel string that is not empty takes precedence over the address
    and gives a sentinel dialer, with no host at all when the string is
    white space; otherwise the pool dials [addr], even when [addr] is
    empty. Every pool it returns allows 3 active and 3 idle connections
    and waits. *)
Theorem the_pool_follows_the_sentinel_string `{!GoStrings}
    (redisHostPort addr sentinel : string) (database : Z) :
  (TrimSpace sentinel ≠ EmptyString ->
     String.concat "," (sentinelHosts sentinel) = sentinel
     ∧ Forall (λ host, hasByte "," host = false) (sentinelHosts sentinel)
     ∧ (∀ hosts, hosts ≠ [] -> Forall (λ host, hasByte "," host = false) hosts ->
                 String.concat "," hosts = sentinel ->
                 sentinelHosts sentinel = hosts))
  ∧ (TrimSpace sentinel = EmptyString -> sentinelHosts sentinel = [])
  ∧ ((∃ err, createPool redisHostPort addr sentinel database = Fail err)
     ↔ sentinel = EmptyString ∧ redisHostPort = EmptyString)
  ∧ (sentinel ≠ EmptyString ->
     createPool redisHostPort addr sentinel database
     = OK (mkRedisPool 3 3 0 true (DialSentinel (sentinelHosts sentinel) database)))
  ∧ (sentinel = EmptyString -> redisHostPort ≠ EmptyString ->
     createPool redisHostPort addr sentinel database
     = OK (mkRedisPool 3 3 0 true (DialURL addr database))).
Proof.
  assert (Hlen : ∀ s : string, (0 <? String.length s)%nat = false ↔ s = EmptyString).
  { intros [|c r]; cbn; split; done. }
  split_and!.
  - intros Hts. unfold sentinelHosts.
    destruct (decide (TrimSpace sentinel = EmptyString)); [done|].
    split_and!; [apply Split_concat|apply Split_pieces|].
    intros hosts Hne Hall <-. by apply Split_of_concat.
  - intros Hts. unfold sentinelHosts.
    by destruct (decide (TrimSpace sentinel = EmptyString)).
  - unfold createPool. split.
    + intros [err Hfail].
      destruct (0 <? String.length sentinel)%nat eqn:Hs; [discriminate|].
      destruct (0 <? String.length redisHostPort)%nat eqn:Hr; [discriminate|].
      by split; apply Hlen.
    + intros [-> ->]. by eexists.
  - intros Hs. unfold createPool.
    destruct (0 <? String.length sentinel)%nat eqn:Hl; [reflexivity|].
    by apply Hlen in Hl.
  - intros -> Hr. unfold createPool.
    destruct redisHostPort as [|c r]; [done|reflexivity].
Qed.

Lemma the_pool_follows_the_sentinel_string_witness :
  @sentinelHosts asciiStrings "h1:26379,h2:26379" = ["h1:26379"; "h2:26379"]
  ∧ @createPool asciiStrings ":6379" ":6379" " " 0
    = OK (mkRedisPool 3 3 0 true (DialSentinel [] 0)).
Proof.
  split.
  - destruct (@the_pool_follows_the_sentinel_string asciiStrings
                ":6379" ":6379" "h1:26379,h2:26379" 0) as (Hcut & _).
    destruct Hcut as (_ & _ & Honly); [vm_compute; discriminate|].
    apply Honly; [done|by repeat constructor|reflexivity].
  - destruct (@the_pool_follows_the_sentinel_string asciiStrings
                ":6379" ":6379" " " 0) as (_ & Hblank & _ & Hsentinel & _).
    rewrite Hsentinel by discriminate. rewrite Hblank; reflexivity.
Defined.
